(** * crazylib: the Kalman filters and the quadcopter model of
    [crazyflie_trajectory/modules/crazylib.py], embedded in Rocq.

    Scalars are IEEE binary64 numbers, as Python's [float] and NumPy's
    [float64] are: Rocq's primitive floats.  A NumPy array is a shape with its
    row-major data; every NumPy call that can raise is a function into
    [result].  The SciPy routines ([inv], [cholesky], [cont2discrete]), the
    [math] functions [sin] and [cos] and NumPy's random generator are outside
    the repository: they are Variables of the Sections below. *)

From Stdlib Require Import Floats ZArith List Bool Lia.
From stdpp Require Import base option gmap.
Import ListNotations.

Set Warnings "-inexact-float".
Set Default Proof Using "Type".

(** ** Exceptions and results *)

(** The exception classes.  The first seven are the ones Python, NumPy and
    SciPy raise on the paths of this file ([LinAlgError] is
    [numpy.linalg.LinAlgError], which [scipy.linalg.inv] and
    [scipy.linalg.cholesky] raise).  The last five are the error kinds of the
    specification's taxonomy; they are part of the type so that a statement
    can name them. *)
Inductive exn : Set :=
  | ValueError
  | TypeError
  | IndexError
  | KeyError
  | ZeroDivisionError
  | AttributeError
  | LinAlgError
  | DimensionMismatch
  | SingularInnovationCovariance
  | SingularMeasurementCovariance
  | NonPositiveDefiniteCovariance
  | MissingRequiredParameter.

Inductive result (A : Type) : Type :=
  | Ok (a : A)
  | Err (e : exn).
Arguments Ok {A} a.
Arguments Err {A} e.

Definition rbind {A B : Type} (r : result A) (k : A -> result B) : result B :=
  match r with
  | Ok a => k a
  | Err e => Err e
  end.

Declare Scope py_scope.
Delimit Scope py_scope with py.
Notation "'let*' x ':=' c 'in' k" := (rbind c (fun x => k))
  (at level 10, x pattern, c at level 100, k at level 200) : py_scope.
Local Open Scope py_scope.

(** ** NumPy arrays *)

(** A two-dimensional array of shape [(nrows, ncols)], data in row-major
    order. *)
Record matrix : Set := Mat { nrows : nat; ncols : nat; mdata : list float }.

(** A one-dimensional array of shape [(n,)] or a two-dimensional one. *)
Inductive ndarray : Set :=
  | Arr1 (v : list float)
  | Arr2 (m : matrix).

(** An argument that the docstrings allow to be an array, the empty list [[]]
    or [None]. *)
Inductive pyarg (A : Type) : Type :=
  | PNone
  | PEmptyList
  | PArr (a : A).
Arguments PNone {A}.
Arguments PEmptyList {A}.
Arguments PArr {A} a.

Definition get (m : matrix) (i j : nat) : float :=
  nth (i * ncols m + j) (mdata m) 0%float.

Definition tabulate (r c : nat) (f : nat -> nat -> float) : matrix :=
  Mat r c (flat_map (fun i => map (f i) (seq 0 c)) (seq 0 r)).

Definition wf_matrix (m : matrix) : Prop := length (mdata m) = nrows m * ncols m.

(** Sum in index order, from [0.0]. *)
Definition fsum (l : list float) : float := fold_left PrimFloat.add l 0%float.

Definition zeros (r c : nat) : matrix := tabulate r c (fun _ _ => 0%float).

(** [np.eye(n)] *)
Definition eye (n : nat) : matrix :=
  tabulate n n (fun i j => if i =? j then 1%float else 0%float).

(** [np.transpose]: the axes of a 2-D array are swapped, a 1-D array is
    returned as it is. *)
Definition transpose (m : matrix) : matrix :=
  tabulate (ncols m) (nrows m) (fun i j => get m j i).

Definition nd_transpose (a : ndarray) : ndarray :=
  match a with
  | Arr1 v => Arr1 v
  | Arr2 m => Arr2 (transpose m)
  end.

(** [np.dot] of two 2-D arrays: the matrix product; [ValueError] when the
    inner dimensions differ. *)
Definition dot_mm (a b : matrix) : result matrix :=
  if ncols a =? nrows b
  then Ok (tabulate (nrows a) (ncols b)
             (fun i j => fsum (map (fun k => (get a i k * get b k j)%float)
                                   (seq 0 (ncols a)))))
  else Err ValueError.

(** [np.dot] of a 2-D array with a 1-D or a 2-D array. *)
Definition dot_mv (a : matrix) (b : ndarray) : result ndarray :=
  match b with
  | Arr1 v =>
      if ncols a =? length v
      then Ok (Arr1 (map (fun i => fsum (map (fun k => (get a i k * nth k v 0)%float)
                                             (seq 0 (ncols a))))
                         (seq 0 (nrows a))))
      else Err ValueError
  | Arr2 m => let* p := dot_mm a m in Ok (Arr2 p)
  end.

(** Broadcasting of one axis: equal lengths, or one of them is 1. *)
Definition bdim (a b : nat) : option nat :=
  if a =? b then Some a
  else if a =? 1 then Some b
  else if b =? 1 then Some a
  else None.

(** An elementwise operation on two 2-D arrays with NumPy's broadcasting;
    [ValueError] when the shapes cannot be broadcast together. *)
Definition broadcast2 (f : float -> float -> float) (a b : matrix) : result matrix :=
  match bdim (nrows a) (nrows b), bdim (ncols a) (ncols b) with
  | Some r, Some c =>
      Ok (tabulate r c (fun i j =>
            f (get a (if nrows a =? 1 then 0 else i) (if ncols a =? 1 then 0 else j))
              (get b (if nrows b =? 1 then 0 else i) (if ncols b =? 1 then 0 else j))))
  | _, _ => Err ValueError
  end.

Definition as_row (v : list float) : matrix := Mat 1 (length v) v.

(** The same on arrays of either rank: a 1-D operand of shape [(n,)] is
    broadcast as [(1, n)], and the result is 1-D only when both operands
    are. *)
Definition nd_broadcast (f : float -> float -> float) (a b : ndarray) : result ndarray :=
  match a, b with
  | Arr1 v, Arr1 w => let* m := broadcast2 f (as_row v) (as_row w) in Ok (Arr1 (mdata m))
  | Arr1 v, Arr2 n => let* m := broadcast2 f (as_row v) n in Ok (Arr2 m)
  | Arr2 m, Arr1 w => let* p := broadcast2 f m (as_row w) in Ok (Arr2 p)
  | Arr2 m, Arr2 n => let* p := broadcast2 f m n in Ok (Arr2 p)
  end.

Definition m_add := broadcast2 PrimFloat.add.
Definition m_sub := broadcast2 PrimFloat.sub.
Definition nd_add := nd_broadcast PrimFloat.add.
Definition nd_sub := nd_broadcast PrimFloat.sub.

(** [s * M] for a Python float [s]. *)
Definition m_scale (s : float) (m : matrix) : matrix :=
  Mat (nrows m) (ncols m) (map (fun a => (s * a)%float) (mdata m)).

(** [M * s] *)
Definition m_scale_r (m : matrix) (s : float) : matrix :=
  Mat (nrows m) (ncols m) (map (fun a => (a * s)%float) (mdata m)).

(** [-M] *)
Definition m_neg (m : matrix) : matrix :=
  Mat (nrows m) (ncols m) (map PrimFloat.opp (mdata m)).

(** Row [i] of a 2-D array, as the 1-D array [a[i]]. *)
Definition row (m : matrix) (i : nat) : list float :=
  map (fun j => get m i j) (seq 0 (ncols m)).

(** [zhist[0:-1] = zhist[1:]]: every row but the last takes the values of
    the row after it. *)
Definition shift_rows (m : matrix) : matrix :=
  tabulate (nrows m) (ncols m)
    (fun i j => if S i <? nrows m then get m (S i) j else get m i j).

(** The values of [z] broadcast to a row of [k] entries, as the assignment
    [zhist[-1] = z] does: a 1-D array of length [k] or 1, or a 2-D array
    with one row of that length. *)
Definition broadcast_to_row (k : nat) (z : ndarray) : result (list float) :=
  let fit (v : list float) :=
    if length v =? k then Ok v
    else if length v =? 1 then Ok (repeat (nth 0 v 0%float) k)
    else Err ValueError in
  match z with
  | Arr1 v => fit v
  | Arr2 m => if nrows m =? 1 then fit (row m 0) else Err ValueError
  end.

(** The values that the assignment [zhist[-1] = z] writes to a row of [k]
    entries: an array is broadcast to the row; [None] is converted to NaN,
    which fills the row. *)
Definition row_for (k : nat) (z : option ndarray) : result (list float) :=
  match z with
  | None => Ok (repeat nan k)
  | Some z => broadcast_to_row k z
  end.

(** Row [i] of [m] replaced by [v]. *)
Definition set_row (m : matrix) (i : nat) (v : list float) : matrix :=
  tabulate (nrows m) (ncols m)
    (fun i' j => if i' =? i then nth j v 0%float else get m i' j).

(** Entry [(i, j)] of [m] replaced by [a]. *)
Definition set_entry (m : matrix) (i j : nat) (a : float) : matrix :=
  tabulate (nrows m) (ncols m)
    (fun i' j' => if (i' =? i) && (j' =? j) then a else get m i' j').

(** [R[1,1]] *)
Definition index11 (R : matrix) : result float :=
  if (1 <? nrows R) && (1 <? ncols R) then Ok (get R 1 1) else Err IndexError.

(** A Python [int] as a [float] (exact below 2^53). *)
Definition float_of_Z (n : Z) : float :=
  match n with
  | Z0 => 0%float
  | Zpos _ => PrimFloat.of_uint63 (Uint63.of_Z n)
  | Zneg p => (- PrimFloat.of_uint63 (Uint63.of_Z (Zpos p)))%float
  end.

(** [arg == []] as a condition.  [None == []] is [False] and [[] == []] is
    [True] in Python, whatever the version of NumPy.  For an array the
    comparison is NumPy's, and the model is that of NumPy up to 1.24, the
    versions of the time of the code: the array is compared elementwise
    against an empty operand, and the outcome is an empty array or, when the
    shapes do not broadcast, the scalar [False] (with a warning); both are
    false as a condition.  From NumPy 1.25 on the comparison of shapes that do
    not broadcast raises [ValueError] instead. *)
Definition eq_empty_list {A : Type} (a : pyarg A) : bool :=
  match a with
  | PEmptyList => true
  | PNone | PArr _ => false
  end.

(** [np.dot(B, u)] on the else-branch of the prediction, where neither operand
    is [[]]: [None] as an operand is a [TypeError]. *)
Definition py_dot (B : pyarg matrix) (u : pyarg ndarray) : result ndarray :=
  match B, u with
  | PArr b, PArr v => dot_mv b v
  | _, _ => Err TypeError
  end.

(** A control signal that is [None], [[]], a 1-D array or a 2-D array of one
    column. *)
Definition no_wide_control (u : pyarg ndarray) : Prop :=
  match u with
  | PArr (Arr2 mu) => ncols mu = 1
  | _ => True
  end.

(** ** The linear Kalman step *)

(** Lines 50-53, the predicted state [xf]. *)
Definition predict_state (x : ndarray) (u : pyarg ndarray) (A : matrix)
    (B : pyarg matrix) : result ndarray :=
  if eq_empty_list B || eq_empty_list u
  then let* Ax := dot_mv A x in Ok (nd_transpose Ax)
  else let* Ax := dot_mv A x in
       let* Bu := py_dot B u in
       nd_add (nd_transpose Ax) (nd_transpose Bu).

(** Line 54, the predicted covariance [Pf]. *)
Definition predict_covariance (A P Q : matrix) : result matrix :=
  let* AP := dot_mm A P in
  let* APAt := dot_mm AP (transpose A) in
  m_add APAt Q.

(** Line 59, the innovation covariance [Kden]. *)
Definition innovation_covariance (C Pf R : matrix) : result matrix :=
  let* PfCt := dot_mm Pf (transpose C) in
  let* CPfCt := dot_mm C PfCt in
  m_add CPfCt R.

Section LinearKalman.

(** [scipy.linalg.inv] *)
Variable inv : matrix -> result matrix.

(** [discrete_KF_update(x, u, z, A, B, C, P, Q, R)], lines 49-66. *)
Definition discrete_KF_update (x : ndarray) (u : pyarg ndarray) (z : option ndarray)
    (A : matrix) (B : pyarg matrix) (C P Q R : matrix) : result (ndarray * matrix) :=
  let* xf := predict_state x u A B in
  let* Pf := predict_covariance A P Q in
  match z with
  | Some z =>
      let* Knum := dot_mm Pf (transpose C) in
      let* Kden := innovation_covariance C Pf R in
      let* Kdeninv := inv Kden in
      let* K := dot_mm Knum Kdeninv in
      let* Cxf := dot_mv C xf in
      let* innov := nd_sub z Cxf in
      let* Kinnov := dot_mv K innov in
      let* xhat := nd_add xf Kinnov in
      let* KC := dot_mm K C in
      let* IKC := m_sub (eye (nrows Q)) KC in
      let* Pnew := dot_mm IKC Pf in
      Ok (xhat, Pnew)
  | None => Ok (xf, Pf)
  end.

End LinearKalman.

(** ** The world outside the arguments *)

(** The measurement history is a NumPy array that the asynchronous step
    updates in place: arrays that a call writes to live in a heap, and the
    call is given a reference.  NumPy's global random generator is the other
    piece of state a call can read and change. *)
Definition loc := nat.

Section World.

(** The state of [np.random]'s global generator and [np.random.randn(1)],
    which returns one sample and advances the generator. *)
Variable rng_state : Type.
Variable randn : rng_state -> float * rng_state.

Record world : Type := World { heap : gmap loc matrix; rng : rng_state }.

(** A computation that reads and writes the world and may raise.  The world
    is returned in both cases: what was written before an exception stays
    written. *)
Definition M (A : Type) : Type := world -> result A * world.

Definition ret {A : Type} (a : A) : M A := fun w => (Ok a, w).
Definition raise {A : Type} (e : exn) : M A := fun w => (Err e, w).
Definition sbind {A B : Type} (c : M A) (k : A -> M B) : M B :=
  fun w => match c w with
           | (Ok a, w') => k a w'
           | (Err e, w') => (Err e, w')
           end.
Definition lift {A : Type} (r : result A) : M A := fun w => (r, w).

Notation "'let!' x ':=' c 'in' k" := (sbind c (fun x => k))
  (at level 10, x pattern, c at level 100, k at level 200).

(** The array a reference is bound to. *)
Definition deref (l : loc) : M matrix :=
  fun w => match heap w !! l with
           | Some m => (Ok m, w)
           | None => (Err TypeError, w)
           end.

Definition store (l : loc) (m : matrix) : M unit :=
  fun w => (Ok tt, World (<[l := m]> (heap w)) (rng w)).

Definition draw : M float :=
  fun w => let '(s, g) := randn (rng w) in (Ok s, World (heap w) g).

(** The sample that the [n]-th call of [np.random.randn(1)] from the state
    [g] returns, counting from 0. *)
Fixpoint nth_sample (g : rng_state) (n : nat) : float :=
  match n with
  | 0 => fst (randn g)
  | S n' => nth_sample (snd (randn g)) n'
  end.

(** [len(zhist)] *)
Definition ndlen (l : loc) : M nat :=
  let! m := deref l in ret (nrows m).

(** Lines 113-114, the update of the history in place. *)
Definition zhist_shift_insert (zhist : loc) (z : option ndarray) : M unit :=
  let! m := deref zhist in
  let! _ := store zhist (shift_rows m) in
  let! m1 := deref zhist in
  match nrows m1 with
  | 0 => raise IndexError
  | S w =>
      let! v := lift (row_for (ncols m1) z) in
      store zhist (set_row m1 w v)
  end.

(** [zhist[i][j]] *)
Definition zhist_entry (zhist : loc) (i j : nat) : M float :=
  let! m := deref zhist in
  if (i <? nrows m) && (j <? ncols m) then ret (get m i j) else raise IndexError.

(** [zhist[i]], read as a 1-D array. *)
Definition zhist_row (zhist : loc) (i : nat) : M ndarray :=
  let! m := deref zhist in
  if i <? nrows m then ret (Arr1 (row m i)) else raise IndexError.

(** [zpred = zhist[i]; zpred[j] = a]: [zpred] is a view of the row, the
    entry is written into the history itself. *)
Definition zhist_set_entry (zhist : loc) (i j : nat) (a : float) : M unit :=
  let! m := deref zhist in
  if (i <? nrows m) && (j <? ncols m) then store zhist (set_entry m i j a)
  else raise IndexError.

Variable inv : matrix -> result matrix.

(** The loop of lines 126-129 over the values [iis] of [ii] still to run. *)
Fixpoint akf_forward (iis : list nat) (u : pyarg ndarray) (zhist : loc)
    (A : matrix) (B : pyarg matrix) (C Q R : matrix)
    (trajectory : float -> float) (t Ts : float)
    (xpred : ndarray) (Ppred : matrix) : M (ndarray * matrix) :=
  match iis with
  | [] => ret (xpred, Ppred)
  | ii :: rest =>
      let! W := ndlen zhist in
      let ref := trajectory (t + float_of_Z (1 + Z.of_nat ii - Z.of_nat W) * Ts)%float in
      let! s := draw in
      let! R11 := lift (index11 R) in
      let! _ := zhist_set_entry zhist (ii + 1) 1 (ref + s * R11)%float in
      let! zi := zhist_row zhist (ii + 1) in
      let! (xpred', Ppred') :=
        lift (discrete_KF_update inv xpred u (Some zi) A B C Ppred Q R) in
      akf_forward rest u zhist A B C Q R trajectory t Ts xpred' Ppred'
  end.

(** [discrete_AKF_update(x, u, z, zhist, A, B, C, P, Q, R, trajectory, t, Ts)],
    lines 112-131.  The history returned is the reference that was
    passed. *)
Definition discrete_AKF_update (x : ndarray) (u : pyarg ndarray) (z : option ndarray)
    (zhist : loc) (A : matrix) (B : pyarg matrix) (C P Q R : matrix)
    (trajectory : float -> float) (t Ts : float)
    : M (ndarray * ndarray * matrix * loc) :=
  let! _ := zhist_shift_insert zhist z in
  let! head := zhist_entry zhist 0 0 in
  if PrimFloat.is_nan head
  then ret (x, x, P, zhist)
  else
    let! W := ndlen zhist in
    let! zlast := zhist_row zhist (W - 1) in
    let! (xhat, P') := lift (discrete_KF_update inv x u (Some zlast) A B C P Q R) in
    let! W' := ndlen zhist in
    let! (xpred, _) :=
      akf_forward (seq 0 (W' - 1)) u zhist A B C Q R trajectory t Ts xhat P' in
    ret (xhat, xpred, P', zhist).

End World.

Arguments World {rng_state} heap rng.
Arguments heap {rng_state} w.
Arguments rng {rng_state} w.

(** The state of the generator after [n] calls of [np.random.randn(1)] from
    the state [g]. *)
Fixpoint advance {rng_state : Type} (randn : rng_state -> float * rng_state)
    (g : rng_state) (n : nat) : rng_state :=
  match n with
  | 0 => g
  | S n' => advance randn (snd (randn g)) n'
  end.

(** ** The unscented Kalman step *)

(** [a / b] on Python floats: division by zero raises. *)
Definition py_div (a b : float) : result float :=
  if PrimFloat.eqb b 0 then Err ZeroDivisionError else Ok (a / b)%float.

(** [math.sqrt]: a negative argument is a "math domain error". *)
Definition py_sqrt (a : float) : result float :=
  if PrimFloat.ltb a 0 then Err ValueError else Ok (PrimFloat.sqrt a).

(** A Python [int] that is a length, as a [float]. *)
Definition float_of_nat (n : nat) : float := float_of_Z (Z.of_nat n).

(** [a.shape[0]] *)
Definition shape0 (a : ndarray) : nat :=
  match a with
  | Arr1 v => length v
  | Arr2 m => nrows m
  end.

(** [np.tile(a, (1, n))]: [n] copies of [a] side by side; a 1-D array is
    tiled as one row. *)
Definition tile_cols (a : ndarray) (n : nat) : matrix :=
  let m := match a with Arr1 v => as_row v | Arr2 m => m end in
  tabulate (nrows m) (ncols m * n) (fun i j => get m i (j mod ncols m)).

(** [np.hstack((a, b, c))] with [b] and [c] 2-D: the columns of the three side
    by side; [ValueError] when [a] is 1-D or the numbers of rows differ. *)
Definition hstack3 (a : ndarray) (b c : matrix) : result matrix :=
  match a with
  | Arr1 _ => Err ValueError
  | Arr2 m =>
      if (nrows m =? nrows b) && (nrows m =? nrows c)
      then Ok (tabulate (nrows m) (ncols m + ncols b + ncols c)
                 (fun i j => if j <? ncols m then get m i j
                             else if j <? ncols m + ncols b then get b i (j - ncols m)
                             else get c i (j - ncols m - ncols b)))
      else Err ValueError
  end.

(** [M[:,[j]]]: column [j] as an array of shape [(nrows, 1)]. *)
Definition column (m : matrix) (j : nat) : result matrix :=
  if j <? ncols m then Ok (tabulate (nrows m) 1 (fun i _ => get m i j))
  else Err IndexError.

(** [M[:,[j]] = v]: the value is broadcast to the shape [(nrows, 1)]. *)
Definition set_column (m : matrix) (j : nat) (v : ndarray) : result matrix :=
  if j <? ncols m then
    let src := match v with Arr1 w => as_row w | Arr2 n => n end in
    if ((nrows src =? nrows m) || (nrows src =? 1)) && (ncols src =? 1)
    then Ok (tabulate (nrows m) (ncols m)
               (fun i j' => if j' =? j
                            then get src (if nrows src =? 1 then 0 else i) 0
                            else get m i j'))
    else Err ValueError
  else Err IndexError.

(** [a += b]: the sum is broadcast and must have the shape of [a]. *)
Definition m_iadd (a b : matrix) : result matrix :=
  let* s := m_add a b in
  if (nrows s =? nrows a) && (ncols s =? ncols a) then Ok s else Err ValueError.

(** [np.diag(w)] for a 1-D [w]. *)
Definition diag (w : list float) : matrix :=
  tabulate (length w) (length w) (fun i j => if i =? j then nth i w 0%float else 0%float).

(** Lines 174-188: the scaling factor and the two weight vectors for [L]
    states. *)
Definition ukf_beta : float := 2%float.
Definition ukf_alpha : float := 0.5%float.
Definition ukf_keta : nat := 0.

Definition ukf_lam (L : nat) : float :=
  (ukf_alpha * ukf_alpha * float_of_nat (L + ukf_keta) - float_of_nat L)%float.

Definition ukf_weights (L : nat) : result (list float * list float) :=
  let lam := ukf_lam L in
  let* Wm0 := py_div lam (float_of_nat L + lam) in
  let* wmi := py_div 1 (2 * (float_of_nat L + lam)) in
  let Wmi := map (fun one => (wmi * one)%float) (repeat 1%float (2 * L)) in
  let Wm := Wm0 :: Wmi in
  let* c0 := py_div lam (float_of_nat L + lam) in
  let Wc0 := (c0 + (1 - ukf_alpha * ukf_alpha + ukf_beta))%float in
  let* wci := py_div 1 (2 * (float_of_nat L + lam)) in
  let Wci := map (fun one => (wci * one)%float) (repeat 1%float (2 * L)) in
  let Wc := Wc0 :: Wci in
  Ok (Wm, Wc).

(** The array behind [u.shape] (line 172, [Nu = u.shape[0]]): [None] and
    [[]], which the docstring allows for [u], have no attribute [shape]. *)
Definition the_array (u : pyarg ndarray) : result ndarray :=
  match u with
  | PArr a => Ok a
  | PNone | PEmptyList => Err AttributeError
  end.

Section UnscentedKalman.

(** [scipy.linalg.cholesky] (the upper factor) and [scipy.linalg.inv]. *)
Variable cholesky : matrix -> result matrix.
Variable inv : matrix -> result matrix.

(** The parameter dictionary and what [F] returns besides the state are
    the caller's. *)
Variables (param aux : Type).

(** Lines 191-192: the sigma points, one per column. *)
Definition ukf_sigma_points (x : ndarray) (P : matrix) : result matrix :=
  let L := shape0 x in
  let* s := py_sqrt (float_of_nat L + ukf_lam L) in
  let* U := cholesky P in
  let Psqrt := m_scale s (transpose U) in
  let* Xplus := m_add (tile_cols x L) Psqrt in
  let* Xminus := m_sub (tile_cols x L) Psqrt in
  hstack3 x Xplus Xminus.

(** The loop of lines 195-196: [Xf[:,[ii]], _ = F(X[:,[ii]], u, param)]. *)
Fixpoint ukf_propagate (F : ndarray -> ndarray -> param -> result (ndarray * aux))
    (u : ndarray) (pm : param) (X : matrix) (iis : list nat) (Xf : matrix)
    : result matrix :=
  match iis with
  | [] => Ok Xf
  | ii :: rest =>
      let* Xi := column X ii in
      let* (xi, _) := F (Arr2 Xi) u pm in
      let* Xf' := set_column Xf ii xi in
      ukf_propagate F u pm X rest Xf'
  end.

(** The loops of lines 200-201 and 210-211: [mean += Wm[ii]*Xf[:,[ii]]]. *)
Fixpoint ukf_mean (Wm : list float) (Xf : matrix) (iis : list nat) (mean : matrix)
    : result matrix :=
  match iis with
  | [] => Ok mean
  | ii :: rest =>
      let* w := match nth_error Wm ii with Some w => Ok w | None => Err IndexError end in
      let* Xi := column Xf ii in
      let* mean' := m_iadd mean (m_scale w Xi) in
      ukf_mean Wm Xf rest mean'
  end.

(** The loop of lines 206-207: [Yf[:,[ii]] = H(Xf[:,[ii]])]. *)
Fixpoint ukf_measure (H : ndarray -> result ndarray) (Xf : matrix) (iis : list nat)
    (Yf : matrix) : result matrix :=
  match iis with
  | [] => Ok Yf
  | ii :: rest =>
      let* Xi := column Xf ii in
      let* yi := H (Arr2 Xi) in
      let* Yf' := set_column Yf ii yi in
      ukf_measure H Xf rest Yf'
  end.

(** [discrete_UKF_update(x, u, z, F, H, param, P, Q, R)], lines 170-223. *)
Definition discrete_UKF_update (x : ndarray) (u : pyarg ndarray) (z : ndarray)
    (F : ndarray -> ndarray -> param -> result (ndarray * aux))
    (H : ndarray -> result ndarray) (pm : param) (P Q R : matrix)
    : result (ndarray * matrix) :=
  let L := shape0 x in
  let* u := the_array u in
  let Nz := shape0 z in
  let* (Wm, Wc) := ukf_weights L in
  let* X := ukf_sigma_points x P in
  let iis := seq 0 (2 * L + 1) in
  let* Xf := ukf_propagate F u pm X iis (zeros (nrows X) (ncols X)) in
  let* xMean := ukf_mean Wm Xf iis (zeros L 1) in
  let* xDev := m_sub Xf (tile_cols (Arr2 xMean) (2 * L + 1)) in
  let* Yf := ukf_measure H Xf iis (zeros Nz (2 * L + 1)) in
  let* yMean := ukf_mean Wm Yf iis (zeros Nz 1) in
  let* yDev := m_sub Yf (tile_cols (Arr2 yMean) (2 * L + 1)) in
  let* xW := dot_mm xDev (diag Wc) in
  let* Pxx0 := dot_mm xW (transpose xDev) in
  let* Pxx := m_add Pxx0 Q in
  let* xW' := dot_mm xDev (diag Wc) in
  let* Pxy := dot_mm xW' (transpose yDev) in
  let* yW := dot_mm yDev (diag Wc) in
  let* Pyy0 := dot_mm yW (transpose yDev) in
  let* Pyy := m_add Pyy0 R in
  let* Pyyinv := inv Pyy in
  let* K := dot_mm Pxy Pyyinv in
  let* innov := nd_sub z (Arr2 yMean) in
  let* Kinnov := dot_mv K innov in
  let* xhat := nd_add (Arr2 xMean) Kinnov in
  let* KPyy := dot_mm K Pyy in
  let* KPyyKt := dot_mm KPyy (transpose K) in
  let* Pnew := m_sub Pxx KPyyKt in
  Ok (xhat, Pnew).

End UnscentedKalman.

(** ** The dynamics model *)

(** The values the model reads from the parameter dictionary:
    [param['global']['inner_loop_h']] and, under [param['quadcopter_model']],
    [g], [m], [k], [A], [I], [l] and [b]. *)
Record quad_param : Set := QuadParam {
  inner_loop_h : float;
  p_g : float;
  p_m : float;
  p_k : float;
  p_A : float * float * float;
  p_I : float * float * float;
  p_l : float;
  p_b : float
}.

(** The parameter dictionary as it is passed.  An entry is [None] when its
    key is missing, or the key of the dictionary that holds it ([global],
    [quadcopter_model]). *)
Record param_dict : Set := ParamDict {
  d_inner_loop_h : option float;
  d_g : option float;
  d_m : option float;
  d_k : option float;
  d_A : option (float * float * float);
  d_I : option (float * float * float);
  d_l : option float;
  d_b : option float
}.

(** [d[key]]: a missing key is a [KeyError]. *)
Definition lookup {A : Type} (entry : option A) : result A :=
  match entry with
  | Some a => Ok a
  | None => Err KeyError
  end.

(** Lines 248-255: the eight entries are read in this order. *)
Definition read_param (d : param_dict) : result quad_param :=
  let* Ts := lookup (d_inner_loop_h d) in
  let* g := lookup (d_g d) in
  let* m := lookup (d_m d) in
  let* k := lookup (d_k d) in
  let* drag := lookup (d_A d) in
  let* inertias := lookup (d_I d) in
  let* l := lookup (d_l d) in
  let* b := lookup (d_b d) in
  Ok (QuadParam Ts g m k drag inertias l b).

(** The dictionary that holds all eight entries, with the values of
    [param]; and a dictionary with another value for [g]. *)
Definition complete (param : quad_param) : param_dict :=
  ParamDict (Some (inner_loop_h param)) (Some (p_g param)) (Some (p_m param))
    (Some (p_k param)) (Some (p_A param)) (Some (p_I param))
    (Some (p_l param)) (Some (p_b param)).

Definition with_g (d : param_dict) (g : float) : param_dict :=
  ParamDict (d_inner_loop_h d) (Some g) (d_m d) (d_k d) (d_A d) (d_I d)
    (d_l d) (d_b d).

(** [a ** 2] *)
Definition sq (a : float) : float := (a * a)%float.

(** [M[r0:r0+h, c0:c0+w] = v] with [v] broadcast to the shape [(h, w)]. *)
Definition set_block (m : matrix) (r0 c0 h w : nat) (v : matrix) : result matrix :=
  if ((nrows v =? h) || (nrows v =? 1)) && ((ncols v =? w) || (ncols v =? 1))
  then Ok (tabulate (nrows m) (ncols m)
             (fun i j =>
                if (r0 <=? i) && (i <? r0 + h) && (c0 <=? j) && (j <? c0 + w)
                then get v (if nrows v =? 1 then 0 else i - r0)
                           (if ncols v =? 1 then 0 else j - c0)
                else get m i j))
  else Err ValueError.

(** [np.reshape(x[6:12,0:1],[1,6])[0]]: the six entries below row 6 of the
    first column.  A 1-D [x] cannot take two indices, and the slice must hold
    six entries to be reshaped. *)
Definition angles_and_rates (x : ndarray)
    : result (float * float * float * float * float * float) :=
  match x with
  | Arr1 _ => Err IndexError
  | Arr2 m =>
      if (12 <=? nrows m) && (1 <=? ncols m)
      then Ok (get m 6 0, get m 7 0, get m 8 0, get m 9 0, get m 10 0, get m 11 0)
      else Err ValueError
  end.

(** [u[:,0]] *)
Definition first_column (u : ndarray) : result (list float) :=
  match u with
  | Arr1 _ => Err IndexError
  | Arr2 m => if 1 <=? ncols m
              then Ok (map (fun i => get m i 0) (seq 0 (nrows m)))
              else Err IndexError
  end.

(** [v[i]] *)
Definition index (v : list float) (i : nat) : result float :=
  match nth_error v i with
  | Some a => Ok a
  | None => Err IndexError
  end.

Section Dynamics.

(** The sine and the cosine of the C library, [scipy.linalg.inv] and
    [scipy.signal.cont2discrete((Ac,Bc,Cc,Dc), Ts, method='zoh')], of whose
    result the model keeps the first three matrices. *)
Variables sin cos : float -> float.
Variable inv : matrix -> result matrix.
Variable cont2discrete : matrix -> matrix -> matrix -> float ->
                         result (matrix * matrix * matrix).

Local Open Scope float_scope.

(** [math.sin] and [math.cos]: an infinite argument is a "math domain
    error", a [ValueError]; NaN is passed on. *)
Definition py_sin (a : float) : result float :=
  if PrimFloat.is_infinity a then Err ValueError else Ok (sin a).

Definition py_cos (a : float) : result float :=
  if PrimFloat.is_infinity a then Err ValueError else Ok (cos a).

(** Lines 269-298, the matrix [C] of the Coriolis terms, from the sines and
    cosines of lines 262-267. *)
Definition coriolis (Ixx Iyy Izz Sphi Stheta Cphi Ctheta psi phidot thetadot psidot : float)
    : matrix :=
  let C11 := 0 in
  let C12 := ((Iyy - Izz) * (thetadot * Cphi * Sphi +
               psidot * sq Sphi * Ctheta) +
              (Izz - Iyy) * psidot * sq Cphi * Ctheta -
              Ixx * psidot * Ctheta) in
  let C13 := (Izz - Iyy) * psidot * Cphi * Sphi * sq Ctheta in
  let C21 := ((Izz - Iyy) * (thetadot * Cphi * Sphi +
               psidot * Sphi * Ctheta) +
              (Iyy - Izz) * psidot * sq Cphi * Ctheta -
              Ixx * psidot * Ctheta) in
  let C22 := (Izz - Iyy) * phidot * Cphi * Sphi in
  let C23 := (- Ixx * psidot * Stheta * Ctheta +
              Iyy * psidot * sq Sphi * Stheta * Ctheta +
              Izz * psidot * sq Cphi * Stheta * Ctheta) in
  let C31 := ((Iyy - Izz) * psidot * sq Ctheta * Sphi * Cphi -
              Ixx * thetadot * Ctheta) in
  let C32 := ((Izz - Iyy) * (thetadot * Cphi * Sphi * Stheta +
               phidot * sq Sphi * Ctheta) +
              (Iyy - Izz) * phidot * sq Cphi * Ctheta +
              Ixx * psidot * Stheta * Ctheta -
              Iyy * psidot * sq Sphi * Stheta * Ctheta -
              Izz * psi * sq Cphi * Stheta * Ctheta) in
  let C33 := ((Iyy - Izz) * phidot * Cphi * Sphi * sq Ctheta -
              Iyy * thetadot * sq Sphi * Ctheta * Stheta -
              Izz * thetadot * sq Cphi * Ctheta * Stheta +
              Ixx * thetadot * Ctheta * Stheta) in
  Mat 3 3 [C11; C12; C13; C21; C22; C23; C31; C32; C33].

(** Lines 307-319, the matrix [J]. *)
Definition inertia (Ixx Iyy Izz Sphi Stheta Cphi Ctheta : float) : matrix :=
  let J11 := Ixx in
  let J12 := 0 in
  let J13 := - Ixx * Stheta in
  let J21 := 0 in
  let J22 := Iyy * sq Cphi + Izz * sq Sphi in
  let J23 := (Iyy - Izz) * Cphi * Sphi * Ctheta in
  let J31 := - Ixx * Stheta in
  let J32 := (Iyy - Izz) * Cphi * Sphi * Ctheta in
  let J33 := (Ixx * sq Stheta + Iyy * sq Sphi * sq Ctheta +
              Izz * sq Cphi * sq Ctheta) in
  Mat 3 3 [J11; J12; J13; J21; J22; J23; J31; J32; J33].

(** Lines 350-351: [G = np.zeros([12,1]); G[5,0] = -g]. *)
Definition gravity (g : float) : matrix := set_entry (zeros 12 1) 5 0 (- g).

(** Lines 257-342: the thrust [T], the torques [tau_b] and the matrices
    [Ac], [Bc] and [Cc] of the continuous-time system, from the angles and
    rates of line 247 and the parameters of lines 248-255. *)
Definition system_matrices
    (angles : float * float * float * float * float * float)
    (u : ndarray) (param : quad_param)
    : result (matrix * matrix * matrix * float * matrix) :=
  let '(phi, theta, psi, phidot, thetadot, psidot) := angles in
  let m := p_m param in
  let k := p_k param in
  let A := p_A param in
  let I := p_I param in
  let l := p_l param in
  let b := p_b param in
  let* u := first_column u in
  let T := k * fsum (map sq u) in
  let '(Ixx, Iyy, Izz) := I in
  let* Sphi := py_sin phi in
  let* Stheta := py_sin theta in
  let* Spsi := py_sin psi in
  let* Cphi := py_cos phi in
  let* Ctheta := py_cos theta in
  let* Cpsi := py_cos psi in
  let C := coriolis Ixx Iyy Izz Sphi Stheta Cphi Ctheta psi phidot thetadot psidot in
  let* u1 := index u 1 in
  let* u3 := index u 3 in
  let tau_phi := l * k * (- sq u1 + sq u3) in
  let* u0 := index u 0 in
  let* u2 := index u 2 in
  let tau_theta := l * k * (- sq u0 + sq u2) in
  let tau_psi := b * (sq u0 - sq u1 + sq u2 - sq u3) in
  let tau_b := Mat 3 1 [tau_phi; tau_theta; tau_psi] in
  let J := inertia Ixx Iyy Izz Sphi Stheta Cphi Ctheta in
  let* invJ := inv J in
  let I3 := diag [1; 1; 1] in
  let Ac := zeros 12 12 in
  let* Ac := set_block Ac 0 3 3 3 I3 in
  let* minv := py_div 1 m in
  let '(A1, A2, A3) := A in
  let* Ac := set_block Ac 3 3 3 3 (m_scale (- minv) (diag [A1; A2; A3])) in
  let* Ac := set_block Ac 6 9 3 3 I3 in
  let* invJC := dot_mm invJ C in
  let* Ac := set_block Ac 9 9 3 3 (m_neg invJC) in
  let* minv' := py_div 1 m in
  (* the sines and cosines are called again here; the calls return, as the
     same calls did at lines 262-267 *)
  let Rz := m_scale minv'
              (Mat 3 1 [cos psi * sin theta * cos phi + sin psi * sin phi;
                        sin psi * sin theta * cos phi - cos psi * sin phi;
                        cos theta * cos phi]) in
  let Bc := zeros 12 4 in
  let* Bc := set_block Bc 3 0 3 1 Rz in
  let* Bc := set_block Bc 9 1 3 3 invJ in
  let Cc := zeros 7 12 in
  let* Cc := set_block Cc 0 2 7 7 (diag [1; 1; 1; 1; 1; 1; 1]) in
  Ok (Ac, Bc, Cc, T, tau_b).

(** The continuous-time system for a state [x] and parameters that were
    all found: line 247, then lines 257-342. *)
Definition continuous_system (x u : ndarray) (param : quad_param)
    : result (matrix * matrix * matrix * float * matrix) :=
  let* angles := angles_and_rates x in
  system_matrices angles u param.

(** [quadcopter_dynamics(x, u, param)], lines 247-358. *)
Definition quadcopter_dynamics (x u : ndarray) (d : param_dict)
    : result (ndarray * ndarray) :=
  let* angles := angles_and_rates x in
  let* param := read_param d in
  let Ts := inner_loop_h param in
  let g := p_g param in
  let* (Ac, Bc, Cc, T, tau_b) := system_matrices angles u param in
  let* (Ad, Bd, Cd) := cont2discrete Ac Bc Cc Ts in
  let G := gravity g in
  let u := Mat 4 1 (T :: mdata tau_b) in
  let* Adx := dot_mv Ad x in
  let* Bdu := dot_mm Bd u in
  let* free := nd_add Adx (Arr2 Bdu) in
  let* xout := nd_add free (Arr2 (m_scale_r G Ts)) in
  let* yout := dot_mv Cd x in
  Ok (xout, yout).

End Dynamics.

(** ** Relations used in the statements *)

(** [m'] has the shape of [m] and its entries, but for column 1 of the rows
    after the first: the places where the forward loop of the asynchronous
    step writes. *)
Definition agree_off_synthesized (m m' : matrix) : Prop :=
  nrows m' = nrows m /\ ncols m' = ncols m /\
  forall i j, i < nrows m -> j < ncols m -> i = 0 \/ j <> 1 -> get m' i j = get m i j.

(** A binary64 number that is neither an infinity nor NaN, and an array of
    such numbers. *)
Definition is_finite (a : float) : bool :=
  match Prim2SF a with
  | S754_zero _ | S754_finite _ _ _ => true
  | S754_infinity _ | S754_nan => false
  end.

Definition finite_matrix (m : matrix) : bool := forallb is_finite (mdata m).

(** [0.0] or [-0.0]. *)
Definition is_zero (a : float) : bool := PrimFloat.eqb a 0.

(** An array of zeros ([0.0] or [-0.0]), and the same and finiteness entry by
    entry. *)
Definition zero_matrix (m : matrix) : bool := forallb is_zero (mdata m).

Definition zero_entries (m : matrix) : Prop :=
  forall i j, i < nrows m -> j < ncols m -> is_zero (get m i j) = true.

Definition finite_entries (m : matrix) : Prop :=
  forall i j, i < nrows m -> j < ncols m -> is_finite (get m i j) = true.

(** The value that round [ii] of the forward loop writes to a history of [W]
    slots when the generator yields the sample [s]:
    [trajectory(t + (1 + ii - W)*Ts) + s*R[1,1]]. *)
Definition synthesized (trajectory : float -> float) (t Ts : float) (W : nat)
    (R : matrix) (ii : nat) (s : float) : float :=
  (trajectory (t + float_of_Z (1 + Z.of_nat ii - Z.of_nat W) * Ts) + s * get R 1 1)%float.

(** ** Library routines for concrete runs

    The statements about the filters and the model hold for every [inv],
    [cholesky], [cont2discrete], [sin], [cos] and random generator.  Where a
    statement runs the code on concrete numbers it uses the ones below. *)

(** A generator that hands out the samples of a list in turn ([0.0] once the
    list is used up): [np.random.randn] after the global generator was put in
    the state that yields those samples. *)
Definition randn_list (g : list float) : float * list float :=
  match g with
  | [] => (0%float, [])
  | s :: g' => (s, g')
  end.

(** Rows of equal length combined entry by entry. *)
Fixpoint zip_with (f : float -> float -> float) (a b : list float) : list float :=
  match a, b with
  | x :: a', y :: b' => f x y :: zip_with f a' b'
  | _, _ => []
  end.

(** The row of [rows] whose entry in column [col] is largest in absolute
    value, and the other rows. *)
Fixpoint pick_pivot (col : nat) (rows : list (list float))
    : option (list float * list (list float)) :=
  match rows with
  | [] => None
  | r :: rest =>
      match pick_pivot col rest with
      | None => Some (r, [])
      | Some (best, others) =>
          if PrimFloat.ltb (abs (nth col r 0%float)) (abs (nth col best 0%float))
          then Some (best, r :: others)
          else Some (r, best :: others)
      end
  end.

(** Gauss-Jordan elimination with partial pivoting on the rows of [[A | I]]:
    [done] holds the rows whose pivots are in place, [todo] the others. *)
Fixpoint gauss_jordan (fuel col : nat) (done todo : list (list float))
    : result (list (list float)) :=
  match fuel with
  | 0 => Ok done
  | S fuel' =>
      match pick_pivot col todo with
      | None => Ok done
      | Some (r, others) =>
          let p := nth col r 0%float in
          if PrimFloat.eqb p 0 then Err LinAlgError
          else
            let r' := map (fun a => (a / p)%float) r in
            let elim row :=
              zip_with (fun a b => (a - nth col row 0 * b)%float) row r' in
            gauss_jordan fuel' (S col) (map elim done ++ [r']) (map elim others)
      end
  end.

(** [scipy.linalg.inv] by Gauss-Jordan elimination: [ValueError] for a matrix
    that is not square, [LinAlgError] for a singular one, as SciPy raises
    them. *)
Definition inv_gauss (m : matrix) : result matrix :=
  if nrows m =? ncols m then
    let n := nrows m in
    let rows := map (fun i => row m i ++ row (eye n) i) (seq 0 n) in
    let* sol := gauss_jordan n 0 [] rows in
    Ok (Mat n n (flat_map (skipn n) sol))
  else Err ValueError.

(** Row [i] of the upper Cholesky factor from the rows above it. *)
Definition cholesky_row (P : matrix) (above : list (list float)) (i : nat)
    : result (list float) :=
  let n := ncols P in
  let sum_above (j : nat) :=
    fsum (map (fun r => (nth i r 0 * nth j r 0)%float) above) in
  let d := (get P i i - sum_above i)%float in
  if PrimFloat.ltb 0 d then
    let uii := PrimFloat.sqrt d in
    Ok (map (fun j => if j <? i then 0%float
                      else if j =? i then uii
                      else ((get P i j - sum_above j) / uii)%float)
            (seq 0 n))
  else Err LinAlgError.

Fixpoint cholesky_rows (P : matrix) (above : list (list float)) (todo : list nat)
    : result (list (list float)) :=
  match todo with
  | [] => Ok above
  | i :: rest =>
      let* r := cholesky_row P above i in
      cholesky_rows P (above ++ [r]) rest
  end.

(** [scipy.linalg.cholesky], the upper factor [U] with [P = U^T U], computed
    row by row from the upper triangle of [P]: [ValueError] for a matrix that
    is not square, [LinAlgError] for one that is not positive definite. *)
Definition cholesky_upper (P : matrix) : result matrix :=
  if nrows P =? ncols P then
    let* rows := cholesky_rows P [] (seq 0 (nrows P)) in
    Ok (Mat (nrows P) (ncols P) (concat rows))
  else Err ValueError.

(** Sine and cosine by their Taylor polynomials of degree 7 and 6 at 0. *)
Definition sin_taylor (a : float) : float :=
  let a2 := (a * a)%float in
  (a * (1 - a2 / 6 * (1 - a2 / 20 * (1 - a2 / 42))))%float.
Definition cos_taylor (a : float) : float :=
  let a2 := (a * a)%float in
  (1 - a2 / 2 * (1 - a2 / 12 * (1 - a2 / 30)))%float.

(** A discretization by one forward-Euler step, [Ad = I + Ac*Ts],
    [Bd = Bc*Ts], [Cd = Cc]. *)
Definition c2d_euler (Ac Bc Cc : matrix) (Ts : float) : result (matrix * matrix * matrix) :=
  let* Ad := m_add (eye (nrows Ac)) (m_scale_r Ac Ts) in
  Ok (Ad, m_scale_r Bc Ts, Cc).

(** ** Basic facts about the array operations *)

Lemma rbind_ok {A B : Type} (r : result A) (k : A -> result B) (b : B) :
  rbind r k = Ok b -> exists a, r = Ok a /\ k a = Ok b.
Proof. destruct r as [a|e]; simpl; [eauto | discriminate]. Qed.

Lemma rbind_raises {A B : Type} (r : result A) (k : A -> result B) :
  (forall a, r = Ok a -> exists e, k a = Err e) -> exists e, rbind r k = Err e.
Proof. destruct r as [a|e]; simpl; intros Hk; [apply Hk; reflexivity | eauto]. Qed.

Lemma dot_mm_shape (a b p : matrix) :
  dot_mm a b = Ok p -> ncols a = nrows b /\ nrows p = nrows a /\ ncols p = ncols b.
Proof.
  unfold dot_mm. destruct (ncols a =? nrows b) eqn:E; [|discriminate].
  intros [= <-]. apply Nat.eqb_eq in E. auto.
Qed.

Lemma bdim_1_l (n : nat) : bdim 1 n = Some n.
Proof. unfold bdim. destruct (1 =? n) eqn:E; [apply Nat.eqb_eq in E; subst|]; reflexivity. Qed.

Lemma broadcast2_shape (f : float -> float -> float) (a b p : matrix) :
  broadcast2 f a b = Ok p ->
  bdim (nrows a) (nrows b) = Some (nrows p) /\ bdim (ncols a) (ncols b) = Some (ncols p).
Proof.
  unfold broadcast2.
  destruct (bdim (nrows a) (nrows b)), (bdim (ncols a) (ncols b)); try discriminate.
  intros [= <-]. auto.
Qed.

(** ** The linear Kalman step on the documented column vectors *)

(** The prediction of a column state is an array of one row. *)
Lemma predicted_state_is_row (mx : matrix) (u : pyarg ndarray) (A : matrix)
    (B : pyarg matrix) (xf : ndarray) :
  ncols mx = 1 -> no_wide_control u ->
  predict_state (Arr2 mx) u A B = Ok xf ->
  exists m Ax, xf = Arr2 m /\ nrows m = 1 /\
               dot_mm A mx = Ok Ax /\ nrows Ax = nrows A /\ ncols Ax = 1.
Proof.
  intros Hc Hu H. unfold predict_state in H.
  assert (Hx : forall Ax', dot_mv A (Arr2 mx) = Ok Ax' ->
            exists Ax, Ax' = Arr2 Ax /\ dot_mm A mx = Ok Ax /\
                       nrows Ax = nrows A /\ ncols Ax = 1).
  { simpl. intros Ax' HA. apply rbind_ok in HA as (Ax & HA & [= <-]).
    exists Ax. destruct (dot_mm_shape _ _ _ HA) as (_ & ? & ?).
    repeat split; [assumption | assumption | congruence]. }
  destruct (eq_empty_list B || eq_empty_list u).
  - apply rbind_ok in H as (Ax' & HA & [= <-]).
    destruct (Hx _ HA) as (Ax & -> & HA' & Hr & Hcx).
    exists (transpose Ax), Ax. simpl. auto.
  - apply rbind_ok in H as (Ax' & HA & H).
    apply rbind_ok in H as (Bu & HB & H).
    destruct (Hx _ HA) as (Ax & -> & HA' & Hr & Hcx).
    assert (HBu : match Bu with Arr2 q => ncols q = 1 | Arr1 _ => True end).
    { destruct B as [| |b], u as [| |[v|mu]]; try discriminate HB; simpl in HB.
      - destruct (ncols b =? length v); [injection HB as <-; exact I | discriminate].
      - apply rbind_ok in HB as (q & Hq & [= <-]).
        apply dot_mm_shape in Hq as (_ & _ & Hq). simpl in Hu. congruence. }
    destruct Bu as [w|q]; simpl in H;
      apply rbind_ok in H as (p & Hp & [= <-]);
      apply broadcast2_shape in Hp as [Hp _]; simpl in Hp;
      rewrite Hcx, ?HBu, bdim_1_l in Hp; injection Hp as Hp;
      exists p, Ax; auto.
Qed.

Ltac step_bind :=
  lazymatch goal with
  | |- exists e, rbind ?r _ = Err e =>
      let E := fresh "E" in
      destruct r eqn:E; simpl; [| eexists; reflexivity]
  end.

(** C1 (the code departs from the claim): for a state given as the documented
    column of shape (M,1), a control signal that is absent or a vector, and a
    measurement matrix of M columns, M different from 1, a call of
    discrete_KF_update with a measurement raises, whatever the other
    arguments and the inverse are: the predicted state was transposed into a
    row and [np.dot(C, xf)] has no aligned shapes.  It does not return the
    pair of the claim. *)
Theorem KF_update_column_state_raises
    (inv : matrix -> result matrix) (mx : matrix) (u : pyarg ndarray) (z : ndarray)
    (A : matrix) (B : pyarg matrix) (C P Q R : matrix) :
  ncols mx = 1 -> no_wide_control u -> ncols C <> 1 ->
  exists e, discrete_KF_update inv (Arr2 mx) u (Some z) A B C P Q R = Err e.
Proof.
  intros Hc Hu HC. unfold discrete_KF_update.
  step_bind.
  destruct (predicted_state_is_row _ _ _ _ _ Hc Hu E) as (m & Ax & -> & Hm & _).
  repeat step_bind.
  all: exfalso;
    match goal with
    | H : rbind (dot_mm _ _) _ = Ok _ |- _ => apply rbind_ok in H as (q & Hq & _)
    end;
    apply dot_mm_shape in Hq as (Hq & _); congruence.
Qed.

(** The claim's x of two rows, the measurement matrix that reads its first
    entry, and unit covariances. *)
Lemma KF_update_column_state_raises_witness :
  exists e, discrete_KF_update inv_gauss (Arr2 (Mat 2 1 [1; 2]%float)) PEmptyList
              (Some (Arr2 (Mat 1 1 [1]%float))) (eye 2) PEmptyList
              (Mat 1 2 [1; 0]%float) (eye 2) (eye 2) (Mat 1 1 [1]%float) = Err e.
Proof.
  apply KF_update_column_state_raises; simpl; first [lia | exact I].
Defined.

(** On 1-D vectors the same call runs: the transpositions leave a 1-D array
    as it is. *)
Example KF_update_vector_state_runs :
  discrete_KF_update inv_gauss (Arr1 [1; 2]%float) PEmptyList
    (Some (Arr1 [1]%float)) (eye 2) PEmptyList
    (Mat 1 2 [1; 0]%float) (eye 2) (eye 2) (Mat 1 1 [1]%float)
  = Ok (Arr1 [1; 2]%float, Mat 2 2 [0.66666666666666674; 0; 0; 2]%float).
Proof. vm_compute. reflexivity. Qed.

(** X1: without a measurement neither [C], [R] nor the inverse is looked
    at. *)
Lemma KF_predict_only_ignores_C_R
    (inv inv' : matrix -> result matrix) (x : ndarray) (u : pyarg ndarray)
    (A : matrix) (B : pyarg matrix) (C C' P Q R R' : matrix) :
  discrete_KF_update inv x u None A B C P Q R
  = discrete_KF_update inv' x u None A B C' P Q R'.
Proof. reflexivity. Qed.

(** C3 (the code departs from the claim): without a measurement and for a
    state given as the documented column of shape (M,1), M different from 1,
    the state that discrete_KF_update returns is not the column A.x of the
    predict formula: it is an array of one row, the transpose. *)
Theorem KF_predict_only_returns_row
    (inv : matrix -> result matrix) (mx : matrix) (u : pyarg ndarray)
    (A : matrix) (B : pyarg matrix) (C P Q R : matrix) (xf : ndarray) (Pf : matrix) :
  ncols mx = 1 -> no_wide_control u -> nrows A <> 1 ->
  discrete_KF_update inv (Arr2 mx) u None A B C P Q R = Ok (xf, Pf) ->
  exists m Ax, xf = Arr2 m /\ nrows m = 1 /\
               dot_mv A (Arr2 mx) = Ok (Arr2 Ax) /\ nrows Ax = nrows A /\
               xf <> Arr2 Ax.
Proof.
  intros Hc Hu HA H. unfold discrete_KF_update in H.
  apply rbind_ok in H as (xf' & Hxf & H).
  destruct (predicted_state_is_row _ _ _ _ _ Hc Hu Hxf) as (m & Ax & -> & Hm & HAx & Hr & _).
  apply rbind_ok in H as (Pf' & _ & [= <- <-]).
  exists m, Ax. repeat split; try assumption.
  - simpl. rewrite HAx. reflexivity.
  - intros [= ->]. congruence.
Qed.

Lemma KF_predict_only_returns_row_witness :
  discrete_KF_update inv_gauss (Arr2 (Mat 2 1 [1; 2]%float)) PEmptyList None
    (eye 2) PEmptyList (Mat 1 2 [1; 0]%float) (eye 2) (eye 2) (Mat 1 1 [1]%float)
  = Ok (Arr2 (Mat 1 2 [1; 2]%float), Mat 2 2 [2; 0; 0; 2]%float)
  /\ exists m Ax, Arr2 (Mat 1 2 [1; 2]%float) = Arr2 m /\ nrows m = 1 /\
       dot_mv (eye 2) (Arr2 (Mat 2 1 [1; 2]%float)) = Ok (Arr2 Ax) /\
       nrows Ax = nrows (eye 2) /\ Arr2 (Mat 1 2 [1; 2]%float) <> Arr2 Ax.
Proof.
  split; [vm_compute; reflexivity |].
  apply (KF_predict_only_returns_row inv_gauss (Mat 2 1 [1; 2]%float) PEmptyList
           (eye 2) PEmptyList (Mat 1 2 [1; 0]%float) (eye 2) (eye 2)
           (Mat 1 1 [1]%float) _ (Mat 2 2 [2; 0; 0; 2]%float));
    [reflexivity | exact I | simpl; lia | vm_compute; reflexivity].
Defined.

(** C4 (the code departs from the claim): with [B = None] or [u = None], and
    the other of the two not the empty list, discrete_KF_update does not
    leave the control term out: it evaluates [np.dot(B, u)] on [None] and
    raises [TypeError] (or the exception of [np.dot(A, x)], which comes
    first). *)
Theorem KF_update_None_control_raises
    (inv : matrix -> result matrix) (x : ndarray) (z : option ndarray)
    (A C P Q R : matrix) :
  let raised := match dot_mv A x with
                | Ok _ => Err TypeError
                | Err e => Err e
                end in
  discrete_KF_update inv x PNone z A PNone C P Q R = raised
  /\ (forall a, discrete_KF_update inv x (PArr a) z A PNone C P Q R = raised)
  /\ (forall b, discrete_KF_update inv x PNone z A (PArr b) C P Q R = raised).
Proof.
  unfold discrete_KF_update, predict_state. simpl.
  destruct (dot_mv A x); simpl; auto.
Qed.

(** X2: with [[]] for B, or with None for B and [[]] for u, the control term
    is left out: the result is the one for [B = [], u = []].  (An array B is
    compared with [[]] by NumPy, and what comes of that depends on the
    version of NumPy.) *)
Lemma KF_update_empty_list_control
    (inv : matrix -> result matrix) (x : ndarray) (z : option ndarray)
    (u : pyarg ndarray) (A : matrix) (B : pyarg matrix) (C P Q R : matrix) :
  B = PEmptyList \/ (B = PNone /\ u = PEmptyList) ->
  discrete_KF_update inv x u z A B C P Q R
  = discrete_KF_update inv x PEmptyList z A PEmptyList C P Q R.
Proof.
  intros [-> | [-> ->]]; reflexivity.
Qed.

Lemma KF_update_empty_list_control_witness :
  discrete_KF_update inv_gauss (Arr1 [1; 2]%float) PEmptyList
    (Some (Arr1 [1]%float)) (eye 2) PNone
    (Mat 1 2 [1; 0]%float) (eye 2) (eye 2) (Mat 1 1 [1]%float)
  = discrete_KF_update inv_gauss (Arr1 [1; 2]%float) PEmptyList
      (Some (Arr1 [1]%float)) (eye 2) PEmptyList
      (Mat 1 2 [1; 0]%float) (eye 2) (eye 2) (Mat 1 1 [1]%float).
Proof.
  apply KF_update_empty_list_control. right. split; reflexivity.
Defined.

(** ** Entries of tabulated arrays *)

Lemma nth_flat_map_rows (c : nat) (f : nat -> nat -> float) (r s i j : nat) :
  i < r -> j < c ->
  nth (i * c + j) (flat_map (fun i => map (f i) (seq 0 c)) (seq s r)) 0%float
  = f (s + i) j.
Proof.
  revert s i. induction r as [|r IH]; intros s i Hi Hj; [lia|].
  simpl. destruct i as [|i].
  - rewrite app_nth1 by (rewrite length_map, length_seq; simpl; lia).
    simpl. rewrite (nth_indep _ 0%float (f s 0)) by (rewrite length_map, length_seq; lia).
    rewrite map_nth, seq_nth by lia. f_equal; lia.
  - rewrite app_nth2 by (rewrite length_map, length_seq; simpl; lia).
    rewrite length_map, length_seq.
    replace (S i * c + j - c) with (i * c + j) by (simpl; lia).
    rewrite IH by lia. f_equal; lia.
Qed.

Lemma get_tabulate (r c : nat) (f : nat -> nat -> float) (i j : nat) :
  i < r -> j < c -> get (tabulate r c f) i j = f i j.
Proof.
  intros Hi Hj. unfold get, tabulate. simpl.
  now rewrite nth_flat_map_rows.
Qed.

Lemma length_flat_map_rows (c : nat) (f : nat -> nat -> float) (r s : nat) :
  length (flat_map (fun i => map (f i) (seq 0 c)) (seq s r)) = r * c.
Proof.
  revert s. induction r as [|r IH]; intros s; simpl; [reflexivity|].
  now rewrite length_app, length_map, length_seq, IH.
Qed.

Lemma wf_tabulate (r c : nat) (f : nat -> nat -> float) : wf_matrix (tabulate r c f).
Proof. unfold wf_matrix, tabulate. simpl. apply length_flat_map_rows. Qed.

(** ** The asynchronous step *)

(** The entries of the history after lines 113-114. *)
Lemma shifted_history_entries (m0 : matrix) (zv : list float) (i j : nat) :
  i < nrows m0 -> j < ncols m0 ->
  get (set_row (shift_rows m0) (nrows m0 - 1) zv) i j
  = if i =? nrows m0 - 1 then nth j zv 0%float else get m0 (S i) j.
Proof.
  intros Hi Hj. unfold set_row. cbn [nrows ncols shift_rows tabulate].
  rewrite get_tabulate by assumption.
  destruct (i =? nrows m0 - 1) eqn:E; [reflexivity|].
  apply Nat.eqb_neq in E. unfold shift_rows. rewrite get_tabulate by assumption.
  replace (S i <? nrows m0) with true by (symmetry; apply Nat.ltb_lt; lia).
  reflexivity.
Qed.

Lemma broadcast_to_row_length (k : nat) (z : ndarray) (zv : list float) :
  broadcast_to_row k z = Ok zv -> length zv = k.
Proof.
  destruct z as [v|mz]; unfold broadcast_to_row.
  - destruct (length v =? k) eqn:E1.
    + intros [= <-]. now apply Nat.eqb_eq.
    + destruct (length v =? 1); [|discriminate]. intros [= <-]. apply repeat_length.
  - destruct (nrows mz =? 1); [|discriminate].
    destruct (length (row mz 0) =? k) eqn:E1.
    + intros [= <-]. now apply Nat.eqb_eq.
    + destruct (length (row mz 0) =? 1); [|discriminate].
      intros [= <-]. apply repeat_length.
Qed.

Lemma row_for_length (k : nat) (z : option ndarray) (zv : list float) :
  row_for k z = Ok zv -> length zv = k.
Proof.
  destruct z as [z|]; cbn [row_for]; [apply broadcast_to_row_length|].
  intros [= <-]. apply repeat_length.
Qed.

Lemma row_of_inserted (m0 : matrix) (zv : list float) :
  0 < nrows m0 -> length zv = ncols m0 ->
  row (set_row (shift_rows m0) (nrows m0 - 1) zv) (nrows m0 - 1) = zv.
Proof.
  intros Hpos Hlen. unfold row. cbn [ncols set_row shift_rows tabulate].
  apply nth_ext with (d := 0%float) (d' := 0%float).
  - now rewrite length_map, length_seq.
  - intros j Hj. rewrite length_map, length_seq in Hj.
    rewrite (nth_indep _ 0%float (get (set_row (shift_rows m0) (nrows m0 - 1) zv)
                                      (nrows m0 - 1) 0))
      by (rewrite length_map, length_seq; assumption).
    rewrite map_nth with (f := fun j => get _ (nrows m0 - 1) j), seq_nth by assumption.
    cbn [Nat.add]. rewrite shifted_history_entries by lia.
    now rewrite Nat.eqb_refl.
Qed.

Section AsynchronousStep.

Context {rng_state : Type}.
Variable randn : rng_state -> float * rng_state.
Variable inv : matrix -> result matrix.

Implicit Types (w : world rng_state) (zhist : loc) (m : matrix).

Lemma sbind_ok {A B : Type} (c : M rng_state A) (k : A -> M rng_state B) w b w' :
  sbind rng_state c k w = (Ok b, w') ->
  exists a w1, c w = (Ok a, w1) /\ k a w1 = (Ok b, w').
Proof.
  unfold sbind. destruct (c w) as [[a|e] w1]; [eauto | discriminate].
Qed.

Lemma deref_eq zhist w m :
  heap w !! zhist = Some m -> deref rng_state zhist w = (Ok m, w).
Proof. unfold deref. now intros ->. Qed.

Lemma ndlen_eq zhist w m :
  heap w !! zhist = Some m -> ndlen rng_state zhist w = (Ok (nrows m), w).
Proof. intros H. unfold ndlen, sbind. now rewrite (deref_eq _ _ _ H). Qed.

Lemma zhist_row_eq zhist i w m :
  heap w !! zhist = Some m ->
  zhist_row rng_state zhist i w
  = (if i <? nrows m then Ok (Arr1 (row m i)) else Err IndexError, w).
Proof.
  intros H. unfold zhist_row, sbind. rewrite (deref_eq _ _ _ H).
  now destruct (i <? nrows m).
Qed.

Lemma zhist_entry_eq zhist i j w m :
  heap w !! zhist = Some m ->
  zhist_entry rng_state zhist i j w
  = (if (i <? nrows m) && (j <? ncols m) then Ok (get m i j) else Err IndexError, w).
Proof.
  intros H. unfold zhist_entry, sbind. rewrite (deref_eq _ _ _ H).
  now destruct ((i <? nrows m) && (j <? ncols m)).
Qed.

Lemma zhist_set_entry_eq zhist i j a w m :
  heap w !! zhist = Some m ->
  zhist_set_entry rng_state zhist i j a w
  = if (i <? nrows m) && (j <? ncols m)
    then (Ok tt, World (<[zhist := set_entry m i j a]> (heap w)) (rng w))
    else (Err IndexError, w).
Proof.
  intros H. unfold zhist_set_entry, sbind. rewrite (deref_eq _ _ _ H).
  now destruct ((i <? nrows m) && (j <? ncols m)).
Qed.

(** The update of lines 113-114 on a history [m]: the world afterwards, or
    the exception. *)
Lemma zhist_shift_insert_eq zhist z w m :
  heap w !! zhist = Some m ->
  zhist_shift_insert rng_state zhist z w
  = let w1 := World (<[zhist := shift_rows m]> (heap w)) (rng w) in
    match nrows m with
    | 0 => (Err IndexError, w1)
    | S n =>
        match row_for (ncols m) z with
        | Ok v => (Ok tt, World (<[zhist := set_row (shift_rows m) n v]> (heap w)) (rng w))
        | Err e => (Err e, w1)
        end
    end.
Proof.
  intros H. unfold zhist_shift_insert, sbind, store.
  rewrite (deref_eq _ _ _ H). unfold deref at 1. cbn [heap rng].
  rewrite lookup_insert_eq. cbn [nrows ncols shift_rows tabulate].
  destruct (nrows m) as [|n]; [reflexivity|].
  unfold lift. destruct (row_for (ncols m) z); [|reflexivity].
  cbn [heap rng]. now rewrite insert_insert_eq.
Qed.

Lemma zhist_shift_insert_unbound zhist z w :
  heap w !! zhist = None ->
  zhist_shift_insert rng_state zhist z w = (Err TypeError, w).
Proof. intros H. unfold zhist_shift_insert, sbind, deref. now rewrite H. Qed.

(** One round of the forward loop on a history [m]. *)
Lemma akf_forward_cons ii rest u zhist A B C Q R trajectory t Ts xpred Ppred w m :
  heap w !! zhist = Some m ->
  akf_forward rng_state randn inv (ii :: rest) u zhist A B C Q R trajectory t Ts
    xpred Ppred w
  = let ref := trajectory
                 (t + float_of_Z (1 + Z.of_nat ii - Z.of_nat (nrows m)) * Ts)%float in
    let s := fst (randn (rng w)) in
    let g := snd (randn (rng w)) in
    match index11 R with
    | Err e => (Err e, World (heap w) g)
    | Ok R11 =>
        if (ii + 1 <? nrows m) && (1 <? ncols m) then
          let m' := set_entry m (ii + 1) 1 (ref + s * R11)%float in
          let w' := World (<[zhist := m']> (heap w)) g in
          match discrete_KF_update inv xpred u (Some (Arr1 (row m' (ii + 1))))
                  A B C Ppred Q R with
          | Ok (xpred', Ppred') =>
              akf_forward rng_state randn inv rest u zhist A B C Q R trajectory t Ts
                xpred' Ppred' w'
          | Err e => (Err e, w')
          end
        else (Err IndexError, World (heap w) g)
    end.
Proof.
  intros H. cbn [akf_forward]. unfold sbind at 1. rewrite (ndlen_eq _ _ _ H).
  unfold sbind at 1, draw. destruct (randn (rng w)) as [s g]. cbn [fst snd].
  unfold sbind at 1, lift. destruct (index11 R) as [R11|e]; [|reflexivity].
  unfold sbind at 1.
  rewrite (zhist_set_entry_eq _ _ _ _ (World (heap w) g) m H). cbn [heap rng].
  destruct ((ii + 1 <? nrows m) && (1 <? ncols m)) eqn:Hin; [|reflexivity].
  unfold sbind at 1.
  erewrite zhist_row_eq by (cbn [heap]; apply lookup_insert_eq).
  cbn [nrows set_entry tabulate].
  apply andb_true_iff in Hin as [Hi _]. rewrite Hi.
  unfold sbind at 1.
  destruct (discrete_KF_update _ _ _ _ _ _ _ _ _ _) as [[xpred' Ppred']|e]; reflexivity.
Qed.

Lemma agree_off_synthesized_refl m : agree_off_synthesized m m.
Proof. repeat split. Qed.

Lemma agree_off_synthesized_trans m1 m2 m3 :
  agree_off_synthesized m1 m2 -> agree_off_synthesized m2 m3 ->
  agree_off_synthesized m1 m3.
Proof.
  intros (Hr & Hc & H) (Hr' & Hc' & H'). repeat split; try congruence.
  intros i j Hi Hj Hij. rewrite H', H; auto; congruence.
Qed.

Lemma agree_off_synthesized_set_entry m ii a :
  agree_off_synthesized m (set_entry m (ii + 1) 1 a).
Proof.
  repeat split. intros i j Hi Hj Hij. unfold set_entry.
  rewrite get_tabulate by assumption.
  destruct (i =? ii + 1) eqn:E1, (j =? 1) eqn:E2; try reflexivity.
  apply Nat.eqb_eq in E1, E2. lia.
Qed.

(** The forward loop writes to the history only, and there only to
    column 1 of the rows after the first; this holds for what it leaves
    behind when it raises, too. *)
Lemma akf_forward_history iis u zhist A B C Q R trajectory t Ts :
  forall xpred Ppred w m r w',
    heap w !! zhist = Some m ->
    akf_forward rng_state randn inv iis u zhist A B C Q R trajectory t Ts
      xpred Ppred w = (r, w') ->
    (forall l, l <> zhist -> heap w' !! l = heap w !! l) /\
    exists m', heap w' !! zhist = Some m' /\ agree_off_synthesized m m'.
Proof.
  induction iis as [|ii rest IH]; intros xpred Ppred w m r w' Hm H.
  - injection H as <- <-. split; [reflexivity|].
    exists m. split; [assumption | apply agree_off_synthesized_refl].
  - rewrite (akf_forward_cons _ _ _ _ _ _ _ _ _ _ _ _ _ _ _ _ Hm) in H.
    cbn zeta in H.
    assert (Hsame : forall e g, (Err e, World (heap w) g) = (r, w') ->
              (forall l, l <> zhist -> heap w' !! l = heap w !! l) /\
              exists m', heap w' !! zhist = Some m' /\ agree_off_synthesized m m').
    { intros e g [= <- <-]. split; [reflexivity|].
      exists m. split; [assumption | apply agree_off_synthesized_refl]. }
    destruct (index11 R) as [R11|e]; [|eauto].
    destruct ((ii + 1 <? nrows m) && (1 <? ncols m)); [|eauto].
    set (m1 := set_entry m (ii + 1) 1 _) in H.
    assert (Hm1 : agree_off_synthesized m m1)
      by apply agree_off_synthesized_set_entry.
    destruct (discrete_KF_update _ _ _ _ _ _ _ _ _ _) as [[xpred' Ppred']|e].
    + apply IH with (m := m1) in H; [|cbn [heap]; apply lookup_insert_eq].
      destruct H as (Hfr & m' & Hm' & Hag). cbn [heap] in Hfr. split.
      * intros l Hl. rewrite Hfr by assumption. now apply lookup_insert_ne.
      * exists m'. split; [assumption|].
        eapply agree_off_synthesized_trans; eassumption.
    + injection H as <- <-. cbn [heap]. split.
      * intros l Hl. now apply lookup_insert_ne.
      * exists m1. split; [apply lookup_insert_eq | assumption].
Qed.

(** The history after a forward loop over the rounds [a, a+1, ..., a+n-1]
    that has returned: round [ii] has put its synthesized value, made from the
    sample it drew, in entry 1 of slot [ii+1]; the other entries are as
    before. *)
Lemma akf_forward_synthesized u zhist A B C Q R trajectory t Ts :
  forall n a xpred Ppred w m r w',
    heap w !! zhist = Some m ->
    akf_forward rng_state randn inv (seq a n) u zhist A B C Q R trajectory t Ts
      xpred Ppred w = (Ok r, w') ->
    exists m',
      heap w' !! zhist = Some m' /\ nrows m' = nrows m /\ ncols m' = ncols m /\
      forall i j, i < nrows m -> j < ncols m ->
        get m' i j
        = if (a + 1 <=? i) && (i <? a + 1 + n) && (j =? 1)
          then synthesized trajectory t Ts (nrows m) R (i - 1)
                 (nth_sample rng_state randn (rng w) (i - 1 - a))
          else get m i j.
Proof.
  induction n as [|n IH]; intros a xpred Ppred w m r w' Hm H.
  - injection H as _ <-. exists m. repeat split; try assumption.
    intros i j Hi Hj.
    replace ((a + 1 <=? i) && (i <? a + 1 + 0)) with false; [reflexivity|].
    symmetry. apply andb_false_iff.
    destruct (a + 1 <=? i) eqn:E; [right | now left].
    apply Nat.leb_le in E. apply Nat.ltb_ge. lia.
  - cbn [seq] in H.
    rewrite (akf_forward_cons _ _ _ _ _ _ _ _ _ _ _ _ _ _ _ _ Hm) in H.
    cbn zeta in H.
    destruct (index11 R) as [R11|e] eqn:HR; [|discriminate].
    assert (HR11 : R11 = get R 1 1).
    { unfold index11 in HR. destruct ((1 <? nrows R) && (1 <? ncols R)); congruence. }
    destruct ((a + 1 <? nrows m) && (1 <? ncols m)) eqn:Hin; [|discriminate].
    apply andb_true_iff in Hin as [Hin1 Hin2].
    apply Nat.ltb_lt in Hin1, Hin2.
    set (v := (trajectory _ + _ * R11)%float) in H.
    set (m1 := set_entry m (a + 1) 1 v) in H.
    destruct (discrete_KF_update _ _ _ _ _ _ _ _ _ _) as [[xpred' Ppred']|e];
      [|discriminate].
    apply IH with (m := m1) in H; [|cbn [heap]; apply lookup_insert_eq].
    destruct H as (m' & Hm' & Hr' & Hc' & Hg). cbn [rng] in Hg.
    exists m'. split; [assumption|]. split; [exact Hr'|]. split; [exact Hc'|].
    intros i j Hi Hj. cbn [nrows ncols m1 set_entry tabulate] in Hg.
    rewrite Hg by assumption. unfold m1, set_entry. rewrite get_tabulate by assumption.
    destruct (j =? 1) eqn:Ej; [|now rewrite !andb_false_r].
    rewrite !andb_true_r.
    destruct (i =? a + 1) eqn:Ei.
    + apply Nat.eqb_eq in Ei. subst i.
      replace (S a + 1 <=? a + 1) with false by (symmetry; apply Nat.leb_gt; lia).
      replace (a + 1 <=? a + 1) with true by (symmetry; apply Nat.leb_le; lia).
      replace (a + 1 <? a + 1 + S n) with true by (symmetry; apply Nat.ltb_lt; lia).
      cbn [andb]. replace (a + 1 - 1 - a) with 0 by lia.
      replace (a + 1 - 1) with a by lia.
      unfold v, synthesized. cbn [nth_sample]. now rewrite HR11.
    + apply Nat.eqb_neq in Ei.
      destruct (S a + 1 <=? i) eqn:E1.
      * apply Nat.leb_le in E1.
        replace (a + 1 <=? i) with true by (symmetry; apply Nat.leb_le; lia).
        replace (i <? a + 1 + S n) with (i <? S a + 1 + n)
          by (apply eq_true_iff_eq; rewrite !Nat.ltb_lt; lia).
        cbn [andb]. destruct (i <? S a + 1 + n); [|reflexivity].
        replace (i - 1 - a) with (S (i - 1 - S a)) by lia. reflexivity.
      * apply Nat.leb_gt in E1.
        replace (a + 1 <=? i) with false by (symmetry; apply Nat.leb_gt; lia).
        reflexivity.
Qed.

(** What a call that returns has done. *)
Lemma discrete_AKF_update_returns x u z zhist A B C P Q R trajectory t Ts
    w xhat xpred P' l w' :
  discrete_AKF_update rng_state randn inv x u z zhist A B C P Q R trajectory t Ts w
  = (Ok (xhat, xpred, P', l), w') ->
  exists m0 zv,
    heap w !! zhist = Some m0 /\
    row_for (ncols m0) z = Ok zv /\
    let m1 := set_row (shift_rows m0) (nrows m0 - 1) zv in
    let w1 := World (<[zhist := m1]> (heap w)) (rng w) in
    l = zhist /\ 0 < nrows m0 /\
    ((PrimFloat.is_nan (get m1 0 0) = true /\
      xhat = x /\ xpred = x /\ P' = P /\ w' = w1)
     \/
     (PrimFloat.is_nan (get m1 0 0) = false /\
      discrete_KF_update inv x u (Some (Arr1 (row m1 (nrows m0 - 1)))) A B C P Q R
      = Ok (xhat, P') /\
      exists Ppred,
        akf_forward rng_state randn inv (seq 0 (nrows m0 - 1)) u zhist A B C Q R
          trajectory t Ts xhat P' w1 = (Ok (xpred, Ppred), w'))).
Proof.
  intros H. unfold discrete_AKF_update in H.
  apply sbind_ok in H as ([] & w1 & Hs & H).
  destruct (heap w !! zhist) as [m0|] eqn:Hm0;
    [|rewrite zhist_shift_insert_unbound in Hs by assumption; discriminate].
  rewrite (zhist_shift_insert_eq _ _ _ _ Hm0) in Hs. cbn zeta in Hs.
  destruct (nrows m0) as [|n] eqn:Hn; [discriminate|].
  destruct (row_for (ncols m0) z) as [zv|e] eqn:Hzv; [|discriminate].
  injection Hs as <-.
  exists m0, zv. rewrite Hn. replace (S n - 1) with n by lia.
  split; [reflexivity|]. split; [assumption|]. cbn zeta.
  set (m1 := set_row (shift_rows m0) n zv) in *.
  assert (Hm1 : heap (World (<[zhist := m1]> (heap w)) (rng w)) !! zhist = Some m1)
    by (cbn [heap]; apply lookup_insert_eq).
  assert (Hr1 : nrows m1 = S n) by (cbn; assumption).
  apply sbind_ok in H as (head & w2 & Hh & H).
  rewrite (zhist_entry_eq _ _ _ _ _ Hm1) in Hh.
  destruct ((0 <? nrows m1) && (0 <? ncols m1)); [|discriminate].
  injection Hh as <- <-.
  destruct (PrimFloat.is_nan (get m1 0 0)) eqn:Hnan.
  - injection H as <- <- <- <- <-. split; [reflexivity|]. split; [lia|]. left. auto.
  - apply sbind_ok in H as (W & w2 & HW & H).
    rewrite (ndlen_eq _ _ _ Hm1) in HW. injection HW as <- <-.
    apply sbind_ok in H as (zlast & w2 & Hz & H).
    rewrite (zhist_row_eq _ _ _ _ Hm1) in Hz.
    rewrite ?Hr1, ?Hn in Hz. replace (S n - 1) with n in Hz by lia.
    replace (n <? S n) with true in Hz by (symmetry; apply Nat.ltb_lt; lia).
    injection Hz as <- <-.
    apply sbind_ok in H as ([xhat' P''] & w2 & HK & H).
    unfold lift in HK. injection HK as HK <-.
    apply sbind_ok in H as (W' & w2 & HW & H).
    rewrite (ndlen_eq _ _ _ Hm1) in HW. injection HW as <- <-.
    apply sbind_ok in H as ([xpred' Ppred] & w2 & HF & H).
    injection H as <- <- <- <- <-.
    split; [reflexivity|]. split; [lia|]. right. rewrite ?Hr1, ?Hn in HF.
    replace (S n - 1) with n in HF by lia. eauto.
Qed.

(** C5: when, after the shift of the history and the insertion of z, entry 0
    of the head of the history is NaN, discrete_AKF_update returns the input
    state as x-hat and as x_pred and the input covariance P, with the
    history it was given. *)
Theorem AKF_missing_head_keeps_estimate
    (x : ndarray) (u : pyarg ndarray) (z : option ndarray) (zhist : loc)
    (A : matrix) (B : pyarg matrix) (C P Q R : matrix)
    (trajectory : float -> float) (t Ts : float)
    (w w1 : world rng_state) (head : float) :
  zhist_shift_insert rng_state zhist z w = (Ok tt, w1) ->
  zhist_entry rng_state zhist 0 0 w1 = (Ok head, w1) ->
  PrimFloat.is_nan head = true ->
  discrete_AKF_update rng_state randn inv x u z zhist A B C P Q R trajectory t Ts w
  = (Ok (x, x, P, zhist), w1).
Proof.
  intros Hs Hh Hnan. unfold discrete_AKF_update, sbind.
  rewrite Hs, Hh, Hnan. reflexivity.
Qed.

(** C2: the claim is right and the code does otherwise.  When the head of
    the history is not missing, the synchronized estimate (x-hat, P) that
    discrete_AKF_update returns is the result of one linear Kalman step on
    the tail of the history, [zhist[-1]] (line 121): the row that the call has
    just filled from z.  The head [zhist[0]] is only tested for the missing
    marker; its values reach no output. *)
Theorem AKF_sync_estimate_is_step_on_newest
    (x : ndarray) (u : pyarg ndarray) (z : option ndarray) (zhist : loc)
    (A : matrix) (B : pyarg matrix) (C P Q R : matrix)
    (trajectory : float -> float) (t Ts : float)
    (w w' : world rng_state) (xhat xpred : ndarray) (P' : matrix) (l : loc) :
  discrete_AKF_update rng_state randn inv x u z zhist A B C P Q R trajectory t Ts w
  = (Ok (xhat, xpred, P', l), w') ->
  exists m0 zv,
    heap w !! zhist = Some m0 /\
    row_for (ncols m0) z = Ok zv /\
    row (set_row (shift_rows m0) (nrows m0 - 1) zv) (nrows m0 - 1) = zv /\
    (PrimFloat.is_nan (get (set_row (shift_rows m0) (nrows m0 - 1) zv) 0 0) = false ->
     discrete_KF_update inv x u (Some (Arr1 zv)) A B C P Q R = Ok (xhat, P')).
Proof.
  intros H. apply discrete_AKF_update_returns in H
    as (m0 & zv & Hm0 & Hzv & _ & Hpos & Hcases).
  assert (Hrow : row (set_row (shift_rows m0) (nrows m0 - 1) zv) (nrows m0 - 1) = zv)
    by (apply row_of_inserted; [exact Hpos | now apply row_for_length in Hzv]).
  exists m0, zv. split; [exact Hm0|]. split; [exact Hzv|]. split; [exact Hrow|].
  intros Hnan.
  destruct Hcases as [(Hnan' & _) | (_ & HK & _)]; [congruence|].
  cbn zeta in HK. rewrite Hrow in HK. exact HK.
Qed.

(** C9, amended: discrete_AKF_update is not a function of its explicit
    arguments alone: it reads the history it is given and NumPy's global
    random generator.  For equal arguments and an equal history, the x-hat
    and the P of two calls that return are equal whatever the states of the
    generator; when the head of the history is missing, or the history has
    one slot, the forward estimate and the history are equal too and the
    generator is left as it was; and from equal states of the generator the
    two calls return the same and leave the same world. *)
Theorem AKF_estimate_independent_of_generator
    (x : ndarray) (u : pyarg ndarray) (z : option ndarray) (zhist : loc)
    (A : matrix) (B : pyarg matrix) (C P Q R : matrix)
    (trajectory : float -> float) (t Ts : float)
    (h : gmap loc matrix) (g1 g2 : rng_state)
    (xhat1 xpred1 xhat2 xpred2 : ndarray) (P1 P2 : matrix) (l1 l2 : loc)
    (w1 w2 : world rng_state) :
  discrete_AKF_update rng_state randn inv x u z zhist A B C P Q R trajectory t Ts
    (World h g1) = (Ok (xhat1, xpred1, P1, l1), w1) ->
  discrete_AKF_update rng_state randn inv x u z zhist A B C P Q R trajectory t Ts
    (World h g2) = (Ok (xhat2, xpred2, P2, l2), w2) ->
  xhat1 = xhat2 /\ P1 = P2 /\ l1 = l2 /\
  (forall m0 zv,
      h !! zhist = Some m0 ->
      row_for (ncols m0) z = Ok zv ->
      PrimFloat.is_nan (get (set_row (shift_rows m0) (nrows m0 - 1) zv) 0 0) = true
      \/ nrows m0 = 1 ->
      xpred1 = xpred2 /\ heap w1 = heap w2 /\ rng w1 = g1 /\ rng w2 = g2) /\
  (g1 = g2 -> xpred1 = xpred2 /\ w1 = w2).
Proof.
  intros H1 H2.
  assert (Hsame : g1 = g2 -> xpred1 = xpred2 /\ w1 = w2).
  { intros ->. rewrite H1 in H2. now injection H2 as <- <- <- <- <-. }
  apply discrete_AKF_update_returns in H1 as (m0 & zv & Hm0 & Hzv & Hl1 & _ & Hc1).
  apply discrete_AKF_update_returns in H2 as (m0' & zv' & Hm0' & Hzv' & Hl2 & _ & Hc2).
  cbn [heap] in Hm0, Hm0'. rewrite Hm0 in Hm0'. injection Hm0' as <-.
  rewrite Hzv in Hzv'. injection Hzv' as <-.
  cbn zeta in Hc1, Hc2. cbn [heap rng] in Hc1, Hc2.
  set (m1 := set_row (shift_rows m0) (nrows m0 - 1) zv) in *.
  destruct Hc1 as [(Hn1 & -> & -> & -> & ->) | (Hn1 & HK1 & Pp1 & HF1)],
           Hc2 as [(Hn2 & -> & -> & -> & ->) | (Hn2 & HK2 & Pp2 & HF2)];
    try congruence.
  - do 3 (split; [congruence|]). split; [|exact Hsame].
    intros _ _ _ _ _. cbn [heap rng]. auto.
  - rewrite HK1 in HK2. injection HK2 as <- <-.
    do 3 (split; [congruence|]). split; [|exact Hsame].
    intros m0' zv' Hm0' Hzv' [Hn|HW].
    + rewrite Hm0 in Hm0'. injection Hm0' as <-.
      rewrite Hzv in Hzv'. injection Hzv' as <-. fold m1 in Hn. congruence.
    + rewrite Hm0 in Hm0'. injection Hm0' as <-.
      rewrite HW in HF1, HF2. cbn [Nat.sub seq akf_forward] in HF1, HF2.
      unfold ret in HF1, HF2.
      injection HF1 as <- _ <-. injection HF2 as <- _ <-.
      cbn [heap rng]. auto.
Qed.

(** C10, amended: discrete_AKF_update writes to the history it is given and
    returns that same array.  After a call that returns, the array holds the
    history shifted by one slot with z in the last slot (NaN when z is None)
    and, when the head is not missing, in entry 1 of every slot after the
    first the synthesized value of the forward loop, made from the
    trajectory and the sample drawn in that round.  No other array is
    written. *)
Theorem AKF_updates_history_in_place
    (x : ndarray) (u : pyarg ndarray) (z : option ndarray) (zhist : loc)
    (A : matrix) (B : pyarg matrix) (C P Q R : matrix)
    (trajectory : float -> float) (t Ts : float)
    (w w' : world rng_state) (xhat xpred : ndarray) (P' : matrix) (l : loc) :
  discrete_AKF_update rng_state randn inv x u z zhist A B C P Q R trajectory t Ts w
  = (Ok (xhat, xpred, P', l), w') ->
  l = zhist /\
  (forall l', l' <> zhist -> heap w' !! l' = heap w !! l') /\
  exists m0 zv m',
    heap w !! zhist = Some m0 /\
    row_for (ncols m0) z = Ok zv /\
    heap w' !! zhist = Some m' /\
    nrows m' = nrows m0 /\ ncols m' = ncols m0 /\
    let shifted := set_row (shift_rows m0) (nrows m0 - 1) zv in
    forall i j, i < nrows m0 -> j < ncols m0 ->
      get m' i j
      = if negb (PrimFloat.is_nan (get shifted 0 0)) && (1 <=? i) && (j =? 1)
        then synthesized trajectory t Ts (nrows m0) R (i - 1)
               (nth_sample rng_state randn (rng w) (i - 1))
        else get shifted i j.
Proof.
  intros H. apply discrete_AKF_update_returns in H
    as (m0 & zv & Hm0 & Hzv & Hl & Hpos & Hc).
  cbn zeta in Hc. set (m1 := set_row (shift_rows m0) (nrows m0 - 1) zv) in *.
  split; [assumption|].
  destruct Hc as [(Hn & _ & _ & _ & ->) | (Hn & _ & Ppred & HF)].
  - cbn [heap]. split; [intros l' Hl'; now apply lookup_insert_ne|].
    exists m0, zv, m1. subst m1.
    split; [assumption|]. split; [assumption|].
    split; [apply lookup_insert_eq|]. split; [reflexivity|]. split; [reflexivity|].
    cbn zeta. intros i j _ _. now rewrite Hn.
  - pose proof HF as HF'.
    apply akf_forward_history with (m := m1) in HF;
      [|cbn [heap]; apply lookup_insert_eq].
    destruct HF as (Hfr & _). cbn [heap] in Hfr.
    apply akf_forward_synthesized with (m := m1) in HF';
      [|cbn [heap]; apply lookup_insert_eq].
    destruct HF' as (m' & Hm' & Hr' & Hc' & Hg). cbn [rng] in Hg.
    split; [intros l' Hl'; rewrite Hfr by assumption; now apply lookup_insert_ne|].
    exists m0, zv, m'.
    split; [assumption|]. split; [assumption|].
    split; [assumption|]. split; [exact Hr'|]. split; [exact Hc'|].
    cbn zeta. fold m1. intros i j Hi Hj. rewrite Hn. cbn [negb andb].
    rewrite Hg by assumption. cbn [nrows m1 set_row tabulate shift_rows].
    replace (i <? 0 + 1 + (nrows m0 - 1)) with true
      by (symmetry; apply Nat.ltb_lt; lia).
    rewrite andb_true_r. now rewrite Nat.sub_0_r.
Qed.

End AsynchronousStep.

Lemma AKF_missing_head_keeps_estimate_witness :
  let w := World ({[ 7 := Mat 2 2 [0; 0; nan; 0]%float ]} : gmap loc matrix) [1%float] in
  let w1 := World ({[ 7 := Mat 2 2 [nan; 0; 1; 1]%float ]} : gmap loc matrix) [1%float] in
  PrimFloat.is_nan nan = true /\
  discrete_AKF_update (list float) randn_list inv_gauss
    (Arr1 [4; 5]%float) PEmptyList (Some (Arr1 [1; 1]%float)) 7
    (eye 2) PEmptyList (eye 2) (eye 2) (eye 2) (eye 2)
    (fun _ => 0%float) 0%float 0.01%float w
  = (Ok (Arr1 [4; 5]%float, Arr1 [4; 5]%float, eye 2, 7), w1).
Proof.
  intros w w1. split; [reflexivity|].
  apply (AKF_missing_head_keeps_estimate randn_list inv_gauss _ _ _ _ _ _ _ _ _ _ _ _ _
           w w1 nan); vm_compute; reflexivity.
Defined.

(** C2, the failing input: a history of two slots whose older
    surviving slot holds the measurement [2, 2], and the new measurement
    [3, 3].  The synchronized estimate that discrete_AKF_update returns is
    the linear Kalman step on [3, 3], the tail of the history; the step on
    the head [2, 2] gives another state. *)
Lemma AKF_sync_estimate_uses_newest :
  let x := Arr1 [0; 0]%float in
  let w := World ({[ 7 := Mat 2 2 [5; 5; 2; 2]%float ]} : gmap loc matrix) [0%float] in
  exists xhat xpred P' w' xhead,
    discrete_AKF_update (list float) randn_list inv_gauss
      x PEmptyList (Some (Arr1 [3; 3]%float)) 7
      (eye 2) PEmptyList (eye 2) (eye 2) (eye 2) (eye 2)
      (fun _ => 0%float) 0%float 0.01%float w
    = (Ok (xhat, xpred, P', 7), w') /\
    heap w' !! 7 = Some (Mat 2 2 [2; 2; 3; 0]%float) /\
    discrete_KF_update inv_gauss x PEmptyList (Some (Arr1 [3; 3]%float))
      (eye 2) PEmptyList (eye 2) (eye 2) (eye 2) (eye 2) = Ok (xhat, P') /\
    discrete_KF_update inv_gauss x PEmptyList (Some (Arr1 [2; 2]%float))
      (eye 2) PEmptyList (eye 2) (eye 2) (eye 2) (eye 2) = Ok (xhead, P') /\
    xhat = Arr1 [2; 2]%float /\
    xhat <> xhead.
Proof.
  intros x w. do 5 eexists.
  split; [vm_compute; reflexivity|].
  split; [vm_compute; reflexivity|].
  split; [vm_compute; reflexivity|].
  split; [vm_compute; reflexivity|].
  split; [reflexivity|].
  discriminate.
Qed.

(** C9, the claim as stated fails: two calls of discrete_AKF_update with the
    same arguments and the same history, one with the global generator about
    to yield the sample 1.0 and one with it about to yield 2.0, return
    different forward estimates. *)
Lemma AKF_output_depends_on_generator :
  let h : gmap loc matrix := {[ 7 := Mat 2 2 [0; 0; 0; 0]%float ]} in
  let call := discrete_AKF_update (list float) randn_list inv_gauss
                (Arr1 [0; 0]%float) PEmptyList (Some (Arr1 [1; 1]%float)) 7
                (eye 2) PEmptyList (eye 2) (eye 2) (eye 2) (eye 2)
                (fun _ => 0%float) 0%float 0.01%float in
  exists out1 out2 w1 w2,
    call (World h [1%float]) = (Ok out1, w1) /\
    call (World h [2%float]) = (Ok out2, w2) /\
    out1 <> out2.
Proof.
  intros h call. do 4 eexists.
  split; [vm_compute; reflexivity|].
  split; [vm_compute; reflexivity|].
  discriminate.
Qed.

(** C10, the claim as stated fails: after a call of discrete_AKF_update the
    array the caller passed as history holds other values than before, the
    shifted measurements and a synthesized entry. *)
Lemma AKF_overwrites_history :
  let w := World ({[ 7 := Mat 2 2 [5; 5; 2; 2]%float ]} : gmap loc matrix) [1%float] in
  exists out w',
    discrete_AKF_update (list float) randn_list inv_gauss
      (Arr1 [0; 0]%float) PEmptyList (Some (Arr1 [3; 3]%float)) 7
      (eye 2) PEmptyList (eye 2) (eye 2) (eye 2) (eye 2)
      (fun _ => 0%float) 0%float 0.01%float w
    = (Ok out, w') /\
    heap w' !! 7 = Some (Mat 2 2 [2; 2; 3; 1]%float) /\
    heap w' !! 7 <> heap w !! 7.
Proof.
  intros w. do 2 eexists.
  split; [vm_compute; reflexivity|].
  split; [vm_compute; reflexivity|].
  vm_compute. discriminate.
Qed.


Lemma AKF_estimate_independent_of_generator_witness :
  let h : gmap loc matrix := {[ 7 := Mat 2 2 [0; 0; 0; 0]%float ]} in
  let call := discrete_AKF_update (list float) randn_list inv_gauss
                (Arr1 [0; 0]%float) PEmptyList (Some (Arr1 [1; 1]%float)) 7
                (eye 2) PEmptyList (eye 2) (eye 2) (eye 2) (eye 2)
                (fun _ => 0%float) 0%float 0.01%float in
  exists xhat1 xpred1 P1 l1 w1 xhat2 xpred2 P2 l2 w2,
    call (World h [1%float]) = (Ok (xhat1, xpred1, P1, l1), w1) /\
    call (World h [2%float]) = (Ok (xhat2, xpred2, P2, l2), w2) /\
    xhat1 = xhat2 /\ P1 = P2 /\ l1 = l2.
Proof.
  intros h call. do 10 eexists.
  split; [vm_compute; reflexivity|].
  split; [vm_compute; reflexivity|].
  pose proof (AKF_estimate_independent_of_generator randn_list inv_gauss
    (Arr1 [0; 0]%float) PEmptyList (Some (Arr1 [1; 1]%float)) 7
    (eye 2) PEmptyList (eye 2) (eye 2) (eye 2) (eye 2)
    (fun _ => 0%float) 0%float 0.01%float h [1%float] [2%float]) as T.
  edestruct T as (Ha & Hb & Hc & _); [vm_compute; reflexivity | vm_compute; reflexivity |].
  exact (conj Ha (conj Hb Hc)).
Defined.

Lemma AKF_updates_history_in_place_witness :
  let w := World ({[ 7 := Mat 2 2 [5; 5; 2; 2]%float ]} : gmap loc matrix) [1%float] in
  exists xhat xpred P' l w',
    discrete_AKF_update (list float) randn_list inv_gauss
      (Arr1 [0; 0]%float) PEmptyList (Some (Arr1 [3; 3]%float)) 7
      (eye 2) PEmptyList (eye 2) (eye 2) (eye 2) (eye 2)
      (fun _ => 0%float) 0%float 0.01%float w
    = (Ok (xhat, xpred, P', l), w') /\
    l = 7 /\
    (forall l', l' <> 7 -> heap w' !! l' = heap w !! l').
Proof.
  intros w. do 5 eexists.
  split; [vm_compute; reflexivity|].
  pose proof (AKF_updates_history_in_place randn_list inv_gauss
    (Arr1 [0; 0]%float) PEmptyList (Some (Arr1 [3; 3]%float)) 7
    (eye 2) PEmptyList (eye 2) (eye 2) (eye 2) (eye 2)
    (fun _ => 0%float) 0%float 0.01%float w) as T.
  edestruct T as (Ha & Hb & _); [vm_compute; reflexivity |].
  exact (conj Ha Hb).
Defined.

(** ** Floating-point facts *)

Lemma digits2_pos_shift52 (m : positive) :
  Z.pos (digits2_pos (Pos.mul 4503599627370496 m)) = (Z.pos (digits2_pos m) + 52)%Z.
Proof. cbv [Pos.mul]. cbn [digits2_pos]. rewrite !Pos2Z.inj_succ. lia. Qed.

Lemma iter_shr_52 (m : positive) :
  SpecFloat.iter_pos shr_1 52%positive
    {| shr_m := Z.pos (Pos.mul 4503599627370496 m); shr_r := false; shr_s := false |}
  = {| shr_m := Z.pos m; shr_r := false; shr_s := false |}.
Proof. reflexivity. Qed.



(** ** The unscented step: weights and sigma points *)

Lemma broadcast_index (n i : nat) : i < n -> (if n =? 1 then 0 else i) = i.
Proof. intros Hi. destruct (n =? 1) eqn:E; [apply Nat.eqb_eq in E; lia | reflexivity]. Qed.

Lemma bdim_same (n : nat) : bdim n n = Some n.
Proof. unfold bdim. now rewrite Nat.eqb_refl. Qed.

Lemma get_m_scale (s : float) (m : matrix) (i j : nat) :
  wf_matrix m -> i < nrows m -> j < ncols m ->
  get (m_scale s m) i j = (s * get m i j)%float.
Proof.
  unfold wf_matrix, get, m_scale. cbn [mdata ncols]. intros Hwf Hi Hj.
  assert (Hlt : i * ncols m + j < length (mdata m)) by nia.
  rewrite (nth_indep _ 0%float (s * 0)%float) by (now rewrite length_map).
  apply (map_nth (fun a => (s * a)%float)).
Qed.



Section SigmaPoints.

Variable cholesky : matrix -> result matrix.


End SigmaPoints.


(** The divisions and the square root of the weights and of the sigma points
    are defined for the state dimensions up to 64. *)
Example ukf_scaling_defined_up_to_64 :
  forallb (fun L =>
             let c := (float_of_nat L + ukf_lam L)%float in
             negb (PrimFloat.eqb c 0) && negb (PrimFloat.eqb (2 * c) 0)
             && negb (PrimFloat.ltb c 0))
          (seq 1 64) = true.
Proof. vm_compute. reflexivity. Qed.

(** ** The dynamics model at rest *)

Lemma is_zero_spec (a : float) :
  is_zero a = true <-> exists s, Prim2SF a = S754_zero s.
Proof.
  unfold is_zero. rewrite FloatAxioms.eqb_spec.
  change (Prim2SF 0) with (S754_zero false).
  destruct (Prim2SF a) as [s|s| |s m e]; cbn; split;
    try discriminate; try (intros [s' [=]]); eauto.
  all: destruct s; discriminate.
Qed.

Lemma mul_finite_zero (a z : float) :
  is_finite a = true -> is_zero z = true -> is_zero (a * z) = true.
Proof.
  unfold is_finite. rewrite !is_zero_spec. intros Ha [s Hz].
  rewrite FloatAxioms.mul_spec, Hz. unfold SF64mul.
  destruct (Prim2SF a) as [sa|sa| |sa m e]; try discriminate; cbn; eauto.
Qed.

Lemma add_zero_zero (a b : float) :
  is_zero a = true -> is_zero b = true -> is_zero (a + b) = true.
Proof.
  rewrite !is_zero_spec. intros [s Ha] [s' Hb].
  rewrite FloatAxioms.add_spec, Ha, Hb. unfold SF64add. cbn. destruct s, s'; eauto.
Qed.

Lemma add_zero_l (a c : float) :
  is_zero a = true -> is_zero c = false -> (a + c)%float = c.
Proof.
  intros Ha Hc. apply is_zero_spec in Ha as [s Ha].
  apply Prim2SF_inj. rewrite FloatAxioms.add_spec, Ha. unfold SF64add.
  destruct (Prim2SF c) as [sc|sc| |sc m e] eqn:E; try reflexivity.
  exfalso. assert (is_zero c = true) by (apply is_zero_spec; eauto). congruence.
Qed.

Lemma fold_add_zeros (l : list float) (acc : float) :
  is_zero acc = true -> Forall (fun a => is_zero a = true) l ->
  is_zero (fold_left PrimFloat.add l acc) = true.
Proof.
  revert acc. induction l as [|a l IH]; intros acc Hacc Hl; [assumption|].
  inversion Hl; subst. cbn. apply IH; [now apply add_zero_zero | assumption].
Qed.

Lemma get_finite (m : matrix) (i j : nat) :
  wf_matrix m -> finite_matrix m = true -> i < nrows m -> j < ncols m ->
  is_finite (get m i j) = true.
Proof.
  unfold wf_matrix, finite_matrix, get. intros Hwf Hfin Hi Hj.
  rewrite forallb_forall in Hfin. apply Hfin. apply nth_In. nia.
Qed.

(** An entry of the product of a finite matrix with a vector of zeros is
    zero. *)
Lemma dot_zeros_entry (a : matrix) (v : nat -> float) (i : nat) :
  wf_matrix a -> finite_matrix a = true -> i < nrows a ->
  (forall k, k < ncols a -> is_zero (v k) = true) ->
  is_zero (fsum (map (fun k => (get a i k * v k)%float) (seq 0 (ncols a)))) = true.
Proof.
  intros Hwf Hfin Hi Hv. unfold fsum. apply fold_add_zeros; [reflexivity|].
  apply List.Forall_forall. intros p Hp. apply in_map_iff in Hp as (k & <- & Hk).
  apply in_seq in Hk. apply mul_finite_zero; [apply get_finite; auto; lia | apply Hv; lia].
Qed.

Lemma dot_mm_zero_vector (a v : matrix) :
  wf_matrix a -> finite_matrix a = true ->
  ncols a = nrows v -> ncols v = 1 ->
  (forall k, k < nrows v -> is_zero (get v k 0) = true) ->
  exists p, dot_mm a v = Ok p /\ nrows p = nrows a /\ ncols p = 1 /\
            forall i, i < nrows a -> is_zero (get p i 0) = true.
Proof.
  intros Hwf Hfin Hn Hc Hv. unfold dot_mm. rewrite Hn, Nat.eqb_refl, Hc.
  eexists. split; [reflexivity|]. split; [reflexivity|]. split; [reflexivity|].
  intros i Hi. rewrite get_tabulate by lia. rewrite <- Hn.
  apply dot_zeros_entry; try assumption. intros k Hk. apply Hv. lia.
Qed.

Lemma broadcast2_same_shape (f : float -> float -> float) (a b : matrix) :
  nrows a = nrows b -> ncols a = ncols b ->
  exists p, broadcast2 f a b = Ok p /\ nrows p = nrows a /\ ncols p = ncols a /\
            forall i j, i < nrows a -> j < ncols a ->
                        get p i j = f (get a i j) (get b i j).
Proof.
  intros Hr Hc. unfold broadcast2. rewrite <- Hr, <- Hc, !bdim_same.
  eexists. split; [reflexivity|]. split; [reflexivity|]. split; [reflexivity|].
  intros i j Hi Hj. rewrite get_tabulate by assumption.
  now rewrite !broadcast_index.
Qed.

(** Broadcasting succeeds or fails by the shapes alone. *)
Lemma nd_broadcast_shapes (f f' : float -> float -> float) (a : ndarray)
    (b b' : matrix) (r : ndarray) :
  nrows b' = nrows b -> ncols b' = ncols b ->
  nd_broadcast f a (Arr2 b) = Ok r ->
  exists r', nd_broadcast f' a (Arr2 b') = Ok r'.
Proof.
  intros Hr Hc H. destruct a as [v|m]; simpl in *; unfold broadcast2 in *;
    rewrite Hr, Hc; simpl in *;
    repeat match type of H with
           | context [bdim ?p ?q] => destruct (bdim p q)
           end; simpl in *; try discriminate; eauto.
Qed.

Section DynamicsAtRest.

Variables sin cos : float -> float.
Variable inv : matrix -> result matrix.
Variable cont2discrete : matrix -> matrix -> matrix -> float ->
                         result (matrix * matrix * matrix).

Lemma read_param_complete (param : quad_param) :
  read_param (complete param) = Ok param.
Proof. now destruct param. Qed.

(** The step on a dictionary that holds all the entries. *)
Lemma quadcopter_dynamics_complete (x u : ndarray) (param : quad_param) :
  quadcopter_dynamics sin cos inv cont2discrete x u (complete param)
  = let* (Ac, Bc, Cc, T, tau_b) := continuous_system sin cos inv x u param in
    let* (Ad, Bd, Cd) := cont2discrete Ac Bc Cc (inner_loop_h param) in
    let* Adx := dot_mv Ad x in
    let* Bdu := dot_mm Bd (Mat 4 1 (T :: mdata tau_b)) in
    let* free := nd_add Adx (Arr2 Bdu) in
    let* xout := nd_add free (Arr2 (m_scale_r (gravity (p_g param))
                                               (inner_loop_h param))) in
    let* yout := dot_mv Cd x in
    Ok (xout, yout).
Proof.
  unfold quadcopter_dynamics, continuous_system. rewrite read_param_complete.
  destruct (angles_and_rates x); reflexivity.
Qed.

(** The thrust and the torques of the continuous-time system. *)
Lemma continuous_system_inputs (x u : ndarray) (param : quad_param)
    (Ac Bc Cc : matrix) (T : float) (tau_b : matrix) :
  continuous_system sin cos inv x u param = Ok (Ac, Bc, Cc, T, tau_b) ->
  exists uc u0 u1 u2 u3,
    first_column u = Ok uc /\
    index uc 0 = Ok u0 /\ index uc 1 = Ok u1 /\
    index uc 2 = Ok u2 /\ index uc 3 = Ok u3 /\
    T = (p_k param * fsum (map sq uc))%float /\
    tau_b = Mat 3 1 [(p_l param * p_k param * (- sq u1 + sq u3))%float;
                     (p_l param * p_k param * (- sq u0 + sq u2))%float;
                     (p_b param * (sq u0 - sq u1 + sq u2 - sq u3))%float].
Proof.
  intros H. unfold continuous_system in H.
  apply rbind_ok in H as ([[[[[phi theta] psi] phidot] thetadot] psidot] & _ & H).
  unfold system_matrices in H.
  destruct param as [Ts g m k [[A1 A2] A3] [[Ixx Iyy] Izz] l b].
  cbn [p_m p_k p_A p_I p_l p_b] in H |- *.
  apply rbind_ok in H as (uc & Huc & H).
  do 6 (apply rbind_ok in H as (? & _ & H)).
  apply rbind_ok in H as (u1 & Hu1 & H).
  apply rbind_ok in H as (u3 & Hu3 & H).
  apply rbind_ok in H as (u0 & Hu0 & H).
  apply rbind_ok in H as (u2 & Hu2 & H).
  repeat (apply rbind_ok in H as (? & _ & H)).
  injection H as _ _ _ <- <-.
  exists uc, u0, u1, u2, u3. repeat split; assumption.
Qed.

(** The continuous-time system does not read [g]. *)
Lemma system_matrices_without_g
    (angles : float * float * float * float * float * float) (u : ndarray)
    (Ts g g' m k : float) (A I : float * float * float) (l b : float) :
  system_matrices sin cos inv angles u (QuadParam Ts g m k A I l b)
  = system_matrices sin cos inv angles u (QuadParam Ts g' m k A I l b).
Proof. reflexivity. Qed.

(** The step adds [G*Ts] to [Ad.x + Bd.u], and [G*Ts] is zero times [Ts]
    everywhere but in slot 5, where it is [-g] times [Ts]; [Ad], [Bd] and the
    signal [u] of the sum come from a system that does not read [g], so
    that with another [g] the same sum takes the other [G*Ts]. *)
Lemma quadcopter_dynamics_gravity (x u : ndarray) (d : param_dict)
    (xout yout : ndarray) :
  quadcopter_dynamics sin cos inv cont2discrete x u d = Ok (xout, yout) ->
  exists param Ac Bc Cc T tau_b Ad Bd Cd Adx Bdu free,
    let Ts := inner_loop_h param in
    read_param d = Ok param /\
    continuous_system sin cos inv x u param = Ok (Ac, Bc, Cc, T, tau_b) /\
    cont2discrete Ac Bc Cc Ts = Ok (Ad, Bd, Cd) /\
    dot_mv Ad x = Ok Adx /\
    dot_mm Bd (Mat 4 1 (T :: mdata tau_b)) = Ok Bdu /\
    nd_add Adx (Arr2 Bdu) = Ok free /\
    nd_add free
      (Arr2 (Mat 12 1 [0 * Ts; 0 * Ts; 0 * Ts; 0 * Ts; 0 * Ts; - p_g param * Ts;
                       0 * Ts; 0 * Ts; 0 * Ts; 0 * Ts; 0 * Ts; 0 * Ts]%float))
    = Ok xout /\
    dot_mv Cd x = Ok yout /\
    forall g' : float,
      exists xout',
        quadcopter_dynamics sin cos inv cont2discrete x u (with_g d g')
        = Ok (xout', yout) /\
        nd_add free
          (Arr2 (Mat 12 1 [0 * Ts; 0 * Ts; 0 * Ts; 0 * Ts; 0 * Ts; - g' * Ts;
                           0 * Ts; 0 * Ts; 0 * Ts; 0 * Ts; 0 * Ts; 0 * Ts]%float))
        = Ok xout'.
Proof.
  intros H. unfold quadcopter_dynamics in H.
  apply rbind_ok in H as (angles & Ha & H).
  apply rbind_ok in H as (param & Hp & H).
  apply rbind_ok in H as ([[[[Ac Bc] Cc] T] tau_b] & Hc & H).
  apply rbind_ok in H as ([[Ad Bd] Cd] & Hd & H).
  apply rbind_ok in H as (Adx & HAdx & H).
  apply rbind_ok in H as (Bdu & HBdu & H).
  apply rbind_ok in H as (free & Hfree & H).
  apply rbind_ok in H as (xout' & Hxout & H).
  apply rbind_ok in H as (yout' & Hyout & [= -> ->]).
  exists param, Ac, Bc, Cc, T, tau_b, Ad, Bd, Cd, Adx, Bdu, free. cbn zeta.
  split; [exact Hp|].
  split; [unfold continuous_system; rewrite Ha; exact Hc|].
  split; [exact Hd|]. split; [exact HAdx|]. split; [exact HBdu|].
  split; [exact Hfree|]. split; [exact Hxout|]. split; [exact Hyout|].
  intros g'.
  assert (Hp' : read_param (with_g d g')
                = Ok (QuadParam (inner_loop_h param) g' (p_m param) (p_k param)
                        (p_A param) (p_I param) (p_l param) (p_b param))).
  { unfold read_param in Hp |- *. cbn [with_g d_inner_loop_h d_g d_m d_k d_A d_I d_l d_b].
    apply rbind_ok in Hp as (Ts0 & -> & Hp). apply rbind_ok in Hp as (g0 & _ & Hp).
    apply rbind_ok in Hp as (m0 & -> & Hp). apply rbind_ok in Hp as (k0 & -> & Hp).
    apply rbind_ok in Hp as (A0 & -> & Hp). apply rbind_ok in Hp as (I0 & -> & Hp).
    apply rbind_ok in Hp as (l0 & -> & Hp). apply rbind_ok in Hp as (b0 & -> & Hp).
    injection Hp as <-. reflexivity. }
  destruct (nd_broadcast_shapes PrimFloat.add PrimFloat.add free
              (m_scale_r (gravity (p_g param)) (inner_loop_h param))
              (m_scale_r (gravity g') (inner_loop_h param)) xout
              eq_refl eq_refl Hxout) as (xout2 & Hxout2).
  exists xout2. split; [|exact Hxout2].
  unfold quadcopter_dynamics. rewrite Ha. cbn [rbind]. rewrite Hp'. cbn [rbind].
  cbn [inner_loop_h p_g].
  destruct param as [Ts g m k A0 I0 l b]. cbn [inner_loop_h p_g p_m p_k p_A p_I p_l p_b] in *.
  rewrite (system_matrices_without_g angles u Ts g' g m k A0 I0 l b), Hc. cbn [rbind].
  rewrite Hd. cbn [rbind]. rewrite HAdx. cbn [rbind]. rewrite HBdu. cbn [rbind].
  rewrite Hfree. cbn [rbind]. unfold nd_add in Hxout2 |- *. rewrite Hxout2. cbn [rbind].
  rewrite Hyout. reflexivity.
Qed.

(** C7: with x = zeros(12,1), u = zeros(4,1) and a dictionary of parameters
    with g = 9.81, m = 0.03, k = 1e-6 and timestep 0.01, whenever the library
    routines return (the inverse of J, and a discretization with finite
    matrices Ad of shape 12x12 and Bd of shape 12x4 and a Cd of 12 columns),
    quadcopter_dynamics returns a state of shape (12,1) whose slot 5 is
    -9.81*0.01, within 1e-3 of -0.0981, and whose other slots are zero.  And
    for every input on which quadcopter_dynamics returns, the state returned
    is the sum [Ad.x + Bd.[T; tau]], with Ad and Bd the discretization of the
    system built from x, u and the parameters, plus a vector that holds
    [-g*Ts] in slot 5 and [0*Ts] in the other slots; with any other entry g'
    for g the step returns too, with the same output and the state that is
    the same sum plus the vector with [-g'*Ts] in slot 5. *)
Theorem quadcopter_gravity_step
    (A I : float * float * float) (l b : float)
    (Ac Bc Cc : matrix) (T : float) (tau_b Ad Bd Cd : matrix) :
  let param := QuadParam 0.01 9.81 0.03 1e-6 A I l b in
  let x0 := Arr2 (zeros 12 1) in
  let u0 := Arr2 (zeros 4 1) in
  continuous_system sin cos inv x0 u0 param = Ok (Ac, Bc, Cc, T, tau_b) ->
  cont2discrete Ac Bc Cc 0.01 = Ok (Ad, Bd, Cd) ->
  nrows Ad = 12 -> ncols Ad = 12 -> wf_matrix Ad -> finite_matrix Ad = true ->
  nrows Bd = 12 -> ncols Bd = 4 -> wf_matrix Bd -> finite_matrix Bd = true ->
  ncols Cd = 12 ->
  is_finite (l * 1e-6) = true -> is_finite b = true ->
  (exists X yout,
      quadcopter_dynamics sin cos inv cont2discrete x0 u0 (complete param)
      = Ok (Arr2 X, yout) /\
      nrows X = 12 /\ ncols X = 1 /\
      get X 5 0 = (-9.81 * 0.01)%float /\
      PrimFloat.ltb (abs (get X 5 0 - -0.0981)) 1e-3 = true /\
      forall i, i < 12 -> i <> 5 -> is_zero (get X i 0) = true)
  /\
  (forall (x u : ndarray) (d : param_dict) (xout yout : ndarray),
      quadcopter_dynamics sin cos inv cont2discrete x u d = Ok (xout, yout) ->
      exists param' Ac' Bc' Cc' T' tau_b' Ad' Bd' Cd' Adx Bdu free,
        let Ts := inner_loop_h param' in
        let g := p_g param' in
        read_param d = Ok param' /\
        continuous_system sin cos inv x u param' = Ok (Ac', Bc', Cc', T', tau_b') /\
        cont2discrete Ac' Bc' Cc' Ts = Ok (Ad', Bd', Cd') /\
        dot_mv Ad' x = Ok Adx /\
        dot_mm Bd' (Mat 4 1 (T' :: mdata tau_b')) = Ok Bdu /\
        nd_add Adx (Arr2 Bdu) = Ok free /\
        nd_add free
          (Arr2 (Mat 12 1 [0 * Ts; 0 * Ts; 0 * Ts; 0 * Ts; 0 * Ts; - g * Ts;
                           0 * Ts; 0 * Ts; 0 * Ts; 0 * Ts; 0 * Ts; 0 * Ts]%float))
        = Ok xout /\
        forall g' : float,
          exists xout',
            quadcopter_dynamics sin cos inv cont2discrete x u (with_g d g')
            = Ok (xout', yout) /\
            nd_add free
              (Arr2 (Mat 12 1 [0 * Ts; 0 * Ts; 0 * Ts; 0 * Ts; 0 * Ts; - g' * Ts;
                               0 * Ts; 0 * Ts; 0 * Ts; 0 * Ts; 0 * Ts; 0 * Ts]%float))
            = Ok xout').
Proof.
  intros param x0 u0 Hc Hd HAr HAc HAwf HAfin HBr HBc HBwf HBfin HCc Hlk Hb.
  split.
  2: { intros x u d xout yout H.
       apply quadcopter_dynamics_gravity in H
         as (param' & Ac' & Bc' & Cc' & T' & tau_b' & Ad' & Bd' & Cd' & Adx & Bdu
             & free & Hp & Hs & Hc2d & HAdx & HBdu & Hfree & Hxout & _ & Hg).
       exists param', Ac', Bc', Cc', T', tau_b', Ad', Bd', Cd', Adx, Bdu, free.
       repeat split; assumption. }
  pose proof (continuous_system_inputs _ _ _ _ _ _ _ _ Hc)
    as (uc & a0 & a1 & a2 & a3 & Huc & H0 & H1 & H2 & H3 & HT & Htau).
  cbn in Huc. injection Huc as <-.
  cbn in H0, H1, H2, H3.
  injection H0 as <-. injection H1 as <-. injection H2 as <-. injection H3 as <-.
  cbn [p_k p_l p_b param] in HT, Htau.
  (* Ad.x *)
  destruct (dot_mm_zero_vector Ad (zeros 12 1)) as (Adx & HAdx & HAdxr & HAdxc & HAdx0);
    [assumption | assumption | rewrite HAc; reflexivity | reflexivity | |].
  { intros k Hk. cbn [nrows zeros tabulate] in Hk. unfold zeros.
    rewrite get_tabulate by lia. reflexivity. }
  (* Bd.u *)
  destruct (dot_mm_zero_vector Bd (Mat 4 1 (T :: mdata tau_b)))
    as (Bdu & HBdu & HBdur & HBduc & HBdu0);
    [assumption | assumption | rewrite HBc; reflexivity | reflexivity | |].
  { intros k Hk. cbn [nrows] in Hk. subst T tau_b. unfold get. cbn [ncols mdata].
    destruct k as [|[|[|[|k]]]]; [| | | |lia]; cbn [Nat.mul Nat.add nth].
    - vm_compute. reflexivity.
    - apply mul_finite_zero; [assumption | vm_compute; reflexivity].
    - apply mul_finite_zero; [assumption | vm_compute; reflexivity].
    - apply mul_finite_zero; [assumption | vm_compute; reflexivity]. }
  (* Ad.x + Bd.u *)
  destruct (broadcast2_same_shape PrimFloat.add Adx Bdu)
    as (free & Hfree & Hfreer & Hfreec & Hfreeg); [congruence | congruence |].
  (* ... + G*Ts *)
  set (GTs := m_scale_r (gravity 9.81) 0.01).
  destruct (broadcast2_same_shape PrimFloat.add free GTs)
    as (X & HX & HXr & HXc & HXg);
    [rewrite Hfreer, HAdxr, HAr; reflexivity
    |rewrite Hfreec, HAdxc; reflexivity|].
  assert (Hfree0 : forall i, i < 12 -> is_zero (get free i 0) = true).
  { intros i Hi. rewrite Hfreeg by (rewrite ?HAdxr, ?HAdxc, ?HAr; lia).
    apply add_zero_zero; [apply HAdx0 | apply HBdu0]; lia. }
  assert (HXi : forall i, i < 12 -> get X i 0 = (get free i 0 + get GTs i 0)%float).
  { intros i Hi. apply HXg; rewrite ?Hfreer, ?Hfreec, ?HAdxr, ?HAdxc, ?HAr; lia. }
  assert (HCx : exists yout, dot_mv Cd x0 = Ok yout).
  { unfold x0, dot_mv, dot_mm. rewrite HCc. cbn. eauto. }
  destruct HCx as (yout & Hyout).
  exists X, yout.
  assert (H5 : get X 5 0 = (-9.81 * 0.01)%float).
  { rewrite HXi by lia. apply add_zero_l; [apply Hfree0; lia | vm_compute; reflexivity]. }
  split.
  { rewrite quadcopter_dynamics_complete, Hc. cbn [rbind inner_loop_h p_g param].
    rewrite Hd. cbn [rbind]. unfold x0 at 1. cbn [dot_mv].
    rewrite HAdx. cbn [rbind]. rewrite HBdu. cbn [rbind].
    unfold nd_add, nd_broadcast. rewrite Hfree. cbn [rbind].
    fold GTs. rewrite HX. cbn [rbind]. rewrite Hyout. reflexivity. }
  split; [congruence|]. split; [congruence|]. split; [exact H5|].
  split; [rewrite H5; vm_compute; reflexivity|].
  intros i Hi Hi5. rewrite HXi by assumption.
  apply add_zero_zero; [now apply Hfree0|].
  do 12 (destruct i as [|i]; [try (vm_compute; reflexivity); lia|]). lia.
Qed.

End DynamicsAtRest.

(** Stand-ins for the library, a parameter set with the claim's g, m, k and
    timestep, and the state and input at rest. *)
Lemma quadcopter_gravity_step_witness :
  let param := QuadParam 0.01 9.81 0.03 1e-6 (0.1, 0.1, 0.2)%float
                 (1e-5, 1e-5, 2e-5)%float 0.046 1e-9 in
  exists X yout,
    quadcopter_dynamics sin_taylor cos_taylor inv_gauss c2d_euler
      (Arr2 (zeros 12 1)) (Arr2 (zeros 4 1)) (complete param) = Ok (Arr2 X, yout) /\
    nrows X = 12 /\ ncols X = 1 /\
    get X 5 0 = (-9.81 * 0.01)%float /\
    PrimFloat.ltb (abs (get X 5 0 - -0.0981)) 1e-3 = true /\
    forall i, i < 12 -> i <> 5 -> is_zero (get X i 0) = true.
Proof.
  intros param.
  edestruct (quadcopter_gravity_step sin_taylor cos_taylor inv_gauss c2d_euler
               (0.1, 0.1, 0.2)%float (1e-5, 1e-5, 2e-5)%float 0.046%float 1e-9%float)
    as [HX _].
  14: exact HX.
  - vm_compute; reflexivity.
  - vm_compute; reflexivity.
  - reflexivity.
  - reflexivity.
  - vm_compute; reflexivity.
  - vm_compute; reflexivity.
  - reflexivity.
  - reflexivity.
  - vm_compute; reflexivity.
  - vm_compute; reflexivity.
  - reflexivity.
  - vm_compute; reflexivity.
  - vm_compute; reflexivity.
Defined.

Lemma AKF_sync_estimate_is_step_on_newest_witness :
  let x := Arr1 [0; 0]%float in
  let w := World ({[ 7 := Mat 2 2 [5; 5; 2; 2]%float ]} : gmap loc matrix) [0%float] in
  exists xhat xpred P' l w',
    discrete_AKF_update (list float) randn_list inv_gauss
      x PEmptyList (Some (Arr1 [3; 3]%float)) 7
      (eye 2) PEmptyList (eye 2) (eye 2) (eye 2) (eye 2)
      (fun _ => 0%float) 0%float 0.01%float w
    = (Ok (xhat, xpred, P', l), w') /\
    discrete_KF_update inv_gauss x PEmptyList (Some (Arr1 [3; 3]%float))
      (eye 2) PEmptyList (eye 2) (eye 2) (eye 2) (eye 2) = Ok (xhat, P').
Proof.
  intros x w. do 5 eexists.
  split; [vm_compute; reflexivity|].
  edestruct (AKF_sync_estimate_is_step_on_newest randn_list inv_gauss
               x PEmptyList (Some (Arr1 [3; 3]%float)) 7
               (eye 2) PEmptyList (eye 2) (eye 2) (eye 2) (eye 2)
               (fun _ => 0%float) 0%float 0.01%float w)
    as (m0 & zv & Hm0 & Hzv & _ & HK); [vm_compute; reflexivity|].
  vm_compute in Hm0. injection Hm0 as <-.
  vm_compute in Hzv. injection Hzv as <-.
  apply HK. vm_compute. reflexivity.
Defined.

(** ** The linear Kalman step: which exceptions, which shapes *)

Lemma dot_mm_err (a b : matrix) (e : exn) : dot_mm a b = Err e -> e = ValueError.
Proof. unfold dot_mm. destruct (ncols a =? nrows b); [discriminate | now intros [= <-]]. Qed.

Lemma dot_mv_err (a : matrix) (b : ndarray) (e : exn) :
  dot_mv a b = Err e -> e = ValueError.
Proof.
  destruct b as [v|m]; simpl.
  - destruct (ncols a =? length v); [discriminate | now intros [= <-]].
  - destruct (dot_mm a m) eqn:E; simpl; [discriminate|].
    intros [= <-]. now apply dot_mm_err in E.
Qed.

Lemma broadcast2_err (f : float -> float -> float) (a b : matrix) (e : exn) :
  broadcast2 f a b = Err e -> e = ValueError.
Proof.
  unfold broadcast2.
  destruct (bdim (nrows a) (nrows b)), (bdim (ncols a) (ncols b));
    try discriminate; now intros [= <-].
Qed.

Lemma nd_broadcast_err (f : float -> float -> float) (a b : ndarray) (e : exn) :
  nd_broadcast f a b = Err e -> e = ValueError.
Proof.
  destruct a as [v|m], b as [w|n]; simpl;
    match goal with
    | |- rbind (broadcast2 f ?p ?q) _ = _ -> _ =>
        destruct (broadcast2 f p q) eqn:E; simpl; [discriminate|];
        intros [= <-]; now apply broadcast2_err in E
    end.
Qed.

Lemma predict_state_err (x : ndarray) (u : pyarg ndarray) (A : matrix)
    (B : pyarg matrix) (e : exn) :
  predict_state x u A B = Err e -> e = ValueError \/ e = TypeError.
Proof.
  unfold predict_state.
  destruct (eq_empty_list B || eq_empty_list u);
    destruct (dot_mv A x) eqn:EA; simpl; try discriminate;
    try (intros [= <-]; left; now apply dot_mv_err in EA).
  destruct (py_dot B u) eqn:EB; simpl.
  - intros H. left. now apply nd_broadcast_err in H.
  - intros [= <-]. destruct B as [| |b], u as [| |v]; simpl in EB;
      try (injection EB as <-; now right).
    left. now apply dot_mv_err in EB.
Qed.

Lemma predict_covariance_err (A P Q : matrix) (e : exn) :
  predict_covariance A P Q = Err e -> e = ValueError.
Proof.
  unfold predict_covariance.
  destruct (dot_mm A P) eqn:E1; simpl; [|intros [= <-]; now apply dot_mm_err in E1].
  destruct (dot_mm _ (transpose A)) eqn:E2; simpl;
    [|intros [= <-]; now apply dot_mm_err in E2].
  apply broadcast2_err.
Qed.

Lemma innovation_covariance_err (C Pf R : matrix) (e : exn) :
  innovation_covariance C Pf R = Err e -> e = ValueError.
Proof.
  unfold innovation_covariance.
  destruct (dot_mm Pf (transpose C)) eqn:E1; simpl;
    [|intros [= <-]; now apply dot_mm_err in E1].
  destruct (dot_mm C _) eqn:E2; simpl; [|intros [= <-]; now apply dot_mm_err in E2].
  apply broadcast2_err.
Qed.

(** X3: an exception that discrete_KF_update raises is a ValueError (shapes
    that do not fit), a TypeError ([None] as an operand of [np.dot]) or an
    exception that the matrix inverse raised: it never raises another
    kind. *)
Theorem KF_update_exceptions
    (inv : matrix -> result matrix) (x : ndarray) (u : pyarg ndarray)
    (z : option ndarray) (A : matrix) (B : pyarg matrix) (C P Q R : matrix) (e : exn) :
  discrete_KF_update inv x u z A B C P Q R = Err e ->
  e = ValueError \/ e = TypeError \/ exists S, inv S = Err e.
Proof.
  unfold discrete_KF_update. intros H.
  destruct (predict_state x u A B) as [xf|e1] eqn:E1; simpl in H;
    [|injection H as <-; apply predict_state_err in E1; tauto].
  destruct (predict_covariance A P Q) as [Pf|e2] eqn:E2; simpl in H;
    [|injection H as <-; apply predict_covariance_err in E2; tauto].
  destruct z as [z|]; [|discriminate].
  destruct (dot_mm Pf (transpose C)) as [Knum|e3] eqn:E3; simpl in H;
    [|injection H as <-; apply dot_mm_err in E3; tauto].
  destruct (innovation_covariance C Pf R) as [Kden|e4] eqn:E4; simpl in H;
    [|injection H as <-; apply innovation_covariance_err in E4; tauto].
  destruct (inv Kden) as [Ki|e5] eqn:E5; simpl in H;
    [|injection H as <-; right; right; eauto].
  left.
  repeat match type of H with
         | rbind ?r _ = Err _ =>
             let E := fresh "E" in
             destruct r eqn:E; simpl in H;
             [| injection H as <-;
                first [ now apply dot_mm_err in E
                      | now apply dot_mv_err in E
                      | now apply nd_broadcast_err in E
                      | now apply broadcast2_err in E ] ]
         end.
  discriminate.
Qed.

Lemma KF_update_exceptions_witness :
  discrete_KF_update inv_gauss (Arr1 [1; 2; 3]%float) PEmptyList None
    (eye 2) PEmptyList (eye 2) (eye 2) (eye 2) (eye 2) = Err ValueError /\
  (ValueError = ValueError \/ ValueError = TypeError \/
   exists S, inv_gauss S = Err ValueError).
Proof.
  split; [vm_compute; reflexivity|].
  apply (KF_update_exceptions inv_gauss (Arr1 [1; 2; 3]%float) PEmptyList None
           (eye 2) PEmptyList (eye 2) (eye 2) (eye 2) (eye 2)).
  vm_compute; reflexivity.
Defined.

(** X4: the covariance that discrete_KF_update returns depends on A, C, P, Q
    and R only: two calls that return, with any states, control signals and
    measurements, return the same covariance. *)
Theorem KF_covariance_independent_of_data
    (inv : matrix -> result matrix) (x x' : ndarray) (u u' : pyarg ndarray)
    (z z' : option ndarray) (A : matrix) (B B' : pyarg matrix) (C P Q R : matrix)
    (xhat xhat' : ndarray) (Pnew Pnew' : matrix) :
  (z = None <-> z' = None) ->
  discrete_KF_update inv x u z A B C P Q R = Ok (xhat, Pnew) ->
  discrete_KF_update inv x' u' z' A B' C P Q R = Ok (xhat', Pnew') ->
  Pnew = Pnew'.
Proof.
  unfold discrete_KF_update. intros Hz H H'.
  apply rbind_ok in H as (xf & _ & H). apply rbind_ok in H' as (xf' & _ & H').
  destruct (predict_covariance A P Q) as [Pf|]; [|discriminate]. simpl in H, H'.
  destruct z as [z|], z' as [z'|];
    try (exfalso; destruct Hz as [Hz1 Hz2];
         first [now discriminate Hz1 | now discriminate Hz2]).
  - destruct (dot_mm Pf (transpose C)) as [Knum|]; [|discriminate]. simpl in H, H'.
    destruct (innovation_covariance C Pf R) as [Kden|]; [|discriminate].
    simpl in H, H'.
    destruct (inv Kden) as [Ki|]; [|discriminate]. simpl in H, H'.
    destruct (dot_mm Knum Ki) as [K|]; [|discriminate]. simpl in H, H'.
    apply rbind_ok in H as (? & _ & H). apply rbind_ok in H' as (? & _ & H').
    apply rbind_ok in H as (? & _ & H). apply rbind_ok in H' as (? & _ & H').
    apply rbind_ok in H as (? & _ & H). apply rbind_ok in H' as (? & _ & H').
    apply rbind_ok in H as (? & _ & H). apply rbind_ok in H' as (? & _ & H').
    destruct (dot_mm K C) as [KC|]; [|discriminate]. simpl in H, H'.
    destruct (m_sub (eye (nrows Q)) KC) as [IKC|]; [|discriminate]. simpl in H, H'.
    destruct (dot_mm IKC Pf) as [Pn|]; [|discriminate]. simpl in H, H'.
    congruence.
  - congruence.
Qed.

Lemma KF_covariance_independent_of_data_witness :
  exists xhat xhat' Pnew Pnew',
    discrete_KF_update inv_gauss (Arr1 [1; 2]%float) PEmptyList
      (Some (Arr1 [1]%float)) (eye 2) PEmptyList
      (Mat 1 2 [1; 0]%float) (eye 2) (eye 2) (Mat 1 1 [1]%float) = Ok (xhat, Pnew) /\
    discrete_KF_update inv_gauss (Arr1 [-4; 7]%float) PEmptyList
      (Some (Arr1 [30]%float)) (eye 2) PEmptyList
      (Mat 1 2 [1; 0]%float) (eye 2) (eye 2) (Mat 1 1 [1]%float) = Ok (xhat', Pnew') /\
    xhat <> xhat' /\ Pnew = Pnew'.
Proof.
  do 4 eexists.
  split; [vm_compute; reflexivity|]. split; [vm_compute; reflexivity|].
  split; [discriminate|].
  apply (KF_covariance_independent_of_data inv_gauss
           (Arr1 [1; 2]%float) (Arr1 [-4; 7]%float) PEmptyList PEmptyList
           (Some (Arr1 [1]%float)) (Some (Arr1 [30]%float))
           (eye 2) PEmptyList PEmptyList (Mat 1 2 [1; 0]%float)
           (eye 2) (eye 2) (Mat 1 1 [1]%float)
           (Arr1 [1; 2]%float) (Arr1 [18.666666666666664; 7]%float)).
  - split; discriminate.
  - vm_compute; reflexivity.
  - vm_compute; reflexivity.
Defined.

Lemma dot_mm_ok (a b : matrix) :
  ncols a = nrows b ->
  exists p, dot_mm a b = Ok p /\ nrows p = nrows a /\ ncols p = ncols b.
Proof. intros H. unfold dot_mm. rewrite H, Nat.eqb_refl. eauto. Qed.

Lemma dot_mv_vector_ok (a : matrix) (v : list float) :
  ncols a = length v ->
  exists w, dot_mv a (Arr1 v) = Ok (Arr1 w) /\ length w = nrows a.
Proof.
  intros H. simpl. rewrite H, Nat.eqb_refl. eexists. split; [reflexivity|].
  now rewrite length_map, length_seq.
Qed.

Lemma broadcast2_wf (f : float -> float -> float) (a b p : matrix) :
  broadcast2 f a b = Ok p -> wf_matrix p.
Proof.
  unfold broadcast2.
  destruct (bdim (nrows a) (nrows b)), (bdim (ncols a) (ncols b)); try discriminate.
  intros [= <-]. apply wf_tabulate.
Qed.

Lemma nd_broadcast_vectors_ok (f : float -> float -> float) (v w : list float) :
  length v = length w ->
  exists r, nd_broadcast f (Arr1 v) (Arr1 w) = Ok (Arr1 r) /\ length r = length v.
Proof.
  intros H. simpl.
  destruct (broadcast2_same_shape f (as_row v) (as_row w) eq_refl H)
    as (p & Hp & Hr & Hc & _).
  rewrite Hp. simpl. eexists. split; [reflexivity|].
  apply broadcast2_wf in Hp. unfold wf_matrix in Hp. rewrite Hp, Hr, Hc. simpl. lia.
Qed.

(** X5: on one-dimensional vectors whose lengths fit the matrices,
    discrete_KF_update runs whenever the inverse of the innovation covariance
    exists: for a state of length M, a measurement of length K, A, P and Q of
    shape (M, M), C of shape (K, M) and R of shape (K, K), and without a
    control signal, the prediction and the innovation covariance S are
    defined, and if [inv S] returns a (K, K) matrix the call returns a state
    of length M and a covariance of shape (M, M). *)
Theorem KF_update_runs_on_vectors
    (inv : matrix -> result matrix) (xv zv : list float) (A C P Q R : matrix) :
  let M := length xv in
  let K := length zv in
  nrows A = M -> ncols A = M -> nrows C = K -> ncols C = M ->
  nrows P = M -> ncols P = M -> nrows Q = M -> ncols Q = M ->
  nrows R = K -> ncols R = K ->
  exists Pf S,
    predict_covariance A P Q = Ok Pf /\
    innovation_covariance C Pf R = Ok S /\
    nrows S = K /\ ncols S = K /\
    forall Si, inv S = Ok Si -> nrows Si = K -> ncols Si = K ->
      exists xh Pnew,
        discrete_KF_update inv (Arr1 xv) PEmptyList (Some (Arr1 zv))
          A PEmptyList C P Q R = Ok (Arr1 xh, Pnew) /\
        length xh = M /\ nrows Pnew = M /\ ncols Pnew = M.
Proof.
  intros M K HrA HcA HrC HcC HrP HcP HrQ HcQ HrR HcR. subst M K.
  destruct (dot_mm_ok A P) as (AP & E1 & r1 & c1); [congruence|].
  destruct (dot_mm_ok AP (transpose A)) as (APAt & E2 & r2 & c2);
    [simpl; congruence|].
  destruct (broadcast2_same_shape PrimFloat.add APAt Q) as (Pf & E3 & r3 & c3 & _);
    [simpl in *; congruence..|].
  destruct (dot_mm_ok Pf (transpose C)) as (Knum & E4 & r4 & c4);
    [simpl in *; congruence|].
  destruct (dot_mm_ok C Knum) as (CK & E5 & r5 & c5); [simpl in *; congruence|].
  destruct (broadcast2_same_shape PrimFloat.add CK R) as (S & E6 & r6 & c6 & _);
    [simpl in *; congruence..|].
  assert (EPf : predict_covariance A P Q = Ok Pf).
  { unfold predict_covariance. rewrite E1; cbn [rbind]. now rewrite E2. }
  assert (ES : innovation_covariance C Pf R = Ok S).
  { unfold innovation_covariance. rewrite E4; cbn [rbind]. now rewrite E5. }
  exists Pf, S. simpl in r2, c2, r4, c4.
  split; [exact EPf|]. split; [exact ES|].
  split; [congruence|]. split; [congruence|].
  intros Si ESi rS cS.
  destruct (dot_mv_vector_ok A xv) as (xf & E7 & l7); [congruence|].
  destruct (dot_mm_ok Knum Si) as (Kg & E8 & r8 & c8); [congruence|].
  destruct (dot_mv_vector_ok C xf) as (Cxf & E9 & l9); [congruence|].
  destruct (nd_broadcast_vectors_ok PrimFloat.sub zv Cxf) as (innov & E10 & l10);
    [congruence|].
  destruct (dot_mv_vector_ok Kg innov) as (Ki & E11 & l11); [congruence|].
  destruct (nd_broadcast_vectors_ok PrimFloat.add xf Ki) as (xh & E12 & l12);
    [congruence|].
  destruct (dot_mm_ok Kg C) as (KC & E13 & r13 & c13); [congruence|].
  destruct (broadcast2_same_shape PrimFloat.sub (eye (nrows Q)) KC)
    as (IKC & E14 & r14 & c14 & _); [simpl; congruence..|].
  destruct (dot_mm_ok IKC Pf) as (Pn & E15 & r15 & c15); [simpl in *; congruence|].
  exists xh, Pn.
  unfold discrete_KF_update, predict_state. cbn [eq_empty_list orb].
  rewrite E7; cbn [rbind nd_transpose]. rewrite EPf; cbn [rbind].
  rewrite E4; cbn [rbind]. rewrite ES; cbn [rbind]. rewrite ESi; cbn [rbind].
  rewrite E8; cbn [rbind]. rewrite E9; cbn [rbind].
  unfold nd_sub, nd_add, m_sub. rewrite E10; cbn [rbind]. rewrite E11; cbn [rbind].
  rewrite E12; cbn [rbind]. rewrite E13; cbn [rbind]. rewrite E14; cbn [rbind].
  rewrite E15; cbn [rbind].
  simpl in *. split; [reflexivity|].
  split; [congruence|]. split; congruence.
Qed.

Lemma KF_update_runs_on_vectors_witness :
  exists Pf S,
    predict_covariance (eye 2) (eye 2) (eye 2) = Ok Pf /\
    innovation_covariance (Mat 1 2 [1; 0]%float) Pf (Mat 1 1 [1]%float) = Ok S /\
    nrows S = 1 /\ ncols S = 1 /\
    forall Si, inv_gauss S = Ok Si -> nrows Si = 1 -> ncols Si = 1 ->
      exists xh Pnew,
        discrete_KF_update inv_gauss (Arr1 [1; 2]%float) PEmptyList
          (Some (Arr1 [1]%float)) (eye 2) PEmptyList
          (Mat 1 2 [1; 0]%float) (eye 2) (eye 2) (Mat 1 1 [1]%float)
        = Ok (Arr1 xh, Pnew) /\
        length xh = 2 /\ nrows Pnew = 2 /\ ncols Pnew = 2.
Proof.
  apply (KF_update_runs_on_vectors inv_gauss [1; 2]%float [1]%float
           (eye 2) (Mat 1 2 [1; 0]%float) (eye 2) (eye 2) (Mat 1 1 [1]%float));
    reflexivity.
Defined.

(** ** Further floating-point facts *)

Lemma SFmul_1_l (x : spec_float) :
  SpecFloat.valid_binary prec emax x = true ->
  SFmul prec emax (S754_finite false 4503599627370496 (-52)) x = x.
Proof.
  destruct x as [s|s| |s m e]; cbn [SFmul]; intros Hv.
  - now destruct s.
  - now destruct s.
  - reflexivity.
  - cbn [xorb].
    cbn [SpecFloat.valid_binary] in Hv. unfold bounded, canonical_mantissa in Hv.
    apply andb_true_iff in Hv as [Hc Hb]. apply Z.eqb_eq in Hc.
    unfold binary_round_aux, shr_fexp. cbn [Zdigits2].
    rewrite digits2_pos_shift52.
    replace (Z.pos (digits2_pos m) + 52 + (-52 + e))%Z
      with (Z.pos (digits2_pos m) + e)%Z by lia.
    rewrite Hc. replace (e - (-52 + e))%Z with 52%Z by lia.
    cbn [shr shr_record_of_loc]. rewrite iter_shr_52.
    cbn [shr_m loc_of_shr_record round_nearest_even Zdigits2].
    replace (-52 + e + 52)%Z with e by lia.
    rewrite Hc, Z.sub_diag. cbn [shr shr_m shr_record_of_loc].
    now rewrite Hb.
Qed.

Lemma float_mul_1_l (x : float) : (1 * x)%float = x.
Proof.
  apply Prim2SF_inj. rewrite FloatAxioms.mul_spec.
  change (Prim2SF 1) with (S754_finite false 4503599627370496 (-52)).
  apply SFmul_1_l. apply Prim2SF_valid.
Qed.

Lemma mul_zero_finite (z a : float) :
  is_zero z = true -> is_finite a = true -> is_zero (z * a) = true.
Proof.
  unfold is_finite. rewrite !is_zero_spec. intros [s Hz] Ha.
  rewrite FloatAxioms.mul_spec, Hz. unfold SF64mul.
  destruct (Prim2SF a) as [sa|sa| |sa m e]; try discriminate; cbn; eauto.
Qed.

Lemma add_zero_r (c z : float) :
  is_zero z = true -> is_zero c = false -> (c + z)%float = c.
Proof.
  intros Hz Hc. apply is_zero_spec in Hz as [s Hz].
  apply Prim2SF_inj. rewrite FloatAxioms.add_spec, Hz. unfold SF64add.
  destruct (Prim2SF c) as [sc|sc| |sc m e] eqn:E; try reflexivity.
  exfalso. assert (is_zero c = true) by (apply is_zero_spec; eauto). congruence.
Qed.

Lemma SFadd_opp_self (x : spec_float) :
  (exists s' m e, x = S754_finite s' m e) \/ (exists s', x = S754_zero s') ->
  exists s0, SFadd prec emax (SFopp x) x = S754_zero s0 /\
             SFsub prec emax x x = S754_zero s0.
Proof.
  intros [(s' & m & e & ->)|(s' & ->)].
  - cbn [SFopp SFadd SFsub]. rewrite Z.min_id.
    unfold shl_align. rewrite Z.sub_diag. cbn [fst].
    exists false. destruct s'; cbn [negb cond_Zopp Z.opp];
      rewrite ?Z.add_opp_diag_r, ?Z.add_opp_diag_l, ?Z.sub_diag;
      replace (Z.pos m + Z.neg m)%Z with 0%Z by lia;
      replace (Z.neg m + Z.pos m)%Z with 0%Z by lia;
      split; reflexivity.
  - destruct s'; cbn; eauto.
Qed.

(** ** The linear Kalman step without uncertainty *)

Lemma sub_finite_zero (a z : float) :
  is_finite a = true -> is_zero z = true -> is_finite (a - z) = true.
Proof.
  unfold is_finite. intros Ha [s Hz]%is_zero_spec.
  rewrite FloatAxioms.sub_spec, Hz. unfold SF64sub.
  destruct (Prim2SF a) as [sa|sa| |sa m e]; try discriminate; cbn; [|reflexivity].
  now destruct sa, s.
Qed.

Lemma fsum_zero_terms (f : nat -> float) (n : nat) :
  (forall k, k < n -> is_zero (f k) = true) ->
  is_zero (fsum (map f (seq 0 n))) = true.
Proof.
  intros Hf. unfold fsum. apply fold_add_zeros; [reflexivity|].
  apply List.Forall_forall. intros t Ht. apply in_map_iff in Ht as (k & <- & Hk).
  apply in_seq in Hk. apply Hf. lia.
Qed.

Lemma dot_mm_finite_zero (a z p : matrix) :
  finite_entries a -> zero_entries z -> dot_mm a z = Ok p -> zero_entries p.
Proof.
  intros Ha Hz H. pose proof (dot_mm_shape _ _ _ H) as (Hn & Hr & Hc).
  unfold dot_mm in H. rewrite Hn, Nat.eqb_refl in H. injection H as <-.
  intros i j Hi Hj. cbn [nrows ncols] in Hi, Hj. rewrite get_tabulate by assumption.
  rewrite <- Hn. apply fsum_zero_terms. intros k Hk.
  apply mul_finite_zero; [apply Ha; assumption | apply Hz; lia].
Qed.

Lemma dot_mm_zero_finite (z b p : matrix) :
  zero_entries z -> finite_entries b -> dot_mm z b = Ok p -> zero_entries p.
Proof.
  intros Hz Hb H. pose proof (dot_mm_shape _ _ _ H) as (Hn & Hr & Hc).
  unfold dot_mm in H. rewrite Hn, Nat.eqb_refl in H. injection H as <-.
  intros i j Hi Hj. cbn [nrows ncols] in Hi, Hj. rewrite get_tabulate by assumption.
  rewrite <- Hn. apply fsum_zero_terms. intros k Hk.
  apply mul_zero_finite; [apply Hz; assumption | apply Hb; lia].
Qed.

Lemma finite_entries_transpose (m : matrix) :
  finite_entries m -> finite_entries (transpose m).
Proof.
  intros Hm i j Hi Hj. unfold transpose in *. cbn [nrows ncols] in Hi, Hj.
  rewrite get_tabulate by assumption. now apply Hm.
Qed.

Lemma m_add_zero_entries (a b p : matrix) :
  nrows a = nrows b -> ncols a = ncols b ->
  zero_entries a -> zero_entries b -> m_add a b = Ok p -> zero_entries p.
Proof.
  intros Hr Hc Ha Hb H.
  destruct (broadcast2_same_shape PrimFloat.add a b Hr Hc) as (p' & E & Hr' & Hc' & Hg).
  unfold m_add in H. rewrite E in H. injection H as <-.
  intros i j Hi Hj. rewrite Hg by lia.
  apply add_zero_zero; [apply Ha | apply Hb]; lia.
Qed.

Lemma eye_entry_finite (n i j : nat) : is_finite (get (eye n) i j) = true.
Proof.
  unfold get. destruct (Nat.lt_ge_cases (i * ncols (eye n) + j) (length (mdata (eye n))))
    as [Hlt|Hge]; [|now rewrite nth_overflow].
  apply nth_In with (d := 0%float) in Hlt.
  revert Hlt. generalize (nth (i * ncols (eye n) + j) (mdata (eye n)) 0%float).
  intros a Ha. unfold eye, tabulate in Ha. cbn [mdata] in Ha.
  apply in_flat_map in Ha as (i' & _ & Ha). apply in_map_iff in Ha as (j' & <- & _).
  now destruct (i' =? j').
Qed.

Lemma bdim_index_r (a b r i : nat) :
  bdim a b = Some r -> i < r -> (if b =? 1 then 0 else i) < b.
Proof.
  unfold bdim. intros H Hi.
  destruct (Nat.eqb_spec b 1) as [->|Hb]; [lia|].
  destruct (Nat.eqb_spec a b) as [->|Hab]; [injection H as <-; lia|].
  destruct (a =? 1); [injection H as <-; lia | discriminate].
Qed.

Lemma finite_entries_of_matrix (m : matrix) :
  wf_matrix m -> finite_matrix m = true -> finite_entries m.
Proof. intros Hwf Hfin i j Hi Hj. now apply get_finite. Qed.

Lemma zero_entries_of_matrix (m : matrix) :
  wf_matrix m -> zero_matrix m = true -> zero_entries m.
Proof.
  unfold wf_matrix, zero_matrix, get. intros Hwf Hz i j Hi Hj.
  rewrite forallb_forall in Hz. apply Hz. apply nth_In. nia.
Qed.

(** X6: a covariance of zeros stays a covariance of zeros when there is no
    process noise.  With P and Q arrays of zeros, A square and finite, Q of
    the shape of A, and C finite, the predicted covariance and the covariance
    that discrete_KF_update returns after a measurement update are arrays of
    zeros, whatever x, u, z and R, as long as the inverse of the innovation
    covariance is finite. *)
Theorem KF_zero_covariance_stays_zero
    (inv : matrix -> result matrix) (x : ndarray) (u : pyarg ndarray) (z : ndarray)
    (A : matrix) (B : pyarg matrix) (C P Q R Pf S Si : matrix)
    (xhat : ndarray) (Pnew : matrix) :
  wf_matrix A -> finite_matrix A = true -> wf_matrix C -> finite_matrix C = true ->
  nrows A = ncols A -> nrows Q = nrows A -> ncols Q = ncols A ->
  wf_matrix P -> zero_matrix P = true -> wf_matrix Q -> zero_matrix Q = true ->
  predict_covariance A P Q = Ok Pf ->
  innovation_covariance C Pf R = Ok S ->
  inv S = Ok Si -> wf_matrix Si -> finite_matrix Si = true ->
  discrete_KF_update inv x u (Some z) A B C P Q R = Ok (xhat, Pnew) ->
  zero_entries Pf /\ zero_entries Pnew.
Proof.
  intros wA fA wC fC HAsq HrQ HcQ wP zP wQ zQ EPf ES ESi wSi fSi H.
  pose proof (finite_entries_of_matrix A wA fA) as HA.
  pose proof (finite_entries_of_matrix C wC fC) as HC.
  pose proof (finite_entries_of_matrix Si wSi fSi) as HSi.
  pose proof (zero_entries_of_matrix P wP zP) as HP.
  pose proof (zero_entries_of_matrix Q wQ zQ) as HQ.
  assert (HPf : zero_entries Pf).
  { unfold predict_covariance in EPf.
    apply rbind_ok in EPf as (AP & E1 & EPf).
    apply rbind_ok in EPf as (APAt & E2 & E3).
    pose proof (dot_mm_shape _ _ _ E1) as (_ & r1 & c1).
    pose proof (dot_mm_shape _ _ _ E2) as (_ & r2 & c2). cbn [ncols transpose tabulate] in c2.
    eapply m_add_zero_entries; [| | |exact HQ|exact E3]; [congruence|congruence|].
    eapply dot_mm_zero_finite; [|apply finite_entries_transpose; exact HA|exact E2].
    eapply dot_mm_finite_zero; [exact HA|exact HP|exact E1]. }
  split; [exact HPf|].
  unfold discrete_KF_update in H.
  apply rbind_ok in H as (xf & _ & H). rewrite EPf in H. cbn [rbind] in H.
  apply rbind_ok in H as (Knum & EK & H). rewrite ES in H. cbn [rbind] in H.
  rewrite ESi in H. cbn [rbind] in H.
  apply rbind_ok in H as (K & EKg & H).
  do 4 (apply rbind_ok in H as (? & _ & H)).
  apply rbind_ok in H as (KC & EKC & H).
  apply rbind_ok in H as (IKC & EI & H).
  apply rbind_ok in H as (Pn & EPn & [= _ <-]).
  assert (HKnum : zero_entries Knum).
  { eapply dot_mm_zero_finite; [exact HPf|apply finite_entries_transpose; exact HC|exact EK]. }
  assert (HK : zero_entries K).
  { eapply dot_mm_zero_finite; [exact HKnum|exact HSi|exact EKg]. }
  assert (HKC : zero_entries KC).
  { eapply dot_mm_zero_finite; [exact HK|exact HC|exact EKC]. }
  eapply dot_mm_finite_zero; [|exact HPf|exact EPn].
  pose proof (dot_mm_shape _ _ _ EPn) as (HnI & _ & _).
  pose proof (dot_mm_shape _ _ _ EKC) as (_ & rKC & cKC).
  pose proof (broadcast2_shape _ _ _ _ EI) as (HbR & HbC).
  intros i j Hi Hj.
  unfold m_sub, broadcast2 in EI. rewrite HbR, HbC in EI. injection EI as <-.
  cbn [nrows ncols tabulate] in Hi, Hj, HbR, HbC. rewrite get_tabulate by assumption.
  apply sub_finite_zero; [apply eye_entry_finite|].
  apply HKC; [eapply bdim_index_r; [exact HbR | exact Hi]
             | eapply bdim_index_r; [exact HbC | exact Hj]].
Qed.

Lemma KF_zero_covariance_stays_zero_witness :
  let A := Mat 2 2 [1; 0.5; 0; 1]%float in
  let C := Mat 1 2 [1; 0]%float in
  let R := Mat 1 1 [0.25]%float in
  exists xhat Pnew,
    discrete_KF_update inv_gauss (Arr1 [1; 2]%float) PEmptyList (Some (Arr1 [5]%float))
      A PEmptyList C (zeros 2 2) (zeros 2 2) R = Ok (xhat, Pnew) /\
    zero_entries Pnew.
Proof.
  intros A C R.
  destruct (discrete_KF_update inv_gauss (Arr1 [1; 2]%float) PEmptyList
              (Some (Arr1 [5]%float)) A PEmptyList C (zeros 2 2) (zeros 2 2) R)
    as [[xhat Pnew]|e] eqn:E; [|vm_compute in E; discriminate E].
  exists xhat, Pnew. split; [reflexivity|].
  eapply (KF_zero_covariance_stays_zero inv_gauss (Arr1 [1; 2]%float) PEmptyList
            (Arr1 [5]%float) A PEmptyList C (zeros 2 2) (zeros 2 2) R).
  17: exact E.
  - reflexivity.
  - reflexivity.
  - reflexivity.
  - reflexivity.
  - reflexivity.
  - reflexivity.
  - reflexivity.
  - reflexivity.
  - reflexivity.
  - reflexivity.
  - reflexivity.
  - vm_compute; reflexivity.
  - vm_compute; reflexivity.
  - vm_compute; reflexivity.
  - reflexivity.
  - reflexivity.
Defined.

(** ** The asynchronous step: short histories, failures and the generator *)

Lemma broadcast_to_row_err (k : nat) (z : ndarray) (e : exn) :
  broadcast_to_row k z = Err e -> e = ValueError.
Proof.
  destruct z as [v|mz]; unfold broadcast_to_row.
  - destruct (length v =? k); [discriminate|].
    destruct (length v =? 1); [discriminate|]. now intros [= <-].
  - destruct (nrows mz =? 1); [|now intros [= <-]].
    destruct (length (row mz 0) =? k); [discriminate|].
    destruct (length (row mz 0) =? 1); [discriminate|]. now intros [= <-].
Qed.

(** The linear step on vectors of fitting lengths returns, or raises what
    the inverse raised. *)
Lemma KF_update_vectors_or_inverse
    (inv : matrix -> result matrix) (xv zv : list float) (A C P Q R : matrix)
    (M K : nat) :
  length xv = M -> length zv = K ->
  nrows A = M -> ncols A = M -> nrows C = K -> ncols C = M ->
  nrows P = M -> ncols P = M -> nrows Q = M -> ncols Q = M ->
  nrows R = K -> ncols R = K ->
  (forall S Si, nrows S = K -> ncols S = K -> inv S = Ok Si ->
                nrows Si = K /\ ncols Si = K) ->
  exists r,
    discrete_KF_update inv (Arr1 xv) PEmptyList (Some (Arr1 zv)) A PEmptyList C P Q R
    = r /\
    ((exists xh Pn, r = Ok (Arr1 xh, Pn) /\
        length xh = M /\ nrows Pn = M /\ ncols Pn = M)
     \/ (exists S e, nrows S = K /\ ncols S = K /\ inv S = Err e /\ r = Err e)).
Proof.
  intros Hx Hz HrA HcA HrC HcC HrP HcP HrQ HcQ HrR HcR Hinv.
  destruct (dot_mm_ok A P) as (AP & E1 & r1 & c1); [congruence|].
  destruct (dot_mm_ok AP (transpose A)) as (APAt & E2 & r2 & c2);
    [simpl; congruence|].
  destruct (broadcast2_same_shape PrimFloat.add APAt Q) as (Pf & E3 & r3 & c3 & _);
    [simpl in *; congruence..|].
  destruct (dot_mm_ok Pf (transpose C)) as (Knum & E4 & r4 & c4);
    [simpl in *; congruence|].
  destruct (dot_mm_ok C Knum) as (CK & E5 & r5 & c5); [simpl in *; congruence|].
  destruct (broadcast2_same_shape PrimFloat.add CK R) as (S & E6 & r6 & c6 & _);
    [simpl in *; congruence..|].
  assert (EPf : predict_covariance A P Q = Ok Pf).
  { unfold predict_covariance. rewrite E1; cbn [rbind]. now rewrite E2. }
  assert (ES : innovation_covariance C Pf R = Ok S).
  { unfold innovation_covariance. rewrite E4; cbn [rbind]. now rewrite E5. }
  simpl in r2, c2, r4, c4.
  destruct (dot_mv_vector_ok A xv) as (xf & E7 & l7); [congruence|].
  unfold discrete_KF_update, predict_state. cbn [eq_empty_list orb].
  rewrite E7; cbn [rbind nd_transpose]. rewrite EPf; cbn [rbind].
  rewrite E4; cbn [rbind]. rewrite ES; cbn [rbind].
  destruct (inv S) as [Si|e] eqn:ESi; cbn [rbind].
  2:{ eexists. split; [reflexivity|]. right. exists S, e.
      repeat split; congruence. }
  destruct (Hinv S Si) as [rS cS]; [congruence | congruence | exact ESi |].
  destruct (dot_mm_ok Knum Si) as (Kg & E8 & r8 & c8); [congruence|].
  destruct (dot_mv_vector_ok C xf) as (Cxf & E9 & l9); [congruence|].
  destruct (nd_broadcast_vectors_ok PrimFloat.sub zv Cxf) as (innov & E10 & l10);
    [congruence|].
  destruct (dot_mv_vector_ok Kg innov) as (Ki & E11 & l11); [congruence|].
  destruct (nd_broadcast_vectors_ok PrimFloat.add xf Ki) as (xh & E12 & l12);
    [congruence|].
  destruct (dot_mm_ok Kg C) as (KC & E13 & r13 & c13); [congruence|].
  destruct (broadcast2_same_shape PrimFloat.sub (eye (nrows Q)) KC)
    as (IKC & E14 & r14 & c14 & _); [simpl; congruence..|].
  destruct (dot_mm_ok IKC Pf) as (Pn & E15 & r15 & c15); [simpl in *; congruence|].
  rewrite E8; cbn [rbind]. rewrite E9; cbn [rbind].
  unfold nd_sub, nd_add, m_sub. rewrite E10; cbn [rbind]. rewrite E11; cbn [rbind].
  rewrite E12; cbn [rbind]. rewrite E13; cbn [rbind]. rewrite E14; cbn [rbind].
  rewrite E15; cbn [rbind].
  eexists. split; [reflexivity|]. left. exists xh, Pn.
  simpl in *. split; [reflexivity|].
  split; [congruence|]. split; congruence.
Qed.

Section AsynchronousEdges.

Context {rng_state : Type}.
Variable randn : rng_state -> float * rng_state.
Variable inv : matrix -> result matrix.

Implicit Types (w : world rng_state) (zhist : loc) (m : matrix).

(** The asynchronous step on a history [m0] that has a row for [z]. *)
Lemma discrete_AKF_update_rows x u z zhist A B C P Q R trajectory t Ts w m0 zv :
  heap w !! zhist = Some m0 -> 0 < nrows m0 ->
  row_for (ncols m0) z = Ok zv ->
  discrete_AKF_update rng_state randn inv x u z zhist A B C P Q R
    trajectory t Ts w
  = let m1 := set_row (shift_rows m0) (nrows m0 - 1) zv in
    let w1 := World (<[zhist := m1]> (heap w)) (rng w) in
    if 0 <? ncols m0 then
      if PrimFloat.is_nan (get m1 0 0) then (Ok (x, x, P, zhist), w1)
      else
        match discrete_KF_update inv x u (Some (Arr1 zv)) A B C P Q R with
        | Ok (xhat, P') =>
            match akf_forward rng_state randn inv (seq 0 (nrows m0 - 1)) u zhist
                    A B C Q R trajectory t Ts xhat P' w1 with
            | (Ok (xpred, _), w') => (Ok (xhat, xpred, P', zhist), w')
            | (Err e, w') => (Err e, w')
            end
        | Err e => (Err e, w1)
        end
    else (Err IndexError, w1).
Proof.
  intros Hm0 Hpos Hzv. cbn zeta. unfold discrete_AKF_update.
  unfold sbind at 1. rewrite (zhist_shift_insert_eq _ _ _ _ Hm0). cbn zeta.
  destruct (nrows m0) as [|n] eqn:Hn; [lia|]. rewrite Hzv.
  replace (S n - 1) with n by lia.
  set (m1 := set_row (shift_rows m0) n zv).
  set (w1 := World (<[zhist := m1]> (heap w)) (rng w)).
  assert (Hm1 : heap w1 !! zhist = Some m1) by (cbn [heap w1]; apply lookup_insert_eq).
  assert (Hr1 : nrows m1 = S n) by (cbn; assumption).
  assert (Hc1 : ncols m1 = ncols m0) by reflexivity.
  unfold sbind at 1. rewrite (zhist_entry_eq _ _ _ _ _ Hm1), Hr1, Hc1.
  change (0 <? S n) with true. cbn [andb].
  destruct (0 <? ncols m0); [|reflexivity].
  destruct (PrimFloat.is_nan (get m1 0 0)); [reflexivity|].
  unfold sbind at 1. rewrite (ndlen_eq _ _ _ Hm1), Hr1.
  unfold sbind at 1. rewrite (zhist_row_eq _ _ _ _ Hm1), Hr1.
  replace (S n - 1) with n by lia.
  replace (n <? S n) with true by (symmetry; apply Nat.ltb_lt; lia).
  assert (Hrow : row m1 n = zv).
  { pose proof (row_of_inserted m0 zv) as Hrow. rewrite Hn in Hrow.
    replace (S n - 1) with n in Hrow by lia.
    apply Hrow; [lia | now apply row_for_length in Hzv]. }
  rewrite Hrow. unfold sbind at 1, lift.
  destruct (discrete_KF_update _ _ _ _ _ _ _ _ _ _) as [[xhat P']|e]; [|reflexivity].
  unfold sbind at 1. rewrite (ndlen_eq _ _ _ Hm1), Hr1.
  replace (S n - 1) with n by lia.
  unfold sbind at 1.
  destruct (akf_forward _ _ _ _ _ _ _ _ _ _ _ _ _ _ _ _ _) as [[[xpred Ppred]|e] w'];
    reflexivity.
Qed.

(** The same for a measurement that is an array. *)
Lemma discrete_AKF_update_eq x u z' zhist A B C P Q R trajectory t Ts w m0 zv :
  heap w !! zhist = Some m0 -> 0 < nrows m0 ->
  broadcast_to_row (ncols m0) z' = Ok zv ->
  discrete_AKF_update rng_state randn inv x u (Some z') zhist A B C P Q R
    trajectory t Ts w
  = let m1 := set_row (shift_rows m0) (nrows m0 - 1) zv in
    let w1 := World (<[zhist := m1]> (heap w)) (rng w) in
    if 0 <? ncols m0 then
      if PrimFloat.is_nan (get m1 0 0) then (Ok (x, x, P, zhist), w1)
      else
        match discrete_KF_update inv x u (Some (Arr1 zv)) A B C P Q R with
        | Ok (xhat, P') =>
            match akf_forward rng_state randn inv (seq 0 (nrows m0 - 1)) u zhist
                    A B C Q R trajectory t Ts xhat P' w1 with
            | (Ok (xpred, _), w') => (Ok (xhat, xpred, P', zhist), w')
            | (Err e, w') => (Err e, w')
            end
        | Err e => (Err e, w1)
        end
    else (Err IndexError, w1).
Proof.
  intros Hm0 Hpos Hzv.
  exact (discrete_AKF_update_rows x u (Some z') zhist A B C P Q R trajectory t Ts
           w m0 zv Hm0 Hpos Hzv).
Qed.

Lemma shift_rows_entries m0 i j :
  S i < nrows m0 -> j < ncols m0 -> get (shift_rows m0) i j = get m0 (S i) j.
Proof.
  intros Hi Hj. unfold shift_rows. rewrite get_tabulate by lia.
  now replace (S i <? nrows m0) with true by (symmetry; apply Nat.ltb_lt; lia).
Qed.

Lemma akf_forward_rng iis u zhist A B C Q R trajectory t Ts :
  forall xpred Ppred w m r w',
    heap w !! zhist = Some m ->
    akf_forward rng_state randn inv iis u zhist A B C Q R trajectory t Ts
      xpred Ppred w = (Ok r, w') ->
    rng w' = advance randn (rng w) (length iis).
Proof.
  induction iis as [|ii rest IH]; intros xpred Ppred w m r w' Hm H.
  - cbn in H. injection H as _ <-. reflexivity.
  - rewrite (akf_forward_cons _ _ _ _ _ _ _ _ _ _ _ _ _ _ _ _ _ _ Hm) in H.
    cbn zeta in H. destruct (index11 R) as [R11|]; [|discriminate].
    destruct ((ii + 1 <? nrows m) && (1 <? ncols m)); [|discriminate].
    destruct (discrete_KF_update _ _ _ _ _ _ _ _ _ _) as [[xpred' Ppred']|];
      [|discriminate].
    eapply IH in H; [|cbn [heap]; apply lookup_insert_eq].
    exact H.
Qed.

(** X7: with a history of one slot, discrete_AKF_update is the linear Kalman
    step on z: the slot takes z, the forward loop does not run, so that
    x_pred is x-hat and no random sample is drawn; when entry 0 of z is NaN
    the inputs come back.  An exception of the linear step is raised after
    z has been stored. *)
Theorem AKF_history_of_one
    (x : ndarray) (u : pyarg ndarray) (z' : ndarray) (zhist : loc)
    (A : matrix) (B : pyarg matrix) (C P Q R : matrix)
    (trajectory : float -> float) (t Ts : float)
    (w : world rng_state) (m0 : matrix) (zv : list float) :
  heap w !! zhist = Some m0 -> nrows m0 = 1 -> 0 < ncols m0 ->
  broadcast_to_row (ncols m0) z' = Ok zv ->
  let m1 := set_row (shift_rows m0) 0 zv in
  row m1 0 = zv /\
  discrete_AKF_update rng_state randn inv x u (Some z') zhist A B C P Q R
    trajectory t Ts w
  = (if PrimFloat.is_nan (nth 0 zv 0%float) then Ok (x, x, P, zhist)
     else match discrete_KF_update inv x u (Some (Arr1 zv)) A B C P Q R with
          | Ok (xhat, P') => Ok (xhat, xhat, P', zhist)
          | Err e => Err e
          end,
     World (<[zhist := m1]> (heap w)) (rng w)).
Proof.
  intros Hm0 HW HK Hzv m1.
  pose proof (row_of_inserted m0 zv) as Hrow.
  pose proof (shifted_history_entries m0 zv 0 0) as Hhead.
  rewrite (discrete_AKF_update_eq _ _ _ _ _ _ _ _ _ _ _ _ _ _ _ _ Hm0 ltac:(lia) Hzv).
  rewrite HW in *. cbn [Nat.sub] in *. cbn zeta. fold m1 in Hrow, Hhead |- *.
  split; [apply Hrow; [lia | now apply broadcast_to_row_length in Hzv]|].
  replace (0 <? ncols m0) with true by (symmetry; apply Nat.ltb_lt; lia).
  rewrite Hhead by lia. cbn [Nat.eqb seq].
  destruct (PrimFloat.is_nan (nth 0 zv 0%float)); [reflexivity|].
  destruct (discrete_KF_update _ _ _ _ _ _ _ _ _ _) as [[xhat P']|e]; reflexivity.
Qed.

(** X8: whatever the outcome of discrete_AKF_update, also when it raises, the
    history it was given has been shifted: row i of the history after the
    call holds what row i+1 held before it (but for entry 1 of the rows after
    the first, which the forward loop may have overwritten), so the oldest
    measurement is lost even when the call fails. *)
Theorem AKF_shifts_history_whatever_the_outcome
    (x : ndarray) (u : pyarg ndarray) (z : option ndarray) (zhist : loc)
    (A : matrix) (B : pyarg matrix) (C P Q R : matrix)
    (trajectory : float -> float) (t Ts : float)
    (w w' : world rng_state) (m0 : matrix)
    (r : result (ndarray * ndarray * matrix * loc)) :
  heap w !! zhist = Some m0 ->
  discrete_AKF_update rng_state randn inv x u z zhist A B C P Q R trajectory t Ts w
  = (r, w') ->
  exists m',
    heap w' !! zhist = Some m' /\ nrows m' = nrows m0 /\ ncols m' = ncols m0 /\
    forall i j, S i < nrows m0 -> j < ncols m0 -> i = 0 \/ j <> 1 ->
                get m' i j = get m0 (S i) j.
Proof.
  intros Hm0 H.
  assert (Hshift : forall e,
             (Err e, World (<[zhist := shift_rows m0]> (heap w)) (rng w)) = (r, w') ->
             exists m',
               heap w' !! zhist = Some m' /\ nrows m' = nrows m0 /\ ncols m' = ncols m0 /\
               forall i j, S i < nrows m0 -> j < ncols m0 -> i = 0 \/ j <> 1 ->
                           get m' i j = get m0 (S i) j).
  { intros e [= _ <-]. exists (shift_rows m0). cbn [heap].
    split; [apply lookup_insert_eq|]. split; [reflexivity|]. split; [reflexivity|].
    intros i j Hi Hj _. now apply shift_rows_entries. }
  destruct (Nat.eq_dec (nrows m0) 0) as [HW|HW].
  { unfold discrete_AKF_update, sbind at 1 in H.
    rewrite (zhist_shift_insert_eq _ _ _ _ Hm0), HW in H. cbv zeta iota beta in H.
    eauto. }
  destruct (row_for (ncols m0) z) as [zv|e] eqn:Hzv.
  2:{ unfold discrete_AKF_update, sbind at 1 in H.
      rewrite (zhist_shift_insert_eq _ _ _ _ Hm0), Hzv in H.
      destruct (nrows m0); [lia|]. cbv zeta iota beta in H. eauto. }
  rewrite (discrete_AKF_update_rows _ _ _ _ _ _ _ _ _ _ _ _ _ _ _ _ Hm0 ltac:(lia) Hzv) in H.
  cbn zeta in H.
  set (m1 := set_row (shift_rows m0) (nrows m0 - 1) zv) in *.
  set (w1 := World (<[zhist := m1]> (heap w)) (rng w)) in *.
  assert (Hm1 : heap w1 !! zhist = Some m1) by (cbn [heap w1]; apply lookup_insert_eq).
  assert (Hent : forall i j, S i < nrows m0 -> j < ncols m0 ->
                             get m1 i j = get m0 (S i) j).
  { intros i j Hi Hj. unfold m1. rewrite shifted_history_entries by lia.
    now replace (i =? nrows m0 - 1) with false by (symmetry; apply Nat.eqb_neq; lia). }
  assert (Hw1 : forall r0, (r0, w1) = (r, w') ->
             exists m',
               heap w' !! zhist = Some m' /\ nrows m' = nrows m0 /\ ncols m' = ncols m0 /\
               forall i j, S i < nrows m0 -> j < ncols m0 -> i = 0 \/ j <> 1 ->
                           get m' i j = get m0 (S i) j).
  { intros r0 [= _ <-]. exists m1. split; [exact Hm1|].
    split; [reflexivity|]. split; [reflexivity|]. intros i j Hi Hj _. now apply Hent. }
  destruct (0 <? ncols m0); [|eauto].
  destruct (PrimFloat.is_nan (get m1 0 0)); [eauto|].
  destruct (discrete_KF_update _ _ _ _ _ _ _ _ _ _) as [[xhat P']|e]; [|eauto].
  destruct (akf_forward _ _ _ _ _ _ _ _ _ _ _ _ _ _ _ _ _) as [rf wf] eqn:HF.
  apply (akf_forward_history randn inv) with (m := m1) in HF as (_ & m' & Hm' & Hr & Hc & Ha);
    [|exact Hm1].
  assert (w' = wf) as -> by (destruct rf as [[xpred Ppred]|e]; now injection H).
  exists m'. split; [exact Hm'|]. split; [exact Hr|]. split; [exact Hc|].
  intros i j Hi Hj Hij. rewrite Ha; [now apply Hent | cbn; lia | exact Hj | exact Hij].
Qed.

(** X9: a call of discrete_AKF_update that returns has drawn one sample of
    NumPy's global generator for each slot of the history but one, and none
    when the head of the history is missing. *)
Theorem AKF_draws_one_sample_per_slot
    (x : ndarray) (u : pyarg ndarray) (z : option ndarray) (zhist : loc)
    (A : matrix) (B : pyarg matrix) (C P Q R : matrix)
    (trajectory : float -> float) (t Ts : float)
    (w w' : world rng_state) (xhat xpred : ndarray) (P' : matrix) (l : loc) :
  discrete_AKF_update rng_state randn inv x u z zhist A B C P Q R trajectory t Ts w
  = (Ok (xhat, xpred, P', l), w') ->
  exists m0 zv,
    heap w !! zhist = Some m0 /\
    row_for (ncols m0) z = Ok zv /\
    rng w' = if PrimFloat.is_nan (get (set_row (shift_rows m0) (nrows m0 - 1) zv) 0 0)
             then rng w
             else advance randn (rng w) (nrows m0 - 1).
Proof.
  intros H. apply discrete_AKF_update_returns in H
    as (m0 & zv & Hm0 & Hzv & _ & Hpos & Hcases).
  exists m0, zv. split; [exact Hm0|]. split; [exact Hzv|].
  destruct Hcases as [(-> & _ & _ & _ & ->) | (-> & _ & Ppred & HF)]; [reflexivity|].
  eapply akf_forward_rng in HF; [|cbn [heap]; apply lookup_insert_eq].
  now rewrite length_seq in HF.
Qed.

(** X10: the forward loop writes entry 1 of a history row and reads R[1,1].
    With a history of two slots or more whose head is not missing, a call
    whose linear step on z succeeds raises IndexError when the measurements
    have fewer than two entries or R is smaller than 2 x 2, after it has
    stored z and drawn one random sample. *)
Theorem AKF_forward_loop_needs_two_entries
    (x : ndarray) (u : pyarg ndarray) (z' : ndarray) (zhist : loc)
    (A : matrix) (B : pyarg matrix) (C P Q R : matrix)
    (trajectory : float -> float) (t Ts : float)
    (w : world rng_state) (m0 : matrix) (zv : list float)
    (xhat : ndarray) (P' : matrix) :
  heap w !! zhist = Some m0 -> 2 <= nrows m0 -> 0 < ncols m0 ->
  broadcast_to_row (ncols m0) z' = Ok zv ->
  let m1 := set_row (shift_rows m0) (nrows m0 - 1) zv in
  PrimFloat.is_nan (get m1 0 0) = false ->
  discrete_KF_update inv x u (Some (Arr1 zv)) A B C P Q R = Ok (xhat, P') ->
  ncols m0 < 2 \/ nrows R < 2 \/ ncols R < 2 ->
  discrete_AKF_update rng_state randn inv x u (Some z') zhist A B C P Q R
    trajectory t Ts w
  = (Err IndexError, World (<[zhist := m1]> (heap w)) (snd (randn (rng w)))).
Proof.
  intros Hm0 HW HK Hzv m1 Hnan HKF Hsmall.
  rewrite (discrete_AKF_update_eq _ _ _ _ _ _ _ _ _ _ _ _ _ _ _ _ Hm0 ltac:(lia) Hzv).
  cbn zeta. fold m1.
  replace (0 <? ncols m0) with true by (symmetry; apply Nat.ltb_lt; lia).
  rewrite Hnan, HKF.
  destruct (nrows m0 - 1) as [|n] eqn:Hn; [lia|]. cbn [seq].
  erewrite akf_forward_cons by (cbn [heap]; apply lookup_insert_eq).
  cbn zeta. cbn [heap rng]. unfold index11.
  destruct ((1 <? nrows R) && (1 <? ncols R)) eqn:HR; [|reflexivity].
  apply andb_true_iff in HR as [HR1 HR2].
  apply Nat.ltb_lt in HR1, HR2.
  replace (1 <? ncols m1) with false
    by (symmetry; apply Nat.ltb_ge; cbn; lia).
  now rewrite andb_false_r.
Qed.

(** The forward loop on vectors of fitting lengths. *)
Lemma akf_forward_runs zhist (A C Q R : matrix) trajectory t Ts (M K W : nat) :
  nrows A = M -> ncols A = M -> nrows C = K -> ncols C = M ->
  nrows Q = M -> ncols Q = M -> nrows R = K -> ncols R = K -> 2 <= K ->
  (forall S Si, nrows S = K -> ncols S = K -> inv S = Ok Si ->
                nrows Si = K /\ ncols Si = K) ->
  forall n a xp Pp w m,
    heap w !! zhist = Some m -> nrows m = W -> ncols m = K -> a + n < W ->
    length xp = M -> nrows Pp = M -> ncols Pp = M ->
    exists r w',
      akf_forward rng_state randn inv (seq a n) PEmptyList zhist A PEmptyList C Q R
        trajectory t Ts (Arr1 xp) Pp w = (r, w') /\
      ((exists xp' Pp', r = Ok (Arr1 xp', Pp') /\ length xp' = M)
       \/ (exists S e, nrows S = K /\ ncols S = K /\ inv S = Err e /\ r = Err e)).
Proof.
  intros HrA HcA HrC HcC HrQ HcQ HrR HcR HK Hinv.
  induction n as [|n IH]; intros a xp Pp w m Hm HW Hc Ha Hx HrP HcP.
  - cbn. eexists _, _. split; [reflexivity|]. left. eauto.
  - cbn [seq]. rewrite (akf_forward_cons _ _ _ _ _ _ _ _ _ _ _ _ _ _ _ _ _ _ Hm).
    cbn zeta. unfold index11.
    replace ((1 <? nrows R) && (1 <? ncols R)) with true
      by (symmetry; apply andb_true_iff; split; apply Nat.ltb_lt; lia).
    replace ((a + 1 <? nrows m) && (1 <? ncols m)) with true
      by (symmetry; apply andb_true_iff; split; apply Nat.ltb_lt; lia).
    match goal with
    | |- context [discrete_KF_update inv (Arr1 xp) PEmptyList (Some (Arr1 ?zv))] =>
        destruct (KF_update_vectors_or_inverse inv xp zv A C Pp Q R M K)
          as (r & -> & [(xh & Pn & -> & Hxh & HrPn & HcPn)|(S & e & HrS & HcS & HS & ->)]);
        try assumption
    end.
    + unfold row. rewrite length_map, length_seq. cbn. exact Hc.
    + eapply (IH (S a) xh Pn);
        [cbn [heap]; apply lookup_insert_eq | cbn; exact HW | cbn; exact Hc | lia
        | exact Hxh | exact HrPn | exact HcPn].
    + eexists _, _. split; [reflexivity|]. right. exists S, e. auto.
Qed.

(** X11: on one-dimensional vectors of fitting lengths discrete_AKF_update
    runs, and only the matrix inverse can make it fail.  For a history of W
    slots (W at least 1) of K entries (K at least 2) whose head is not
    missing after z was inserted, a state of length M, A, P, Q of shape
    (M,M), C of shape (K,M), R of shape (K,K), no control signal, and an
    inverse that keeps the shape of a (K,K) matrix: the call returns states
    x-hat and x_pred of length M and the history it was given, or it raises
    what the inverse raised on a (K,K) matrix. *)
Theorem AKF_update_runs_on_vectors
    (xv : list float) (z' : ndarray) (zhist : loc) (A C P Q R : matrix)
    (trajectory : float -> float) (t Ts : float)
    (w : world rng_state) (m0 : matrix) (zv : list float) :
  let M := length xv in
  let K := ncols m0 in
  heap w !! zhist = Some m0 -> 1 <= nrows m0 -> 2 <= K ->
  broadcast_to_row K z' = Ok zv ->
  PrimFloat.is_nan (get (set_row (shift_rows m0) (nrows m0 - 1) zv) 0 0) = false ->
  nrows A = M -> ncols A = M -> nrows C = K -> ncols C = M ->
  nrows P = M -> ncols P = M -> nrows Q = M -> ncols Q = M ->
  nrows R = K -> ncols R = K ->
  (forall S Si, nrows S = K -> ncols S = K -> inv S = Ok Si ->
                nrows Si = K /\ ncols Si = K) ->
  exists r w',
    discrete_AKF_update rng_state randn inv (Arr1 xv) PEmptyList (Some z') zhist
      A PEmptyList C P Q R trajectory t Ts w = (r, w') /\
    ((exists xh xp P', r = Ok (Arr1 xh, Arr1 xp, P', zhist) /\
        length xh = M /\ length xp = M /\ nrows P' = M /\ ncols P' = M)
     \/ (exists S e, nrows S = K /\ ncols S = K /\ inv S = Err e /\ r = Err e)).
Proof.
  intros M K Hm0 HW HK Hzv Hnan HrA HcA HrC HcC HrP HcP HrQ HcQ HrR HcR Hinv.
  rewrite (discrete_AKF_update_eq _ _ _ _ _ _ _ _ _ _ _ _ _ _ _ _ Hm0 ltac:(lia) Hzv).
  cbn zeta. fold K.
  replace (0 <? K) with true by (symmetry; apply Nat.ltb_lt; lia).
  rewrite Hnan.
  destruct (KF_update_vectors_or_inverse inv xv zv A C P Q R M K)
    as (r & -> & [(xh & Pn & -> & Hxh & HrPn & HcPn)|(S & e & HrS & HcS & HS & ->)]);
    try assumption; try reflexivity.
  - now apply broadcast_to_row_length in Hzv.
  - set (m1 := set_row (shift_rows m0) (nrows m0 - 1) zv).
    set (w1 := World (<[zhist := m1]> (heap w)) (rng w)).
    destruct (akf_forward_runs zhist A C Q R trajectory t Ts M K (nrows m0)
                HrA HcA HrC HcC HrQ HcQ HrR HcR HK Hinv
                (nrows m0 - 1) 0 xh Pn w1 m1)
      as (r & w' & -> & [(xp & Pp & -> & Hxp)|(S & e & HrS & HcS & HS & ->)]);
      [cbn [heap w1]; apply lookup_insert_eq | reflexivity | reflexivity | lia
      | exact Hxh | exact HrPn | exact HcPn | |].
    + eexists _, _. split; [reflexivity|]. left. exists xh, xp, Pn. auto.
    + eexists _, _. split; [reflexivity|]. right. exists S, e. auto.
  - eexists _, _. split; [reflexivity|]. right. exists S, e. auto.
Qed.

End AsynchronousEdges.

Lemma AKF_history_of_one_witness :
  let w := World ({[ 7 := Mat 1 2 [5; 5]%float ]} : gmap loc matrix) [1%float] in
  discrete_AKF_update (list float) randn_list inv_gauss
    (Arr1 [0; 0]%float) PEmptyList (Some (Arr1 [3; 3]%float)) 7
    (eye 2) PEmptyList (eye 2) (eye 2) (eye 2) (eye 2)
    (fun _ => 0%float) 0%float 0.01%float w
  = (Ok (Arr1 [2; 2]%float, Arr1 [2; 2]%float,
         Mat 2 2 [0.66666666666666674; 0; 0; 0.66666666666666674]%float, 7),
     World ({[ 7 := Mat 1 2 [3; 3]%float ]} : gmap loc matrix) [1%float]).
Proof.
  intros w.
  destruct (AKF_history_of_one randn_list inv_gauss
              (Arr1 [0; 0]%float) PEmptyList (Arr1 [3; 3]%float) 7
              (eye 2) PEmptyList (eye 2) (eye 2) (eye 2) (eye 2)
              (fun _ => 0%float) 0%float 0.01%float w
              (Mat 1 2 [5; 5]%float) [3; 3]%float) as [_ E].
  - vm_compute; reflexivity.
  - reflexivity.
  - simpl; lia.
  - reflexivity.
  - rewrite E. vm_compute. reflexivity.
Defined.

Lemma AKF_shifts_history_whatever_the_outcome_witness :
  let w := World ({[ 7 := Mat 2 2 [5; 5; 2; 2]%float ]} : gmap loc matrix) [1%float] in
  exists w',
    discrete_AKF_update (list float) randn_list inv_gauss
      (Arr1 [0; 0]%float) PEmptyList (Some (Arr1 [3; 3; 3]%float)) 7
      (eye 2) PEmptyList (eye 2) (eye 2) (eye 2) (eye 2)
      (fun _ => 0%float) 0%float 0.01%float w
    = (Err ValueError, w') /\
    exists m', heap w' !! 7 = Some m' /\ nrows m' = 2 /\ ncols m' = 2 /\
      forall i j, S i < 2 -> j < 2 -> i = 0 \/ j <> 1 ->
                  get m' i j = get (Mat 2 2 [5; 5; 2; 2]%float) (S i) j.
Proof.
  intros w. eexists. split; [vm_compute; reflexivity|].
  apply (AKF_shifts_history_whatever_the_outcome randn_list inv_gauss
           (Arr1 [0; 0]%float) PEmptyList (Some (Arr1 [3; 3; 3]%float)) 7
           (eye 2) PEmptyList (eye 2) (eye 2) (eye 2) (eye 2)
           (fun _ => 0%float) 0%float 0.01%float w _ (Mat 2 2 [5; 5; 2; 2]%float)
           (Err ValueError)).
  - vm_compute; reflexivity.
  - vm_compute; reflexivity.
Defined.

Lemma AKF_draws_one_sample_per_slot_witness :
  let w := World ({[ 7 := Mat 3 2 [5; 5; 2; 2; 4; 4]%float ]} : gmap loc matrix)
             [1; 2; 3]%float in
  exists out w',
    discrete_AKF_update (list float) randn_list inv_gauss
      (Arr1 [0; 0]%float) PEmptyList (Some (Arr1 [3; 3]%float)) 7
      (eye 2) PEmptyList (eye 2) (eye 2) (eye 2) (eye 2)
      (fun _ => 0%float) 0%float 0.01%float w
    = (Ok out, w') /\
    rng w' = [3%float].
Proof.
  intros w. 
  destruct (discrete_AKF_update (list float) randn_list inv_gauss
      (Arr1 [0; 0]%float) PEmptyList (Some (Arr1 [3; 3]%float)) 7
      (eye 2) PEmptyList (eye 2) (eye 2) (eye 2) (eye 2)
      (fun _ => 0%float) 0%float 0.01%float w) as [[[[[xhat xpred] P'] l]|e] w'] eqn:E;
    [|vm_compute in E; discriminate E].
  exists (xhat, xpred, P', l), w'. split; [reflexivity|].
  destruct (AKF_draws_one_sample_per_slot randn_list inv_gauss _ _ _ _ _ _ _ _ _ _ _ _ _
              _ _ _ _ _ _ E) as (m0 & zv & Hm0 & Hzv & Hr).
  vm_compute in Hm0. injection Hm0 as <-.
  vm_compute in Hzv. injection Hzv as <-.
  rewrite Hr. vm_compute. reflexivity.
Defined.

Lemma AKF_forward_loop_needs_two_entries_witness :
  let w := World ({[ 7 := Mat 2 1 [5; 2]%float ]} : gmap loc matrix) [1%float] in
  discrete_AKF_update (list float) randn_list inv_gauss
    (Arr1 [0]%float) PEmptyList (Some (Arr1 [3]%float)) 7
    (eye 1) PEmptyList (eye 1) (eye 1) (eye 1) (eye 1)
    (fun _ => 0%float) 0%float 0.01%float w
  = (Err IndexError, World ({[ 7 := Mat 2 1 [2; 3]%float ]} : gmap loc matrix) []).
Proof.
  intros w.
  rewrite (AKF_forward_loop_needs_two_entries randn_list inv_gauss
             (Arr1 [0]%float) PEmptyList (Arr1 [3]%float) 7
             (eye 1) PEmptyList (eye 1) (eye 1) (eye 1) (eye 1)
             (fun _ => 0%float) 0%float 0.01%float w (Mat 2 1 [5; 2]%float) [3]%float
             (Arr1 [2]%float) (Mat 1 1 [0.66666666666666674]%float)).
  - vm_compute. reflexivity.
  - vm_compute; reflexivity.
  - simpl; lia.
  - simpl; lia.
  - reflexivity.
  - vm_compute; reflexivity.
  - vm_compute; reflexivity.
  - left. simpl. lia.
Defined.

Lemma inv_gauss_shape (m mi : matrix) :
  inv_gauss m = Ok mi -> nrows mi = nrows m /\ ncols mi = nrows m.
Proof.
  unfold inv_gauss. destruct (nrows m =? ncols m); [|discriminate].
  cbn zeta. destruct (gauss_jordan _ _ _ _); [|discriminate].
  cbn [rbind]. now intros [= <-].
Qed.

Lemma AKF_update_runs_on_vectors_witness :
  let w := World ({[ 7 := Mat 3 2 [5; 5; 2; 2; 4; 4]%float ]} : gmap loc matrix)
             [1; 2; 3]%float in
  exists xh xp P' w',
    discrete_AKF_update (list float) randn_list inv_gauss
      (Arr1 [0; 0]%float) PEmptyList (Some (Arr1 [3; 3]%float)) 7
      (eye 2) PEmptyList (eye 2) (eye 2) (eye 2) (eye 2)
      (fun _ => 0%float) 0%float 0.01%float w
    = (Ok (Arr1 xh, Arr1 xp, P', 7), w') /\
    length xh = 2 /\ length xp = 2 /\ nrows P' = 2 /\ ncols P' = 2.
Proof.
  intros w.
  destruct (AKF_update_runs_on_vectors randn_list inv_gauss
              [0; 0]%float (Arr1 [3; 3]%float) 7 (eye 2) (eye 2) (eye 2) (eye 2) (eye 2)
              (fun _ => 0%float) 0%float 0.01%float w
              (Mat 3 2 [5; 5; 2; 2; 4; 4]%float) [3; 3]%float)
    as (r & w' & E & [(xh & xp & P' & -> & H)|(S & e & _ & _ & _ & ->)]).
  - vm_compute; reflexivity.
  - simpl; lia.
  - simpl; lia.
  - reflexivity.
  - vm_compute; reflexivity.
  - reflexivity.
  - reflexivity.
  - reflexivity.
  - reflexivity.
  - reflexivity.
  - reflexivity.
  - reflexivity.
  - reflexivity.
  - reflexivity.
  - reflexivity.
  - intros S Si Hr Hc HSi. apply inv_gauss_shape in HSi. cbn [ncols] in *. lia.
  - exists xh, xp, P', w'. split; [exact E | exact H].
  - vm_compute in E. discriminate E.
Defined.

Section AsynchronousNone.

Context {rng_state : Type}.
Variable randn : rng_state -> float * rng_state.
Variable inv : matrix -> result matrix.

(** X24: without a measurement (z = None) discrete_AKF_update does not
    raise at the insertion: line 114 fills the last slot of the history with
    NaN.  When the head of the history is then missing, as it is with a
    history of one slot, the call returns the inputs (x, x, P) with the
    history, and draws no sample. *)
Theorem AKF_without_measurement
    (x : ndarray) (u : pyarg ndarray) (zhist : loc)
    (A : matrix) (B : pyarg matrix) (C P Q R : matrix)
    (trajectory : float -> float) (t Ts : float)
    (w : world rng_state) (m0 : matrix) :
  heap w !! zhist = Some m0 -> 0 < nrows m0 -> 0 < ncols m0 ->
  let m1 := set_row (shift_rows m0) (nrows m0 - 1) (repeat nan (ncols m0)) in
  (forall j, j < ncols m0 -> PrimFloat.is_nan (get m1 (nrows m0 - 1) j) = true) /\
  (nrows m0 = 1 \/ PrimFloat.is_nan (get m1 0 0) = true ->
   discrete_AKF_update rng_state randn inv x u None zhist A B C P Q R
     trajectory t Ts w
   = (Ok (x, x, P, zhist), World (<[zhist := m1]> (heap w)) (rng w))).
Proof.
  intros Hm0 Hr Hc m1.
  assert (Hlast : forall j, j < ncols m0 ->
            PrimFloat.is_nan (get m1 (nrows m0 - 1) j) = true).
  { intros j Hj. unfold m1. rewrite shifted_history_entries by lia.
    rewrite Nat.eqb_refl.
    rewrite (nth_indep _ 0%float nan) by (rewrite repeat_length; exact Hj).
    now rewrite nth_repeat. }
  split; [exact Hlast|]. intros Hhead.
  assert (Hnan : PrimFloat.is_nan (get m1 0 0) = true).
  { destruct Hhead as [HW|H]; [|exact H].
    specialize (Hlast 0 Hc). rewrite HW in Hlast. exact Hlast. }
  rewrite (discrete_AKF_update_rows randn inv _ _ None _ _ _ _ _ _ _ _ _ _ _ m0
             (repeat nan (ncols m0)) Hm0 Hr eq_refl).
  cbn zeta. fold m1.
  replace (0 <? ncols m0) with true by (symmetry; apply Nat.ltb_lt; lia).
  now rewrite Hnan.
Qed.

End AsynchronousNone.

Lemma AKF_without_measurement_witness :
  let w := World ({[ 7 := Mat 1 2 [5; 5]%float ]} : gmap loc matrix) [1%float] in
  discrete_AKF_update (list float) randn_list inv_gauss
    (Arr1 [4; 5]%float) PEmptyList None 7
    (eye 2) PEmptyList (eye 2) (eye 2) (eye 2) (eye 2)
    (fun _ => 0%float) 0%float 0.01%float w
  = (Ok (Arr1 [4; 5]%float, Arr1 [4; 5]%float, eye 2, 7),
     World ({[ 7 := Mat 1 2 [nan; nan]%float ]} : gmap loc matrix) [1%float]).
Proof.
  intros w.
  destruct (AKF_without_measurement randn_list inv_gauss
              (Arr1 [4; 5]%float) PEmptyList 7
              (eye 2) PEmptyList (eye 2) (eye 2) (eye 2) (eye 2)
              (fun _ => 0%float) 0%float 0.01%float w (Mat 1 2 [5; 5]%float))
    as (_ & H); [reflexivity | simpl; lia | simpl; lia |].
  rewrite H by (left; reflexivity). vm_compute. reflexivity.
Defined.

(** ** The unscented step: states it cannot take, and its loops *)

Lemma py_div_err (a b : float) (e : exn) : py_div a b = Err e -> e = ZeroDivisionError.
Proof. unfold py_div. destruct (PrimFloat.eqb b 0); [now intros [= <-] | discriminate]. Qed.

Lemma ukf_weights_err (L : nat) (e : exn) :
  ukf_weights L = Err e -> e = ZeroDivisionError.
Proof.
  unfold ukf_weights. intros H.
  repeat match type of H with
         | rbind ?r _ = Err _ =>
             let E := fresh "E" in
             destruct r eqn:E; simpl in H;
             [| injection H as <-; now apply py_div_err in E ]
         end.
  discriminate.
Qed.

Section UnscentedEdges.

Variable cholesky : matrix -> result matrix.
Variable inv : matrix -> result matrix.
Variables (param aux : Type).

Lemma ukf_sigma_points_vector (v : list float) (P : matrix) :
  exists e, ukf_sigma_points cholesky (Arr1 v) P = Err e /\
            (e = ValueError \/ cholesky P = Err e).
Proof.
  unfold ukf_sigma_points.
  destruct (py_sqrt _) as [s|e] eqn:Es; cbn [rbind].
  2:{ exists e. split; [reflexivity|]. left. unfold py_sqrt in Es.
      destruct (PrimFloat.ltb _ 0); [now injection Es as <- | discriminate]. }
  destruct (cholesky P) as [U|e]; cbn [rbind]; [|eauto].
  destruct (m_add _ _) as [Xp|e] eqn:Ep; cbn [rbind];
    [|exists e; split; [reflexivity|]; left; now apply broadcast2_err in Ep].
  destruct (m_sub _ _) as [Xm|e] eqn:Em; cbn [rbind];
    [|exists e; split; [reflexivity|]; left; now apply broadcast2_err in Em].
  exists ValueError. split; [reflexivity | now left].
Qed.

(** X12: discrete_UKF_update cannot run on a one-dimensional state (the shape
    the linear Kalman step needs): it raises.  When the control signal is no
    array (None or the empty list, the values the linear Kalman step takes
    for a system without input) the exception is the AttributeError of
    [u.shape]; when it is an array the exception is a ZeroDivisionError (empty
    state), a ValueError, or what the Cholesky factorization raised. *)
Theorem UKF_vector_state_raises
    (v : list float) (u : pyarg ndarray) (z : ndarray)
    (F : ndarray -> ndarray -> param -> result (ndarray * aux))
    (H : ndarray -> result ndarray) (pm : param) (P Q R : matrix) :
  exists e,
    discrete_UKF_update cholesky inv param aux (Arr1 v) u z F H pm P Q R = Err e /\
    match u with
    | PArr _ => e = ZeroDivisionError \/ e = ValueError \/ cholesky P = Err e
    | PNone | PEmptyList => e = AttributeError
    end.
Proof.
  unfold discrete_UKF_update.
  destruct u as [| |u]; cbn [the_array rbind]; [eauto | eauto |].
  destruct (ukf_weights _) as [[Wm Wc]|e] eqn:EW; cbn [rbind].
  2:{ exists e. split; [reflexivity|]. left. now apply ukf_weights_err in EW. }
  destruct (ukf_sigma_points_vector v P) as (e & -> & He). cbn [rbind].
  exists e. split; [reflexivity|]. tauto.
Qed.

(** X13: on a state without entries discrete_UKF_update raises: the
    AttributeError of [u.shape] when the control signal is None or the empty
    list, and else ZeroDivisionError, as the weights divide by L + lambda,
    which is zero for L = 0. *)
Theorem UKF_empty_state_raises
    (x : ndarray) (u : pyarg ndarray) (z : ndarray)
    (F : ndarray -> ndarray -> param -> result (ndarray * aux))
    (H : ndarray -> result ndarray) (pm : param) (P Q R : matrix) :
  shape0 x = 0 ->
  discrete_UKF_update cholesky inv param aux x u z F H pm P Q R
  = match u with
    | PArr _ => Err ZeroDivisionError
    | PNone | PEmptyList => Err AttributeError
    end.
Proof.
  intros HL. unfold discrete_UKF_update. rewrite HL.
  destruct u; reflexivity.
Qed.

End UnscentedEdges.

Lemma UKF_empty_state_raises_witness :
  discrete_UKF_update cholesky_upper inv_gauss unit unit
    (Arr2 (Mat 0 1 [])) (PArr (Arr1 [])) (Arr2 (Mat 1 1 [1]%float))
    (fun x _ _ => Ok (x, tt)) (fun x => Ok x) tt (Mat 0 0 []) (Mat 0 0 []) (eye 1)
  = Err ZeroDivisionError.
Proof.
  apply (UKF_empty_state_raises cholesky_upper inv_gauss unit unit
           (Arr2 (Mat 0 1 [])) (PArr (Arr1 []))).
  reflexivity.
Defined.

Section SigmaPointLoops.

Variables (param aux : Type).

(** The loop of lines 195-196 from column [a] on, when [F] returns a column
    for each sigma point. *)
Lemma ukf_propagate_columns
    (F : ndarray -> ndarray -> param -> result (ndarray * aux))
    (u : ndarray) (pm : param) (X : matrix) (S : nat -> matrix) :
  forall n a Xf0,
    a + n <= ncols X -> nrows Xf0 = nrows X -> ncols Xf0 = ncols X ->
    (forall j, a <= j < a + n ->
       exists Xj au, column X j = Ok Xj /\ F (Arr2 Xj) u pm = Ok (Arr2 (S j), au) /\
                     nrows (S j) = nrows X /\ ncols (S j) = 1) ->
    exists Xf,
      ukf_propagate param aux F u pm X (seq a n) Xf0 = Ok Xf /\
      nrows Xf = nrows X /\ ncols Xf = ncols X /\
      forall i j, i < nrows X -> j < ncols X ->
        get Xf i j = if (a <=? j) && (j <? a + n) then get (S j) i 0 else get Xf0 i j.
Proof.
  induction n as [|n IH]; intros a Xf0 Ha Hr Hc HF.
  - exists Xf0. cbn [seq ukf_propagate]. split; [reflexivity|].
    split; [exact Hr|]. split; [exact Hc|]. intros i j Hi Hj.
    replace ((a <=? j) && (j <? a + 0)) with false; [reflexivity|].
    symmetry. apply andb_false_iff.
    destruct (Nat.leb_spec a j); [right; apply Nat.ltb_ge; lia | now left].
  - destruct (HF a ltac:(lia)) as (Xa & au & EX & EF & HrS & HcS).
    cbn [seq ukf_propagate]. rewrite EX; cbn [rbind]. rewrite EF; cbn [rbind].
    unfold set_column.
    replace (a <? ncols Xf0) with true by (symmetry; apply Nat.ltb_lt; lia).
    rewrite HrS, HcS, Hr, !Nat.eqb_refl. cbn [orb andb rbind].
    match goal with
    | |- context [ukf_propagate _ _ _ _ _ _ (seq (Datatypes.S a) n) ?Xf'] =>
        destruct (IH (Datatypes.S a) Xf') as (Xf & EXf & HrX & HcX & Hget);
        [lia | reflexivity | exact Hc | intros j Hj; apply HF; lia |]
    end.
    rewrite EXf. exists Xf. split; [reflexivity|].
    split; [exact HrX|]. split; [exact HcX|].
    intros i j Hi Hj. rewrite Hget by assumption.
    rewrite get_tabulate by lia. rewrite broadcast_index by lia.
    destruct (Nat.eq_dec j a) as [->|Hne].
    + rewrite Nat.eqb_refl.
      replace (Datatypes.S a <=? a) with false by (symmetry; apply Nat.leb_gt; lia).
      rewrite Nat.leb_refl.
      replace (a <? a + Datatypes.S n) with true
        by (symmetry; apply Nat.ltb_lt; lia).
      reflexivity.
    + replace (j =? a) with false by (symmetry; apply Nat.eqb_neq; lia).
      replace (a + Datatypes.S n) with (Datatypes.S a + n) by lia.
      destruct (Nat.leb_spec (Datatypes.S a) j), (Nat.leb_spec a j);
        try reflexivity; lia.
Qed.

(** X14: the loop of discrete_UKF_update over the sigma points stores, in
    column j of Xf, the state that F returns for column j of X, for every
    one of the columns: when F returns a column of as many rows as X for
    each sigma point, the loop returns, and Xf has the shape of X. *)
Theorem UKF_propagates_every_sigma_point
    (F : ndarray -> ndarray -> param -> result (ndarray * aux))
    (u : ndarray) (pm : param) (X : matrix) (S : nat -> matrix) :
  (forall j, j < ncols X ->
     exists Xj au, column X j = Ok Xj /\ F (Arr2 Xj) u pm = Ok (Arr2 (S j), au) /\
                   nrows (S j) = nrows X /\ ncols (S j) = 1) ->
  exists Xf,
    ukf_propagate param aux F u pm X (seq 0 (ncols X)) (zeros (nrows X) (ncols X))
    = Ok Xf /\
    nrows Xf = nrows X /\ ncols Xf = ncols X /\
    forall i j, i < nrows X -> j < ncols X -> get Xf i j = get (S j) i 0.
Proof.
  intros HF.
  destruct (ukf_propagate_columns F u pm X S (ncols X) 0 (zeros (nrows X) (ncols X)))
    as (Xf & E & Hr & Hc & Hget);
    [lia | reflexivity | reflexivity | intros j Hj; apply HF; lia |].
  exists Xf. split; [exact E|]. split; [exact Hr|]. split; [exact Hc|].
  intros i j Hi Hj. rewrite Hget by assumption.
  now replace (j <? 0 + ncols X) with true by (symmetry; apply Nat.ltb_lt; lia).
Qed.

End SigmaPointLoops.

Lemma ukf_mean_sum (Wm : list float) (Xf : matrix) :
  forall n a mean0,
    a + n <= ncols Xf -> a + n <= length Wm ->
    nrows mean0 = nrows Xf -> ncols mean0 = 1 ->
    exists mean,
      ukf_mean Wm Xf (seq a n) mean0 = Ok mean /\
      nrows mean = nrows Xf /\ ncols mean = 1 /\
      forall i, i < nrows Xf ->
        get mean i 0
        = fold_left PrimFloat.add
            (map (fun k => (nth k Wm 0 * get Xf i k)%float) (seq a n)) (get mean0 i 0).
Proof.
  induction n as [|n IH]; intros a mean0 Ha Hw Hr Hc.
  - exists mean0. cbn. auto.
  - cbn [seq ukf_mean].
    destruct (nth_error Wm a) as [wa|] eqn:Ew;
      [|apply nth_error_None in Ew; lia].
    cbn [rbind]. unfold column.
    replace (a <? ncols Xf) with true by (symmetry; apply Nat.ltb_lt; lia).
    cbn [rbind]. unfold m_iadd, m_add.
    set (Xa := tabulate (nrows Xf) 1 (fun i _ => get Xf i a)).
    destruct (broadcast2_same_shape PrimFloat.add mean0 (m_scale wa Xa))
      as (s & Es & Hrs & Hcs & Hs); [exact Hr | exact Hc |].
    rewrite Es. cbn [rbind]. rewrite Hrs, Hcs, !Nat.eqb_refl. cbn [andb].
    destruct (IH (S a) s) as (mean & Em & Hrm & Hcm & Hm); [lia..|congruence|].
    exists mean. split; [exact Em|]. split; [exact Hrm|]. split; [exact Hcm|].
    intros i Hi. rewrite Hm by assumption. cbn [map fold_left].
    rewrite Hs by lia. rewrite get_m_scale; [|apply wf_tabulate|exact Hi|cbn; lia].
    unfold Xa. rewrite get_tabulate by lia.
    now rewrite (nth_error_nth _ _ _ Ew).
Qed.

(** X15: the mean that discrete_UKF_update forms from the propagated sigma
    points is their weighted sum, added up in the order of the columns from
    0.0: entry i of the mean of the first n columns is
    [Wm[0]*Xf[i,0] + ... + Wm[n-1]*Xf[i,n-1]]. *)
Theorem UKF_mean_is_weighted_sum (Wm : list float) (Xf : matrix) (n : nat) :
  n <= ncols Xf -> n <= length Wm ->
  exists mean,
    ukf_mean Wm Xf (seq 0 n) (zeros (nrows Xf) 1) = Ok mean /\
    nrows mean = nrows Xf /\ ncols mean = 1 /\
    forall i, i < nrows Xf ->
      get mean i 0 = fsum (map (fun k => (nth k Wm 0 * get Xf i k)%float) (seq 0 n)).
Proof.
  intros Hn Hw.
  destruct (ukf_mean_sum Wm Xf n 0 (zeros (nrows Xf) 1))
    as (mean & E & Hr & Hc & Hget); [lia | lia | reflexivity | reflexivity |].
  exists mean. split; [exact E|]. split; [exact Hr|]. split; [exact Hc|].
  intros i Hi. rewrite Hget by assumption. unfold zeros.
  now rewrite get_tabulate by lia.
Qed.

Lemma UKF_propagates_every_sigma_point_witness :
  let X := Mat 2 3 [1; 2; 3; 4; 5; 6]%float in
  let F := fun (x _ : ndarray) (_ : unit) =>
             match x with
             | Arr2 m => Ok (Arr2 (m_scale 2 m), tt)
             | Arr1 _ => Err ValueError
             end in
  exists Xf,
    ukf_propagate unit unit F (Arr1 []) tt X (seq 0 3) (zeros 2 3) = Ok Xf /\
    Xf = Mat 2 3 [2; 4; 6; 8; 10; 12]%float.
Proof.
  intros X F.
  destruct (UKF_propagates_every_sigma_point unit unit F (Arr1 []) tt X
              (fun j => m_scale 2 (tabulate 2 1 (fun i _ => get X i j))))
    as (Xf & E & _).
  - intros j Hj. exists (tabulate 2 1 (fun i _ => get X i j)), tt.
    destruct j as [|[|[|j]]]; [| | |simpl in Hj; lia]; repeat split; reflexivity.
  - exists Xf. split; [exact E|].
    vm_compute in E. now injection E as <-.
Defined.

Lemma UKF_mean_is_weighted_sum_witness :
  exists mean,
    ukf_mean [-3; 2; 2]%float (Mat 2 3 [1; 2; 3; 4; 5; 6]%float) (seq 0 3) (zeros 2 1)
    = Ok mean /\
    nrows mean = 2 /\ ncols mean = 1 /\
    get mean 0 0 = (0 + -3 * 1 + 2 * 2 + 2 * 3)%float /\
    get mean 1 0 = (0 + -3 * 4 + 2 * 5 + 2 * 6)%float.
Proof.
  destruct (UKF_mean_is_weighted_sum [-3; 2; 2]%float
              (Mat 2 3 [1; 2; 3; 4; 5; 6]%float) 3) as (mean & E & Hr & Hc & Hget).
  - simpl; lia.
  - simpl; lia.
  - exists mean. split; [exact E|]. split; [exact Hr|]. split; [exact Hc|].
    split; [apply (Hget 0) | apply (Hget 1)]; simpl; lia.
Defined.

Lemma ukf_weights_length (L : nat) (Wm Wc : list float) :
  ukf_weights L = Ok (Wm, Wc) -> length Wm = 2 * L + 1 /\ length Wc = 2 * L + 1.
Proof.
  unfold ukf_weights. intros H.
  repeat (apply rbind_ok in H as (? & _ & H)).
  injection H as <- <-. cbn [length].
  rewrite !length_map, !repeat_length. lia.
Qed.

Section UnscentedRun.

Variable cholesky : matrix -> result matrix.
Variable inv : matrix -> result matrix.
Variables (param aux : Type).

(** The shape of [Xf] after the loop of lines 195-196. *)
Lemma ukf_propagate_shape
    (F : ndarray -> ndarray -> param -> result (ndarray * aux))
    (u : ndarray) (pm : param) (X : matrix) :
  (forall Xj, nrows Xj = nrows X -> ncols Xj = 1 ->
     exists Sj a, F (Arr2 Xj) u pm = Ok (Arr2 Sj, a) /\
                  nrows Sj = nrows X /\ ncols Sj = 1) ->
  forall iis Xf0,
    (forall j, In j iis -> j < ncols X) ->
    nrows Xf0 = nrows X -> ncols Xf0 = ncols X ->
    exists Xf, ukf_propagate param aux F u pm X iis Xf0 = Ok Xf /\
               nrows Xf = nrows X /\ ncols Xf = ncols X.
Proof.
  intros HF. induction iis as [|ii rest IH]; intros Xf0 Hin Hr Hc.
  - exists Xf0. auto.
  - cbn [ukf_propagate]. unfold column.
    replace (ii <? ncols X) with true
      by (symmetry; apply Nat.ltb_lt, Hin; now left).
    cbn [rbind].
    destruct (HF (tabulate (nrows X) 1 (fun i _ => get X i ii)) eq_refl eq_refl)
      as (Sj & a & -> & HrS & HcS).
    cbn [rbind]. unfold set_column.
    replace (ii <? ncols Xf0) with true
      by (symmetry; apply Nat.ltb_lt; rewrite Hc; apply Hin; now left).
    rewrite HrS, HcS, Hr, !Nat.eqb_refl. cbn [orb andb rbind].
    apply IH; [intros j Hj; apply Hin; now right | reflexivity | exact Hc].
Qed.

(** The shape of [Yf] after the loop of lines 206-207. *)
Lemma ukf_measure_shape (H : ndarray -> result ndarray) (Xf : matrix) (Nz : nat) :
  (forall Xj, nrows Xj = nrows Xf -> ncols Xj = 1 ->
     exists Yj, H (Arr2 Xj) = Ok (Arr2 Yj) /\ nrows Yj = Nz /\ ncols Yj = 1) ->
  forall iis Yf0,
    (forall j, In j iis -> j < ncols Xf) ->
    nrows Yf0 = Nz -> ncols Yf0 = ncols Xf ->
    exists Yf, ukf_measure H Xf iis Yf0 = Ok Yf /\
               nrows Yf = Nz /\ ncols Yf = ncols Xf.
Proof.
  intros HH. induction iis as [|ii rest IH]; intros Yf0 Hin Hr Hc.
  - exists Yf0. auto.
  - cbn [ukf_measure]. unfold column.
    replace (ii <? ncols Xf) with true
      by (symmetry; apply Nat.ltb_lt, Hin; now left).
    cbn [rbind].
    destruct (HH (tabulate (nrows Xf) 1 (fun i _ => get Xf i ii)) eq_refl eq_refl)
      as (Yj & -> & HrY & HcY).
    cbn [rbind]. unfold set_column.
    replace (ii <? ncols Yf0) with true
      by (symmetry; apply Nat.ltb_lt; rewrite Hc; apply Hin; now left).
    rewrite HrY, HcY, Hr, !Nat.eqb_refl. cbn [orb andb rbind].
    apply IH; [intros j Hj; apply Hin; now right | reflexivity | exact Hc].
Qed.

(** X16: on a column state and a control signal that is an array
    discrete_UKF_update runs, and only the matrix inverse can make it fail.
    For a state of shape (L,1), an array u and a measurement of shape (Nz,1), with the weights and the scaling defined for L, a
    Cholesky factor of shape (L,L), functions F and H that return columns of
    L and of Nz rows for every column of L rows, Q of shape (L,L), R of shape
    (Nz,Nz) and an inverse that keeps the shape of an (Nz,Nz) matrix: the call
    returns a state of shape (L,1) and a covariance of shape (L,L), or it
    raises what the inverse raised on an (Nz,Nz) matrix. *)
Theorem UKF_update_runs_on_columns
    (mx mz : matrix) (u : ndarray)
    (F : ndarray -> ndarray -> param -> result (ndarray * aux))
    (H : ndarray -> result ndarray) (pm : param) (P Q R U : matrix)
    (W : list float * list float) (s : float) :
  let L := nrows mx in
  let Nz := nrows mz in
  ncols mx = 1 -> ncols mz = 1 ->
  ukf_weights L = Ok W ->
  py_sqrt (float_of_nat L + ukf_lam L) = Ok s ->
  cholesky P = Ok U -> nrows U = L -> ncols U = L ->
  (forall Xj, nrows Xj = L -> ncols Xj = 1 ->
     exists Sj a, F (Arr2 Xj) u pm = Ok (Arr2 Sj, a) /\ nrows Sj = L /\ ncols Sj = 1) ->
  (forall Xj, nrows Xj = L -> ncols Xj = 1 ->
     exists Yj, H (Arr2 Xj) = Ok (Arr2 Yj) /\ nrows Yj = Nz /\ ncols Yj = 1) ->
  nrows Q = L -> ncols Q = L -> nrows R = Nz -> ncols R = Nz ->
  (forall S Si, nrows S = Nz -> ncols S = Nz -> inv S = Ok Si ->
                nrows Si = Nz /\ ncols Si = Nz) ->
  (exists xhat Pnew,
      discrete_UKF_update cholesky inv param aux (Arr2 mx) (PArr u) (Arr2 mz) F H pm P Q R
      = Ok (Arr2 xhat, Pnew) /\
      nrows xhat = L /\ ncols xhat = 1 /\ nrows Pnew = L /\ ncols Pnew = L)
  \/
  (exists S e,
      nrows S = Nz /\ ncols S = Nz /\ inv S = Err e /\
      discrete_UKF_update cholesky inv param aux (Arr2 mx) (PArr u) (Arr2 mz) F H pm P Q R
      = Err e).
Proof.
  intros L Nz Hcx Hcz HW Hs HU HrU HcU HF HH HrQ HcQ HrR HcR Hinv.
  assert (HL : nrows mx = L) by reflexivity.
  assert (HNz : nrows mz = Nz) by reflexivity.
  clearbody L Nz.
  destruct W as [Wm Wc].
  destruct (ukf_weights_length _ _ _ HW) as [HlWm HlWc].
  enough (Hcall : exists r,
             discrete_UKF_update cholesky inv param aux (Arr2 mx) (PArr u) (Arr2 mz) F H pm P Q R
             = r /\
             ((exists xhat Pnew, r = Ok (Arr2 xhat, Pnew) /\
                 nrows xhat = L /\ ncols xhat = 1 /\ nrows Pnew = L /\ ncols Pnew = L)
              \/ (exists S e, nrows S = Nz /\ ncols S = Nz /\ inv S = Err e /\ r = Err e)))
    by (destruct Hcall as (r & -> & Hr); exact Hr).
  unfold discrete_UKF_update. cbn [shape0 the_array rbind]. rewrite HL, HNz, HW.
  cbn [rbind].
  (* the sigma points *)
  unfold ukf_sigma_points. cbn [shape0]. rewrite HL, Hs, HU. cbn [rbind].
  set (Psqrt := m_scale s (transpose U)).
  set (tile := tile_cols (Arr2 mx) L).
  assert (Hrt : nrows tile = L) by exact HL.
  assert (Hct : ncols tile = L) by (cbn; rewrite Hcx; lia).
  assert (HrP : nrows Psqrt = L) by (cbn; exact HcU).
  assert (HcP : ncols Psqrt = L) by (cbn; exact HrU).
  destruct (broadcast2_same_shape PrimFloat.add tile Psqrt) as (Xp & EXp & HrXp & HcXp & _);
    [congruence..|].
  destruct (broadcast2_same_shape PrimFloat.sub tile Psqrt) as (Xm & EXm & HrXm & HcXm & _);
    [congruence..|].
  unfold m_add at 1, m_sub at 1. rewrite EXp, EXm. cbn [rbind hstack3].
  replace ((nrows mx =? nrows Xp) && (nrows mx =? nrows Xm)) with true
    by (symmetry; apply andb_true_iff; split; apply Nat.eqb_eq; congruence).
  cbn [rbind].
  set (X := tabulate (nrows mx) (ncols mx + ncols Xp + ncols Xm) _).
  assert (HrX : nrows X = L) by exact HL.
  assert (HcX : ncols X = 2 * L + 1) by (cbn; lia).
  assert (Hseq : forall j, In j (seq 0 (2 * L + 1)) -> j < 2 * L + 1)
    by (intros j Hj; apply in_seq in Hj; lia).
  (* the propagation and the mean *)
  destruct (ukf_propagate_shape F u pm X) with (iis := seq 0 (2 * L + 1))
                                               (Xf0 := zeros (nrows X) (ncols X))
    as (Xf & EXf & HrXf & HcXf);
    [rewrite HrX; exact HF | rewrite HcX; exact Hseq | reflexivity | reflexivity |].
  rewrite EXf. cbn [rbind].
  destruct (ukf_mean_sum Wm Xf (2 * L + 1) 0 (zeros L 1)) as (xMean & ExM & HrxM & HcxM & _);
    [lia | lia | cbn; congruence | reflexivity |].
  rewrite ExM. cbn [rbind].
  destruct (broadcast2_same_shape PrimFloat.sub Xf (tile_cols (Arr2 xMean) (2 * L + 1)))
    as (xDev & ExD & HrxD & HcxD & _); [cbn; congruence | cbn; lia |].
  unfold m_sub at 1. rewrite ExD. cbn [rbind].
  (* the measurements and their mean *)
  destruct (ukf_measure_shape H Xf Nz) with (iis := seq 0 (2 * L + 1))
                                            (Yf0 := zeros Nz (2 * L + 1))
    as (Yf & EYf & HrYf & HcYf);
    [intros Xj Hr Hc; apply HH; congruence | rewrite HcXf, HcX; exact Hseq
     | reflexivity | cbn; lia |].
  rewrite EYf. cbn [rbind].
  destruct (ukf_mean_sum Wm Yf (2 * L + 1) 0 (zeros Nz 1)) as (yMean & EyM & HryM & HcyM & _);
    [lia | lia | cbn; congruence | reflexivity |].
  rewrite EyM. cbn [rbind].
  destruct (broadcast2_same_shape PrimFloat.sub Yf (tile_cols (Arr2 yMean) (2 * L + 1)))
    as (yDev & EyD & HryD & HcyD & _); [cbn; congruence | cbn; lia |].
  unfold m_sub at 1. rewrite EyD. cbn [rbind].
  (* the covariances *)
  assert (HrD : nrows (diag Wc) = 2 * L + 1) by (cbn; lia).
  assert (HcD : ncols (diag Wc) = 2 * L + 1) by (cbn; lia).
  destruct (dot_mm_ok xDev (diag Wc)) as (xW & ExW & HrxW & HcxW); [lia|].
  rewrite ExW. cbn [rbind].
  destruct (dot_mm_ok xW (transpose xDev)) as (Pxx0 & EPxx0 & HrPxx0 & HcPxx0);
    [cbn; lia|].
  rewrite EPxx0. cbn [rbind].
  destruct (broadcast2_same_shape PrimFloat.add Pxx0 Q) as (Pxx & EPxx & HrPxx & HcPxx & _);
    [cbn in *; lia..|].
  unfold m_add at 1. rewrite EPxx. cbn [rbind].
  destruct (dot_mm_ok xW (transpose yDev)) as (Pxy & EPxy & HrPxy & HcPxy);
    [cbn; lia|].
  rewrite EPxy. cbn [rbind].
  destruct (dot_mm_ok yDev (diag Wc)) as (yW & EyW & HryW & HcyW); [lia|].
  rewrite EyW. cbn [rbind].
  destruct (dot_mm_ok yW (transpose yDev)) as (Pyy0 & EPyy0 & HrPyy0 & HcPyy0);
    [cbn; lia|].
  rewrite EPyy0. cbn [rbind].
  destruct (broadcast2_same_shape PrimFloat.add Pyy0 R) as (Pyy & EPyy & HrPyy & HcPyy & _);
    [cbn in *; lia..|].
  unfold m_add at 1. rewrite EPyy. cbn [rbind].
  (* the correction *)
  cbn [transpose tabulate nrows ncols] in *.
  destruct (inv Pyy) as [Pi|e] eqn:EPi; cbn [rbind].
  2:{ eexists. split; [reflexivity|]. right. exists Pyy, e.
      repeat split; try assumption; lia. }
  destruct (Hinv Pyy Pi) as [HrPi HcPi]; [lia | lia | exact EPi |].
  destruct (dot_mm_ok Pxy Pi) as (K & EK & HrK & HcK); [lia|].
  rewrite EK. cbn [rbind].
  destruct (broadcast2_same_shape PrimFloat.sub mz yMean) as (innov & Ein & Hrin & Hcin & _);
    [lia | lia |].
  unfold nd_sub, nd_add. cbn [nd_broadcast]. rewrite Ein. cbn [rbind dot_mv].
  destruct (dot_mm_ok K innov) as (Kin & EKin & HrKin & HcKin); [lia|].
  rewrite EKin. cbn [rbind nd_broadcast].
  destruct (broadcast2_same_shape PrimFloat.add xMean Kin) as (xhat & Exh & Hrxh & Hcxh & _);
    [lia | lia |].
  rewrite Exh. cbn [rbind].
  destruct (dot_mm_ok K Pyy) as (KP & EKP & HrKP & HcKP); [lia|].
  rewrite EKP. cbn [rbind].
  destruct (dot_mm_ok KP (transpose K)) as (KPK & EKPK & HrKPK & HcKPK); [cbn; lia|].
  rewrite EKPK. cbn [rbind].
  destruct (broadcast2_same_shape PrimFloat.sub Pxx KPK) as (Pn & EPn & HrPn & HcPn & _);
    [cbn in *; lia..|].
  unfold m_sub. rewrite EPn. cbn [rbind].
  eexists. split; [reflexivity|]. left.
  exists xhat, Pn. split; [reflexivity|]. cbn in *. repeat split; lia.
Qed.

End UnscentedRun.

Lemma UKF_update_runs_on_columns_witness :
  let F := fun (x _ : ndarray) (_ : unit) => Ok (x, tt) in
  let H := fun x : ndarray =>
             match x with
             | Arr2 m => Ok (Arr2 (Mat 1 1 [get m 0 0]))
             | Arr1 _ => Err ValueError
             end in
  exists xhat Pnew,
    discrete_UKF_update cholesky_upper inv_gauss unit unit
      (Arr2 (Mat 2 1 [10; 20]%float)) (PArr (Arr1 [])) (Arr2 (Mat 1 1 [10.5]%float))
      F H tt (Mat 2 2 [4; 2; 2; 5]%float) (eye 2) (eye 1)
    = Ok (Arr2 xhat, Pnew) /\
    nrows xhat = 2 /\ ncols xhat = 1 /\ nrows Pnew = 2 /\ ncols Pnew = 2.
Proof.
  intros F H.
  destruct (UKF_update_runs_on_columns cholesky_upper inv_gauss unit unit
              (Mat 2 1 [10; 20]%float) (Mat 1 1 [10.5]%float) (Arr1 []) F H tt
              (Mat 2 2 [4; 2; 2; 5]%float) (eye 2) (eye 1)
              (Mat 2 2 [2; 1; 0; 2]%float)
              ([-3; 1; 1; 1; 1]%float, [-0.25; 1; 1; 1; 1]%float)
              (PrimFloat.sqrt 0.5))
    as [Hok|(S & e & _ & _ & _ & Herr)].
  - reflexivity.
  - reflexivity.
  - vm_compute; reflexivity.
  - vm_compute; reflexivity.
  - vm_compute; reflexivity.
  - reflexivity.
  - reflexivity.
  - intros Xj Hr Hc. exists Xj, tt. auto.
  - intros Xj Hr Hc. eexists. split; [reflexivity|]. split; reflexivity.
  - reflexivity.
  - reflexivity.
  - reflexivity.
  - reflexivity.
  - intros S Si Hr Hc HSi. apply inv_gauss_shape in HSi. cbn [nrows] in *. lia.
  - exact Hok.
  - vm_compute in Herr. discriminate Herr.
Defined.

(** ** The dynamics model: exceptions, inputs and output *)

Lemma set_block_err (m : matrix) (r0 c0 h w : nat) (v : matrix) (e : exn) :
  set_block m r0 c0 h w v = Err e -> e = ValueError.
Proof.
  unfold set_block.
  destruct (((nrows v =? h) || (nrows v =? 1)) && ((ncols v =? w) || (ncols v =? 1)));
    [discriminate | now intros [= <-]].
Qed.

Lemma index_err (v : list float) (i : nat) (e : exn) :
  index v i = Err e -> e = IndexError.
Proof. unfold index. destruct (nth_error v i); [discriminate | now intros [= <-]]. Qed.

Lemma angles_and_rates_err (x : ndarray) (e : exn) :
  angles_and_rates x = Err e -> e = IndexError \/ e = ValueError.
Proof.
  destruct x as [v|m]; cbn [angles_and_rates]; [intros [= <-]; now left|].
  destruct ((12 <=? nrows m) && (1 <=? ncols m)); [discriminate|].
  intros [= <-]; now right.
Qed.

Lemma first_column_err (u : ndarray) (e : exn) :
  first_column u = Err e -> e = IndexError.
Proof.
  destruct u as [v|m]; cbn [first_column]; [now intros [= <-]|].
  destruct (1 <=? ncols m); [discriminate | now intros [= <-]].
Qed.

Section DynamicsEdges.

Variables sin cos : float -> float.
Variable inv : matrix -> result matrix.
Variable cont2discrete : matrix -> matrix -> matrix -> float ->
                         result (matrix * matrix * matrix).

Lemma py_sin_err (a : float) (e : exn) : py_sin sin a = Err e -> e = ValueError.
Proof. unfold py_sin. destruct (PrimFloat.is_infinity a); [now intros [= <-] | discriminate]. Qed.

Lemma py_cos_err (a : float) (e : exn) : py_cos cos a = Err e -> e = ValueError.
Proof. unfold py_cos. destruct (PrimFloat.is_infinity a); [now intros [= <-] | discriminate]. Qed.

Lemma read_param_err (d : param_dict) (e : exn) :
  read_param d = Err e -> e = KeyError.
Proof.
  unfold read_param, lookup. intros H.
  repeat match type of H with
         | rbind (match ?o with Some _ => _ | None => _ end) _ = Err _ =>
             destruct o; cbn [rbind] in H; [| now injection H as <- ]
         end.
  discriminate.
Qed.

Lemma system_matrices_err
    (angles : float * float * float * float * float * float)
    (u : ndarray) (param : quad_param) (e : exn) :
  system_matrices sin cos inv angles u param = Err e ->
  e = IndexError \/ e = ValueError \/ e = ZeroDivisionError \/
  exists J, inv J = Err e.
Proof.
  clear cont2discrete. unfold system_matrices.
  destruct angles as [[[[[phi theta] psi] phidot] thetadot] psidot].
  destruct param as [Ts g m k [[A1 A2] A3] [[Ixx Iyy] Izz] l b].
  cbn [p_m p_k p_A p_I p_l p_b]. intros H.
  destruct (first_column u) as [uc|e1] eqn:E1; cbn [rbind] in H;
    [|injection H as <-; apply first_column_err in E1; tauto].
  repeat match type of H with
         | rbind (py_sin sin ?a) _ = Err _ =>
             let E := fresh "E" in
             destruct (py_sin sin a) eqn:E; cbn [rbind] in H;
             [| injection H as <-; apply py_sin_err in E; tauto ]
         | rbind (py_cos cos ?a) _ = Err _ =>
             let E := fresh "E" in
             destruct (py_cos cos a) eqn:E; cbn [rbind] in H;
             [| injection H as <-; apply py_cos_err in E; tauto ]
         end.
  repeat match type of H with
         | rbind (index ?v ?i) _ = Err _ =>
             let E := fresh "E" in
             destruct (index v i) eqn:E; cbn [rbind] in H;
             [| injection H as <-; apply index_err in E; tauto ]
         end.
  destruct (inv _) as [invJ|e2] eqn:EJ; cbn [rbind] in H;
    [|injection H as <-; right; right; right; eauto].
  repeat match type of H with
         | rbind ?r _ = Err _ =>
             let E := fresh "E" in
             destruct r eqn:E; cbn [rbind] in H;
             [| injection H as <-;
                first [ apply set_block_err in E
                      | apply py_div_err in E
                      | apply dot_mm_err in E ]; tauto ]
         end.
  discriminate.
Qed.

(** X17: an exception that quadcopter_dynamics raises is an IndexError (a
    state or control signal that is not two-dimensional, or with fewer than
    four control entries), a ValueError (shapes that do not fit, or the sine
    or cosine of an infinite angle), a KeyError (an entry that the
    dictionary of parameters does not hold), a ZeroDivisionError (mass
    zero), or what the matrix inverse or the discretization raised. *)
Theorem quadcopter_dynamics_exceptions (x u : ndarray) (d : param_dict) (e : exn) :
  quadcopter_dynamics sin cos inv cont2discrete x u d = Err e ->
  e = IndexError \/ e = ValueError \/ e = KeyError \/ e = ZeroDivisionError \/
  (exists J, inv J = Err e) \/
  (exists Ac Bc Cc Ts, cont2discrete Ac Bc Cc Ts = Err e).
Proof.
  unfold quadcopter_dynamics. intros H.
  destruct (angles_and_rates x) as [angles|e0] eqn:E0; cbn [rbind] in H;
    [|injection H as <-; apply angles_and_rates_err in E0; tauto].
  destruct (read_param d) as [param|e0] eqn:Ep; cbn [rbind] in H;
    [|injection H as <-; apply read_param_err in Ep; tauto].
  destruct (system_matrices sin cos inv angles u param)
    as [[[[[Ac Bc] Cc] T] tau_b]|e0] eqn:Es; cbn [rbind] in H;
    [|injection H as <-; apply system_matrices_err in Es; tauto].
  destruct (cont2discrete Ac Bc Cc (inner_loop_h param)) as [[[Ad Bd] Cd]|e1] eqn:E1;
    cbn [rbind] in H; [|injection H as <-; do 5 right; eauto].
  right. left.
  repeat match type of H with
         | rbind ?r _ = Err _ =>
             let E := fresh "E" in
             destruct r eqn:E; cbn [rbind] in H;
             [| injection H as <-;
                first [ now apply dot_mm_err in E
                      | now apply dot_mv_err in E
                      | now apply nd_broadcast_err in E ] ]
         end.
  discriminate.
Qed.

(** X18: what quadcopter_dynamics does with a state or a control signal of
    the wrong shape.  A one-dimensional state raises IndexError; a
    two-dimensional state with fewer than twelve rows, or without columns,
    raises ValueError.  With a state that passes and a dictionary that holds
    all the parameters, a control signal that is one-dimensional or has no
    column raises IndexError; and so does one with fewer than four rows,
    when none of the three angles of the state is infinite. *)
Theorem quadcopter_dynamics_rejects_wrong_shapes (d : param_dict) :
  (forall v u, quadcopter_dynamics sin cos inv cont2discrete (Arr1 v) u d
               = Err IndexError) /\
  (forall mx u, nrows mx < 12 \/ ncols mx = 0 ->
     quadcopter_dynamics sin cos inv cont2discrete (Arr2 mx) u d = Err ValueError) /\
  (forall mx u param, 12 <= nrows mx -> 1 <= ncols mx ->
     read_param d = Ok param ->
     match u with
     | Arr1 _ => True
     | Arr2 mu => ncols mu = 0
     end ->
     quadcopter_dynamics sin cos inv cont2discrete (Arr2 mx) u d = Err IndexError) /\
  (forall mx mu param, 12 <= nrows mx -> 1 <= ncols mx ->
     read_param d = Ok param ->
     PrimFloat.is_infinity (get mx 6 0) = false ->
     PrimFloat.is_infinity (get mx 7 0) = false ->
     PrimFloat.is_infinity (get mx 8 0) = false ->
     nrows mu < 4 ->
     quadcopter_dynamics sin cos inv cont2discrete (Arr2 mx) (Arr2 mu) d
     = Err IndexError).
Proof.
  split; [reflexivity|]. split; [|split].
  - intros mx u Hsmall. unfold quadcopter_dynamics.
    cbn [angles_and_rates].
    replace ((12 <=? nrows mx) && (1 <=? ncols mx)) with false; [reflexivity|].
    symmetry. apply andb_false_iff.
    destruct Hsmall; [left; apply Nat.leb_gt; lia | right; apply Nat.leb_gt; lia].
  - intros mx u param Hr Hc Hp Hu. unfold quadcopter_dynamics.
    cbn [angles_and_rates].
    replace ((12 <=? nrows mx) && (1 <=? ncols mx)) with true
      by (symmetry; apply andb_true_iff; split; apply Nat.leb_le; lia).
    cbn [rbind]. rewrite Hp. cbn [rbind]. unfold system_matrices.
    destruct param as [Ts g m k [[A1 A2] A3] [[Ixx Iyy] Izz] l b].
    cbn [p_m p_k p_A p_I p_l p_b].
    destruct u as [v|mu]; [reflexivity|]. cbn [first_column].
    replace (1 <=? ncols mu) with false by (symmetry; apply Nat.leb_gt; lia).
    reflexivity.
  - intros mx mu param Hr Hc Hp H6 H7 H8 Hu. unfold quadcopter_dynamics.
    cbn [angles_and_rates].
    replace ((12 <=? nrows mx) && (1 <=? ncols mx)) with true
      by (symmetry; apply andb_true_iff; split; apply Nat.leb_le; lia).
    cbn [rbind]. rewrite Hp. cbn [rbind]. unfold system_matrices.
    destruct param as [Ts g m k [[A1 A2] A3] [[Ixx Iyy] Izz] l b].
    cbn [p_m p_k p_A p_I p_l p_b first_column].
    destruct (1 <=? ncols mu) eqn:Hcu; [|reflexivity].
    cbn [rbind]. unfold py_sin, py_cos. rewrite H6, H7, H8. cbn [rbind].
    unfold index at 1.
    destruct (nth_error _ 1) as [u1|]; [|reflexivity]. cbn [rbind].
    unfold index at 1.
    destruct (nth_error _ 3) as [u3|] eqn:E3; [|reflexivity].
    exfalso.
    assert (Hlen : 3 < length (map (fun i => get mu i 0) (seq 0 (nrows mu))))
      by (apply List.nth_error_Some; congruence).
    rewrite length_map, length_seq in Hlen. lia.
Qed.

(** X19: the acceleration of gravity enters a step of quadcopter_dynamics
    only through the vector G*Ts that is added to the state: with another g
    and everything else equal, the call returns as well, with the same
    output y and the same [Ad.x + Bd.u], to which the other G*Ts is
    added. *)
Theorem quadcopter_gravity_only_in_offset
    (x u : ndarray) (Ts g g' m k : float) (A I : float * float * float) (l b : float)
    (xout yout : ndarray) :
  quadcopter_dynamics sin cos inv cont2discrete x u
    (complete (QuadParam Ts g m k A I l b))
  = Ok (xout, yout) ->
  exists free xout',
    nd_add free (Arr2 (m_scale_r (gravity g) Ts)) = Ok xout /\
    quadcopter_dynamics sin cos inv cont2discrete x u
      (complete (QuadParam Ts g' m k A I l b))
    = Ok (xout', yout) /\
    nd_add free (Arr2 (m_scale_r (gravity g') Ts)) = Ok xout'.
Proof.
  intros H.
  apply quadcopter_dynamics_gravity in H
    as (param & Ac & Bc & Cc & T & tau_b & Ad & Bd & Cd & Adx & Bdu & free
        & Hp & _ & _ & _ & _ & _ & Hx & _ & Hg).
  rewrite read_param_complete in Hp. injection Hp as <-.
  cbn [inner_loop_h p_g] in Hx, Hg.
  destruct (Hg g') as (xout' & Hcall & Hx').
  exists free, xout'. split; [exact Hx|]. split; [exact Hcall | exact Hx'].
Qed.

(** X20: with a mass of zero (0.0 or -0.0) quadcopter_dynamics raises
    ZeroDivisionError, once the state and the control signal have passed
    (the shapes, and angles that are not infinite), the dictionary holds all
    the parameters and the inverse of J was found. *)
Theorem quadcopter_zero_mass_raises
    (mx mu : matrix) (Ts g m k : float) (A : float * float * float)
    (Ixx Iyy Izz l b : float) (invJ : matrix) :
  12 <= nrows mx -> 1 <= ncols mx -> 4 <= nrows mu -> 1 <= ncols mu ->
  PrimFloat.is_infinity (get mx 6 0) = false ->
  PrimFloat.is_infinity (get mx 7 0) = false ->
  PrimFloat.is_infinity (get mx 8 0) = false ->
  inv (inertia Ixx Iyy Izz (sin (get mx 6 0)) (sin (get mx 7 0))
         (cos (get mx 6 0)) (cos (get mx 7 0))) = Ok invJ ->
  is_zero m = true ->
  quadcopter_dynamics sin cos inv cont2discrete (Arr2 mx) (Arr2 mu)
    (complete (QuadParam Ts g m k A (Ixx, Iyy, Izz) l b)) = Err ZeroDivisionError.
Proof.
  intros Hr Hc Hru Hcu H6 H7 H8 HJ Hm.
  rewrite quadcopter_dynamics_complete.
  unfold continuous_system, system_matrices.
  cbn [angles_and_rates first_column p_m p_k p_A p_I p_l p_b].
  replace ((12 <=? nrows mx) && (1 <=? ncols mx)) with true
    by (symmetry; apply andb_true_iff; split; apply Nat.leb_le; lia).
  replace (1 <=? ncols mu) with true by (symmetry; apply Nat.leb_le; lia).
  cbn [rbind]. unfold py_sin, py_cos. rewrite H6, H7, H8. cbn [rbind].
  assert (Hidx : forall i, i < 4 ->
            index (map (fun i => get mu i 0) (seq 0 (nrows mu))) i = Ok (get mu i 0)).
  { intros i Hi. unfold index.
    rewrite nth_error_map, nth_error_seq.
    replace (i <? nrows mu) with true by (symmetry; apply Nat.ltb_lt; lia).
    reflexivity. }
  rewrite !Hidx by lia. cbn [rbind]. rewrite HJ. cbn [rbind].
  unfold py_div. unfold is_zero in Hm. rewrite Hm. reflexivity.
Qed.

End DynamicsEdges.

Lemma opp_add_self_zero (s : float) :
  is_finite s = true -> is_zero (- s + s) = true.
Proof.
  unfold is_finite. intros Hs. apply is_zero_spec.
  rewrite FloatAxioms.add_spec, FloatAxioms.opp_spec. unfold SF64add.
  destruct (SFadd_opp_self (Prim2SF s)) as (s0 & H & _); [|eauto].
  destruct (Prim2SF s) as [s'|s'| |s' m e]; try discriminate; eauto.
Qed.

Lemma sub_self_zero (s : float) :
  is_finite s = true -> is_zero (s - s) = true.
Proof.
  unfold is_finite. intros Hs. apply is_zero_spec.
  rewrite FloatAxioms.sub_spec. unfold SF64sub.
  destruct (SFadd_opp_self (Prim2SF s)) as (s0 & _ & H); [|eauto].
  destruct (Prim2SF s) as [s'|s'| |s' m e]; try discriminate; eauto.
Qed.

(** [s - s + s - s], added up from the left, is zero. *)
Lemma alternating_sum_zero (s : float) :
  is_finite s = true -> is_zero (s - s + s - s) = true.
Proof.
  intros Hs. pose proof (sub_self_zero s Hs) as H0.
  destruct (is_zero s) eqn:Hz.
  - assert (H1 : is_zero (s - s + s) = true) by now apply add_zero_zero.
    apply is_zero_spec in H1 as [s1 H1]. apply is_zero_spec in Hz as [s2 Hz].
    apply is_zero_spec. rewrite FloatAxioms.sub_spec, H1, Hz. unfold SF64sub. cbn.
    destruct s1, s2; cbn; eauto.
  - rewrite (add_zero_l _ _ H0 Hz). exact H0.
Qed.

(** A sum in which one term is [1 * a] and the others are [0 * b] with [b]
    finite. *)
Lemma fsum_select (c x : nat -> float) (n p : nat) :
  p < n -> c p = 1%float ->
  (forall k, k < n -> k <> p -> c k = 0%float /\ is_finite (x k) = true) ->
  let r := fsum (map (fun k => (c k * x k)%float) (seq 0 n)) in
  r = x p \/ (is_zero r = true /\ is_zero (x p) = true).
Proof.
  intros Hp Hcp Hc r. subst r. unfold fsum.
  replace n with (p + S (n - p - 1)) by lia.
  rewrite seq_app, map_app, fold_left_app. cbn [seq map fold_left Nat.add].
  rewrite Hcp, float_mul_1_l.
  set (z := fold_left PrimFloat.add (map _ (seq 0 p)) 0%float).
  assert (Hz : is_zero z = true).
  { apply fold_add_zeros; [reflexivity|]. apply List.Forall_forall.
    intros t Ht. apply in_map_iff in Ht as (k & <- & Hk). apply in_seq in Hk.
    destruct (Hc k) as [-> Hf]; [lia..|]. now apply mul_zero_finite. }
  assert (Hrest : Forall (fun a => is_zero a = true)
                    (map (fun k => (c k * x k)%float) (seq (S p) (n - p - 1)))).
  { apply List.Forall_forall.
    intros t Ht. apply in_map_iff in Ht as (k & <- & Hk). apply in_seq in Hk.
    destruct (Hc k) as [-> Hf]; [lia..|]. now apply mul_zero_finite. }
  revert Hrest. generalize (map (fun k => (c k * x k)%float) (seq (S p) (n - p - 1))).
  intros rest Hrest.
  destruct (is_zero (x p)) eqn:Hx.
  - right. split; [|reflexivity]. apply fold_add_zeros; [|exact Hrest].
    now apply add_zero_zero.
  - left. rewrite (add_zero_l _ _ Hz Hx).
    induction Hrest as [|a rest Ha _ IH]; [reflexivity|].
    cbn [fold_left]. now rewrite (add_zero_r _ _ Ha Hx).
Qed.

Lemma index_first_column (mu : matrix) (uc : list float) (i : nat) (a : float) :
  first_column (Arr2 mu) = Ok uc -> index uc i = Ok a -> a = get mu i 0.
Proof.
  cbn [first_column]. destruct (1 <=? ncols mu); [|discriminate].
  intros [= <-]. unfold index. rewrite nth_error_map, nth_error_seq.
  destruct (i <? nrows mu); cbn; [now intros [= <-] | discriminate].
Qed.

Section DynamicsStructure.

Variables sin cos : float -> float.
Variable inv : matrix -> result matrix.
Variable cont2discrete : matrix -> matrix -> matrix -> float ->
                         result (matrix * matrix * matrix).

(** X21: four equal rotor inputs give no torque: when the four entries of
    the control signal are one finite number a with a finite square, and
    l*k and b are finite, the three torques that quadcopter_dynamics forms
    are zero. *)
Theorem quadcopter_equal_rotors_no_torque
    (x : ndarray) (mu : matrix) (param : quad_param)
    (Ac Bc Cc : matrix) (T : float) (tau_b : matrix) (a : float) :
  continuous_system sin cos inv x (Arr2 mu) param = Ok (Ac, Bc, Cc, T, tau_b) ->
  (forall i, i < 4 -> get mu i 0 = a) ->
  is_finite (sq a) = true ->
  is_finite (p_l param * p_k param) = true -> is_finite (p_b param) = true ->
  nrows tau_b = 3 /\ ncols tau_b = 1 /\
  forall i, i < 3 -> is_zero (get tau_b i 0) = true.
Proof.
  clear cont2discrete.
  intros H Ha Hs Hlk Hb.
  apply continuous_system_inputs in H
    as (uc & u0 & u1 & u2 & u3 & Huc & E0 & E1 & E2 & E3 & _ & ->).
  apply (index_first_column _ _ _ _ Huc) in E0, E1, E2, E3.
  rewrite Ha in E0, E1, E2, E3 by lia. subst u0 u1 u2 u3.
  split; [reflexivity|]. split; [reflexivity|].
  intros i Hi. destruct i as [|[|[|i]]]; [| | |lia]; cbn [get nth ncols mdata Nat.mul Nat.add].
  - apply mul_finite_zero; [exact Hlk | now apply opp_add_self_zero].
  - apply mul_finite_zero; [exact Hlk | now apply opp_add_self_zero].
  - apply mul_finite_zero; [exact Hb | now apply alternating_sum_zero].
Qed.

(** The output matrix [Cc] of lines 340-341. *)
Lemma continuous_system_output (x u : ndarray) (param : quad_param)
    (Ac Bc Cc : matrix) (T : float) (tau_b : matrix) :
  continuous_system sin cos inv x u param = Ok (Ac, Bc, Cc, T, tau_b) ->
  nrows Cc = 7 /\ ncols Cc = 12 /\
  forall i k, i < 7 -> k < 12 ->
    get Cc i k = if k =? i + 2 then 1%float else 0%float.
Proof.
  clear cont2discrete.
  intros H. unfold continuous_system in H.
  apply rbind_ok in H as ([[[[[phi theta] psi] phidot] thetadot] psidot] & _ & H).
  unfold system_matrices in H.
  destruct param as [Ts g m k [[A1 A2] A3] [[Ixx Iyy] Izz] l b].
  cbn [p_m p_k p_A p_I p_l p_b] in H.
  do 21 (apply rbind_ok in H as (? & _ & H)).
  apply rbind_ok in H as (Cc' & HC & H).
  injection H as _ _ <- _ _.
  vm_compute in HC. injection HC as <-.
  split; [reflexivity|]. split; [reflexivity|].
  intros i j Hi Hj.
  do 7 (destruct i as [|i]; [do 12 (destruct j as [|j]; [reflexivity|]); lia|]).
  lia.
Qed.

(** X22: the output y of quadcopter_dynamics is the part of the state it was
    given (not of the new state) in the slots 2 to 8: the height, the three
    velocities and the three angles.  It holds when the discretization
    leaves the output matrix as it is, as a zero-order hold does, and the
    state is finite; a zero may come back with the other sign. *)
Theorem quadcopter_output_selects_states
    (mx : matrix) (u : ndarray) (param : quad_param)
    (Ac Bc Cc : matrix) (T : float) (tau_b Ad Bd : matrix) (xout yout : ndarray) :
  continuous_system sin cos inv (Arr2 mx) u param = Ok (Ac, Bc, Cc, T, tau_b) ->
  cont2discrete Ac Bc Cc (inner_loop_h param) = Ok (Ad, Bd, Cc) ->
  quadcopter_dynamics sin cos inv cont2discrete (Arr2 mx) u (complete param)
  = Ok (xout, yout) ->
  wf_matrix mx -> finite_matrix mx = true ->
  exists Y,
    yout = Arr2 Y /\ nrows Y = 7 /\ ncols Y = ncols mx /\
    forall i j, i < 7 -> j < ncols mx ->
      get Y i j = get mx (i + 2) j \/
      (is_zero (get Y i j) = true /\ is_zero (get mx (i + 2) j) = true).
Proof.
  intros Hc Hd H Hwf Hfin. rewrite quadcopter_dynamics_complete in H.
  rewrite Hc in H. cbn [rbind] in H. rewrite Hd in H. cbn [rbind] in H.
  do 4 (apply rbind_ok in H as (? & _ & H)).
  apply rbind_ok in H as (yout' & Hy & [= _ <-]).
  apply continuous_system_output in Hc as (HrC & HcC & HC).
  cbn [dot_mv] in Hy. apply rbind_ok in Hy as (Y & HY & [= <-]).
  unfold dot_mm in HY. destruct (ncols Cc =? nrows mx) eqn:Hn; [|discriminate].
  apply Nat.eqb_eq in Hn. injection HY as <-.
  eexists. split; [reflexivity|]. split; [exact HrC|]. split; [reflexivity|].
  intros i j Hi Hj. rewrite get_tabulate by lia. rewrite HcC.
  apply (fsum_select (fun k => get Cc i k) (fun k => get mx k j) 12 (i + 2)).
  - lia.
  - rewrite HC by lia. now rewrite Nat.eqb_refl.
  - intros k Hk Hne. split.
    + rewrite HC by lia.
      now replace (k =? i + 2) with false by (symmetry; apply Nat.eqb_neq; lia).
    + apply get_finite; try assumption; lia.
Qed.

End DynamicsStructure.

Lemma sq_opp (a : float) : sq (- a) = sq a.
Proof.
  unfold sq. apply Prim2SF_inj.
  rewrite !FloatAxioms.mul_spec, FloatAxioms.opp_spec. unfold SF64mul.
  destruct (Prim2SF a) as [s|s| |s m e]; cbn; try reflexivity;
    now destruct s.
Qed.

Section DynamicsInputs.

Variables sin cos : float -> float.
Variable inv : matrix -> result matrix.
Variable cont2discrete : matrix -> matrix -> matrix -> float ->
                         result (matrix * matrix * matrix).

(** X23: quadcopter_dynamics reads the control signal only through the
    squares of the entries of its first column: two control signals with as
    many rows, whose first columns have equal squares, give the same result
    (the same state and output, or the same exception).  So further
    columns are ignored, and so is the sign of an entry. *)
Theorem quadcopter_reads_squared_inputs
    (x : ndarray) (mu mu' : matrix) (d : param_dict) :
  nrows mu = nrows mu' -> 1 <= ncols mu -> 1 <= ncols mu' ->
  (forall i, i < nrows mu -> sq (get mu i 0) = sq (get mu' i 0)) ->
  quadcopter_dynamics sin cos inv cont2discrete x (Arr2 mu) d
  = quadcopter_dynamics sin cos inv cont2discrete x (Arr2 mu') d.
Proof.
  intros Hn Hc Hc' Hsq. unfold quadcopter_dynamics.
  destruct (angles_and_rates x)
    as [[[[[[phi theta] psi] phidot] thetadot] psidot]|e]; [|reflexivity].
  cbn [rbind]. destruct (read_param d) as [param|e]; [|reflexivity].
  cbn [rbind]. f_equal. unfold system_matrices.
  cbn [rbind first_column].
  replace (1 <=? ncols mu) with true by (symmetry; apply Nat.leb_le; lia).
  replace (1 <=? ncols mu') with true by (symmetry; apply Nat.leb_le; lia).
  cbn [rbind]. rewrite <- Hn.
  destruct param as [Ts g m k [[A1 A2] A3] [[Ixx Iyy] Izz] l b].
  cbn [p_m p_k p_A p_I p_l p_b].
  assert (Hmap : map sq (map (fun i => get mu i 0) (seq 0 (nrows mu)))
                 = map sq (map (fun i => get mu' i 0) (seq 0 (nrows mu)))).
  { rewrite !map_map. apply map_ext_in. intros i Hi. apply in_seq in Hi.
    apply Hsq. lia. }
  rewrite Hmap.
  destruct (py_sin sin phi) as [Sphi|e]; [|reflexivity]. cbn [rbind].
  destruct (py_sin sin theta) as [Stheta|e]; [|reflexivity]. cbn [rbind].
  destruct (py_sin sin psi) as [Spsi|e]; [|reflexivity]. cbn [rbind].
  destruct (py_cos cos phi) as [Cphi|e]; [|reflexivity]. cbn [rbind].
  destruct (py_cos cos theta) as [Ctheta|e]; [|reflexivity]. cbn [rbind].
  destruct (py_cos cos psi) as [Cpsi|e]; [|reflexivity]. cbn [rbind].
  assert (Hidx : forall (m0 : matrix) i,
            index (map (fun i => get m0 i 0) (seq 0 (nrows mu))) i
            = if i <? nrows mu then Ok (get m0 i 0) else Err IndexError).
  { intros m0 i. unfold index. rewrite nth_error_map, nth_error_seq.
    destruct (i <? nrows mu); reflexivity. }
  rewrite !Hidx.
  destruct (1 <? nrows mu) eqn:H1; [|reflexivity].
  destruct (3 <? nrows mu) eqn:H3; [|reflexivity].
  apply Nat.ltb_lt in H3.
  replace (0 <? nrows mu) with true by (symmetry; apply Nat.ltb_lt; lia).
  replace (2 <? nrows mu) with true by (symmetry; apply Nat.ltb_lt; lia).
  cbn [rbind].
  rewrite (Hsq 0), (Hsq 1), (Hsq 2), (Hsq 3) by lia.
  reflexivity.
Qed.

End DynamicsInputs.

Lemma quadcopter_reads_squared_inputs_witness :
  let param := QuadParam 0.01 9.81 0.03 1e-6 (0.1, 0.1, 0.2)%float
                 (1e-5, 1e-5, 2e-5)%float 0.046 1e-9 in
  quadcopter_dynamics sin_taylor cos_taylor inv_gauss c2d_euler
    (Arr2 (zeros 12 1)) (Arr2 (Mat 4 1 [100; 200; 300; 400]%float)) (complete param)
  = quadcopter_dynamics sin_taylor cos_taylor inv_gauss c2d_euler
      (Arr2 (zeros 12 1))
      (Arr2 (Mat 4 2 [-100; 7; 200; 7; -300; 7; -400; 7]%float)) (complete param).
Proof.
  intros param.
  apply (quadcopter_reads_squared_inputs sin_taylor cos_taylor inv_gauss c2d_euler
           (Arr2 (zeros 12 1)) (Mat 4 1 [100; 200; 300; 400]%float)
           (Mat 4 2 [-100; 7; 200; 7; -300; 7; -400; 7]%float) (complete param)).
  - reflexivity.
  - simpl; lia.
  - simpl; lia.
  - intros i Hi. destruct i as [|[|[|[|i]]]]; [reflexivity..|simpl in Hi; lia].
Defined.

Lemma quadcopter_dynamics_exceptions_witness :
  let param := QuadParam 0.01 9.81 0.03 1e-6 (0.1, 0.1, 0.2)%float
                 (1e-5, 1e-5, 2e-5)%float 0.046 1e-9 in
  quadcopter_dynamics sin_taylor cos_taylor inv_gauss c2d_euler
    (Arr2 (zeros 12 1)) (Arr2 (zeros 3 1)) (complete param) = Err IndexError /\
  (IndexError = IndexError \/ IndexError = ValueError \/
   IndexError = KeyError \/ IndexError = ZeroDivisionError \/
   (exists J, inv_gauss J = Err IndexError) \/
   (exists Ac Bc Cc Ts, c2d_euler Ac Bc Cc Ts = Err IndexError)).
Proof.
  intros param. split; [vm_compute; reflexivity|].
  apply (quadcopter_dynamics_exceptions sin_taylor cos_taylor inv_gauss c2d_euler
           (Arr2 (zeros 12 1)) (Arr2 (zeros 3 1)) (complete param)).
  vm_compute; reflexivity.
Defined.

Lemma quadcopter_dynamics_rejects_wrong_shapes_witness :
  let param := QuadParam 0.01 9.81 0.03 1e-6 (0.1, 0.1, 0.2)%float
                 (1e-5, 1e-5, 2e-5)%float 0.046 1e-9 in
  let step := quadcopter_dynamics sin_taylor cos_taylor inv_gauss c2d_euler in
  step (Arr1 []) (Arr2 (zeros 4 1)) (complete param) = Err IndexError /\
  step (Arr2 (zeros 11 1)) (Arr2 (zeros 4 1)) (complete param) = Err ValueError /\
  step (Arr2 (zeros 12 1)) (Arr1 [0; 0; 0; 0]%float) (complete param) = Err IndexError /\
  step (Arr2 (zeros 12 1)) (Arr2 (zeros 3 1)) (complete param) = Err IndexError.
Proof.
  intros param step.
  destruct (quadcopter_dynamics_rejects_wrong_shapes sin_taylor cos_taylor inv_gauss
              c2d_euler (complete param)) as (H1 & H2 & H3 & H4).
  split; [apply H1|].
  split; [apply H2; left; simpl; lia|].
  split; [apply (H3 (zeros 12 1) (Arr1 [0; 0; 0; 0]%float) param);
          [simpl; lia | simpl; lia | reflexivity | exact I]|].
  apply (H4 (zeros 12 1) (zeros 3 1) param);
    [simpl; lia | simpl; lia | reflexivity | reflexivity | reflexivity | reflexivity
    | simpl; lia].
Defined.

Lemma quadcopter_gravity_only_in_offset_witness :
  exists free xout xout' yout,
    quadcopter_dynamics sin_taylor cos_taylor inv_gauss c2d_euler
      (Arr2 (zeros 12 1)) (Arr2 (zeros 4 1))
      (complete (QuadParam 0.01 9.81 0.03 1e-6 (0.1, 0.1, 0.2)%float
                   (1e-5, 1e-5, 2e-5)%float 0.046 1e-9)) = Ok (xout, yout) /\
    nd_add free (Arr2 (m_scale_r (gravity 9.81) 0.01)) = Ok xout /\
    quadcopter_dynamics sin_taylor cos_taylor inv_gauss c2d_euler
      (Arr2 (zeros 12 1)) (Arr2 (zeros 4 1))
      (complete (QuadParam 0.01 1.62 0.03 1e-6 (0.1, 0.1, 0.2)%float
                   (1e-5, 1e-5, 2e-5)%float 0.046 1e-9)) = Ok (xout', yout) /\
    nd_add free (Arr2 (m_scale_r (gravity 1.62) 0.01)) = Ok xout'.
Proof.
  destruct (quadcopter_dynamics sin_taylor cos_taylor inv_gauss c2d_euler
      (Arr2 (zeros 12 1)) (Arr2 (zeros 4 1))
      (complete (QuadParam 0.01 9.81 0.03 1e-6 (0.1, 0.1, 0.2)%float
                   (1e-5, 1e-5, 2e-5)%float 0.046 1e-9))) as [[xout yout]|e] eqn:E;
    [|vm_compute in E; discriminate E].
  destruct (quadcopter_gravity_only_in_offset sin_taylor cos_taylor inv_gauss c2d_euler
              _ _ _ _ 1.62%float _ _ _ _ _ _ _ _ E) as (free & xout' & H1 & H2 & H3).
  exists free, xout, xout', yout. auto.
Defined.

Lemma quadcopter_zero_mass_raises_witness :
  quadcopter_dynamics sin_taylor cos_taylor inv_gauss c2d_euler
    (Arr2 (zeros 12 1)) (Arr2 (zeros 4 1))
    (complete (QuadParam 0.01 9.81 0 1e-6 (0.1, 0.1, 0.2)%float
                 (1e-5, 1e-5, 2e-5)%float 0.046 1e-9)) = Err ZeroDivisionError.
Proof.
  eapply (quadcopter_zero_mass_raises sin_taylor cos_taylor inv_gauss c2d_euler
            (zeros 12 1) (zeros 4 1)).
  - simpl; lia.
  - simpl; lia.
  - simpl; lia.
  - simpl; lia.
  - reflexivity.
  - reflexivity.
  - reflexivity.
  - vm_compute; reflexivity.
  - reflexivity.
Defined.

Lemma quadcopter_equal_rotors_no_torque_witness :
  let param := QuadParam 0.01 9.81 0.03 1e-6 (0.1, 0.1, 0.2)%float
                 (1e-5, 1e-5, 2e-5)%float 0.046 1e-9 in
  exists Ac Bc Cc T tau_b,
    continuous_system sin_taylor cos_taylor inv_gauss
      (Arr2 (zeros 12 1)) (Arr2 (Mat 4 1 [100; 100; 100; 100]%float)) param
    = Ok (Ac, Bc, Cc, T, tau_b) /\
    nrows tau_b = 3 /\ ncols tau_b = 1 /\
    forall i, i < 3 -> is_zero (get tau_b i 0) = true.
Proof.
  intros param.
  destruct (continuous_system sin_taylor cos_taylor inv_gauss
      (Arr2 (zeros 12 1)) (Arr2 (Mat 4 1 [100; 100; 100; 100]%float)) param)
    as [[[[[Ac Bc] Cc] T] tau_b]|e] eqn:E; [|vm_compute in E; discriminate E].
  exists Ac, Bc, Cc, T, tau_b. split; [reflexivity|].
  apply (quadcopter_equal_rotors_no_torque sin_taylor cos_taylor inv_gauss
           (Arr2 (zeros 12 1)) (Mat 4 1 [100; 100; 100; 100]%float) param
           Ac Bc Cc T tau_b 100%float E).
  - intros i Hi. destruct i as [|[|[|[|i]]]]; [reflexivity..|lia].
  - reflexivity.
  - reflexivity.
  - reflexivity.
Defined.

Lemma quadcopter_output_selects_states_witness :
  let param := QuadParam 0.01 9.81 0.03 1e-6 (0.1, 0.1, 0.2)%float
                 (1e-5, 1e-5, 2e-5)%float 0.046 1e-9 in
  let mx := Mat 12 1 [1; 2; 3; 4; 5; 6; 0.1; 0.2; 0.3; 0; 0; 0]%float in
  exists xout Y,
    quadcopter_dynamics sin_taylor cos_taylor inv_gauss c2d_euler
      (Arr2 mx) (Arr2 (zeros 4 1)) (complete param) = Ok (xout, Arr2 Y) /\
    nrows Y = 7 /\ ncols Y = 1 /\
    forall i j, i < 7 -> j < 1 ->
      get Y i j = get mx (i + 2) j \/
      (is_zero (get Y i j) = true /\ is_zero (get mx (i + 2) j) = true).
Proof.
  intros param mx.
  destruct (continuous_system sin_taylor cos_taylor inv_gauss
              (Arr2 mx) (Arr2 (zeros 4 1)) param)
    as [[[[[Ac Bc] Cc] T] tau_b]|e] eqn:Ec; [|vm_compute in Ec; discriminate Ec].
  destruct (c2d_euler Ac Bc Cc (inner_loop_h param)) as [[[Ad Bd] Cd]|e] eqn:Ed.
  2:{ vm_compute in Ec. injection Ec as <- <- <- <- <-.
      vm_compute in Ed. discriminate Ed. }
  assert (Cd = Cc) as ->.
  { unfold c2d_euler in Ed. destruct (m_add _ _); [|discriminate].
    now injection Ed as _ _ <-. }
  destruct (quadcopter_dynamics sin_taylor cos_taylor inv_gauss c2d_euler
              (Arr2 mx) (Arr2 (zeros 4 1)) (complete param)) as [[xout yout]|e] eqn:E;
    [|vm_compute in E; discriminate E].
  destruct (quadcopter_output_selects_states sin_taylor cos_taylor inv_gauss c2d_euler
              mx (Arr2 (zeros 4 1)) param Ac Bc Cc T tau_b Ad Bd xout yout Ec Ed E)
    as (Y & -> & Hr & Hc & Hget).
  - reflexivity.
  - reflexivity.
  - exists xout, Y. auto.
Defined.

(** ** The error kinds *)

(** C8, the claim as stated fails: on a singular innovation covariance (all
    covariances zero) the linear Kalman step raises the LinAlgError of the
    inverse, not SingularInnovationCovariance; on a covariance that is not
    positive definite the unscented step raises the LinAlgError of the
    Cholesky factorization, not NonPositiveDefiniteCovariance. *)
Lemma filters_raise_LinAlgError :
  let O1 := Mat 1 1 [0]%float in
  let kf := discrete_KF_update inv_gauss (Arr1 [0]%float) PEmptyList
              (Some (Arr1 [1]%float)) (eye 1) PEmptyList (eye 1) O1 O1 O1 in
  let ukf := discrete_UKF_update cholesky_upper inv_gauss unit unit
               (Arr2 (Mat 1 1 [0]%float)) (PArr (Arr1 [])) (Arr2 (Mat 1 1 [1]%float))
               (fun x _ _ => Ok (x, tt)) (fun x => Ok x) tt O1 (eye 1) (eye 1) in
  innovation_covariance (eye 1) O1 O1 = Ok O1 /\
  kf = Err LinAlgError /\ kf <> Err SingularInnovationCovariance /\
  ukf = Err LinAlgError /\ ukf <> Err NonPositiveDefiniteCovariance.
Proof.
  intros O1 kf ukf.
  assert (Hkf : kf = Err LinAlgError) by (vm_compute; reflexivity).
  assert (Hukf : ukf = Err LinAlgError) by (vm_compute; reflexivity).
  rewrite Hkf, Hukf.
  split; [vm_compute; reflexivity|].
  repeat split; discriminate.
Qed.

Section ErrorPropagation.

Context {rng_state : Type}.
Variable randn : rng_state -> float * rng_state.
Variables sin cos : float -> float.
Variable cholesky : matrix -> result matrix.
Variable inv : matrix -> result matrix.
Variable cont2discrete : matrix -> matrix -> matrix -> float ->
                         result (matrix * matrix * matrix).
Variables (param aux : Type).

(** The linear Kalman step with a measurement raises what the inverse
    raised on the innovation covariance. *)
Lemma KF_update_inverse_raises
    (x : ndarray) (u : pyarg ndarray) (z : ndarray) (A : matrix) (B : pyarg matrix)
    (C P Q R : matrix) (xf : ndarray) (Pf S : matrix) (e : exn) :
  predict_state x u A B = Ok xf ->
  predict_covariance A P Q = Ok Pf ->
  innovation_covariance C Pf R = Ok S ->
  inv S = Err e ->
  discrete_KF_update inv x u (Some z) A B C P Q R = Err e.
Proof.
  intros Hxf HPf HS Hinv.
  unfold discrete_KF_update. rewrite Hxf, HPf. cbn [rbind].
  pose proof HS as HS'. unfold innovation_covariance in HS'.
  apply rbind_ok in HS' as (PfCt & HPfCt & _).
  rewrite HPfCt. cbn [rbind]. rewrite HS. cbn [rbind]. rewrite Hinv. reflexivity.
Qed.

(** C8, amended: in place of the error kinds SingularInnovationCovariance
    and NonPositiveDefiniteCovariance, the exception that the library
    routine raises reaches the caller unchanged.  When the prediction and
    the innovation covariance S are computed and [scipy.linalg.inv] raises
    on S, discrete_KF_update with a measurement raises that exception; so
    does discrete_AKF_update, after it has shifted the history and stored z,
    when the history has a slot and a column, z fits a row of it and the
    head is not missing.  When u is an array, the weights and the square
    root of the scaling are computed and [scipy.linalg.cholesky] raises on P,
    discrete_UKF_update raises that exception.  In quadcopter_dynamics, with
    a state of twelve rows and a control signal of four, each with a column,
    angles that are not infinite and a dictionary that holds the
    parameters, the exception that [scipy.linalg.inv] raises on J is raised;
    and when the continuous-time system is computed, the exception that
    [cont2discrete] raises on it is raised. *)
Theorem filters_raise_what_the_library_raises :
  (forall (x : ndarray) (u : pyarg ndarray) (z : ndarray) (A : matrix)
          (B : pyarg matrix) (C P Q R : matrix) (xf : ndarray) (Pf S : matrix)
          (e : exn),
      predict_state x u A B = Ok xf ->
      predict_covariance A P Q = Ok Pf ->
      innovation_covariance C Pf R = Ok S ->
      inv S = Err e ->
      discrete_KF_update inv x u (Some z) A B C P Q R = Err e)
  /\
  (forall (x : ndarray) (u : pyarg ndarray) (z : option ndarray) (zhist : loc)
          (A : matrix) (B : pyarg matrix) (C P Q R : matrix)
          (trajectory : float -> float) (t Ts : float) (w : world rng_state)
          (m0 : matrix) (zv : list float) (xf : ndarray) (Pf S : matrix) (e : exn),
      heap w !! zhist = Some m0 -> 0 < nrows m0 -> 0 < ncols m0 ->
      row_for (ncols m0) z = Ok zv ->
      PrimFloat.is_nan (get (set_row (shift_rows m0) (nrows m0 - 1) zv) 0 0) = false ->
      predict_state x u A B = Ok xf ->
      predict_covariance A P Q = Ok Pf ->
      innovation_covariance C Pf R = Ok S ->
      inv S = Err e ->
      discrete_AKF_update rng_state randn inv x u z zhist A B C P Q R
        trajectory t Ts w
      = (Err e, World (<[zhist := set_row (shift_rows m0) (nrows m0 - 1) zv]> (heap w))
                  (rng w)))
  /\
  (forall (x u z : ndarray)
          (F : ndarray -> ndarray -> param -> result (ndarray * aux))
          (H : ndarray -> result ndarray) (pm : param) (P Q R : matrix)
          (W : list float * list float) (s : float) (e : exn),
      ukf_weights (shape0 x) = Ok W ->
      py_sqrt (float_of_nat (shape0 x) + ukf_lam (shape0 x)) = Ok s ->
      cholesky P = Err e ->
      discrete_UKF_update cholesky inv param aux x (PArr u) z F H pm P Q R = Err e)
  /\
  (forall (mx mu : matrix) (d : param_dict) (Ts g m k : float)
          (A : float * float * float) (Ixx Iyy Izz l b : float) (e : exn),
      12 <= nrows mx -> 1 <= ncols mx -> 4 <= nrows mu -> 1 <= ncols mu ->
      PrimFloat.is_infinity (get mx 6 0) = false ->
      PrimFloat.is_infinity (get mx 7 0) = false ->
      PrimFloat.is_infinity (get mx 8 0) = false ->
      read_param d = Ok (QuadParam Ts g m k A (Ixx, Iyy, Izz) l b) ->
      inv (inertia Ixx Iyy Izz (sin (get mx 6 0)) (sin (get mx 7 0))
             (cos (get mx 6 0)) (cos (get mx 7 0))) = Err e ->
      quadcopter_dynamics sin cos inv cont2discrete (Arr2 mx) (Arr2 mu) d = Err e)
  /\
  (forall (x u : ndarray) (d : param_dict) (pr : quad_param)
          (Ac Bc Cc : matrix) (T : float) (tau_b : matrix) (e : exn),
      read_param d = Ok pr ->
      continuous_system sin cos inv x u pr = Ok (Ac, Bc, Cc, T, tau_b) ->
      cont2discrete Ac Bc Cc (inner_loop_h pr) = Err e ->
      quadcopter_dynamics sin cos inv cont2discrete x u d = Err e).
Proof.
  split; [exact KF_update_inverse_raises|]. split; [|split; [|split]].
  - intros x u z zhist A B C P Q R trajectory t Ts w m0 zv xf Pf S e
      Hm0 Hr Hc Hzv Hnan Hxf HPf HS Hinv.
    rewrite (discrete_AKF_update_rows randn inv _ _ _ _ _ _ _ _ _ _ _ _ _ _ _ _
               Hm0 Hr Hzv).
    cbn zeta. replace (0 <? ncols m0) with true by (symmetry; apply Nat.ltb_lt; lia).
    rewrite Hnan.
    now rewrite (KF_update_inverse_raises _ _ (Arr1 zv) _ _ _ _ _ _ _ _ _ _
                   Hxf HPf HS Hinv).
  - intros x u z F H pm P Q R W s e HW Hs Hchol.
    unfold discrete_UKF_update. cbn [the_array rbind]. rewrite HW. cbn [rbind].
    destruct W as [Wm Wc].
    unfold ukf_sigma_points. rewrite Hs. cbn [rbind]. rewrite Hchol. reflexivity.
  - intros mx mu d Ts g m k A Ixx Iyy Izz l b e Hr Hc Hru Hcu H6 H7 H8 Hp HJ.
    unfold quadcopter_dynamics. cbn [angles_and_rates].
    replace ((12 <=? nrows mx) && (1 <=? ncols mx)) with true
      by (symmetry; apply andb_true_iff; split; apply Nat.leb_le; lia).
    cbn [rbind]. rewrite Hp. cbn [rbind]. unfold system_matrices.
    cbn [first_column p_m p_k p_A p_I p_l p_b].
    replace (1 <=? ncols mu) with true by (symmetry; apply Nat.leb_le; lia).
    cbn [rbind]. unfold py_sin, py_cos. rewrite H6, H7, H8. cbn [rbind].
    assert (Hidx : forall i, i < 4 ->
              index (map (fun i => get mu i 0) (seq 0 (nrows mu))) i = Ok (get mu i 0)).
    { intros i Hi. unfold index.
      rewrite nth_error_map, nth_error_seq.
      replace (i <? nrows mu) with true by (symmetry; apply Nat.ltb_lt; lia).
      reflexivity. }
    rewrite !Hidx by lia. cbn [rbind]. rewrite HJ. reflexivity.
  - intros x u d pr Ac Bc Cc T tau_b e Hp Hs Hd.
    unfold quadcopter_dynamics. unfold continuous_system in Hs.
    destruct (angles_and_rates x) as [angles|e0]; [|discriminate Hs].
    cbn [rbind] in Hs |- *. rewrite Hp. cbn [rbind]. rewrite Hs. cbn [rbind].
    rewrite Hd. reflexivity.
Qed.

End ErrorPropagation.

Lemma filters_raise_what_the_library_raises_witness :
  let O1 := Mat 1 1 [0]%float in
  let w := World ({[ 7 := Mat 1 1 [5]%float ]} : gmap loc matrix) [0%float] in
  let d := complete (QuadParam 0.01 9.81 0.03 1e-6 (0.1, 0.1, 0.2)%float
                       (0, 0, 0)%float 0.046 1e-9) in
  let d' := complete (QuadParam 0.01 9.81 0.03 1e-6 (0.1, 0.1, 0.2)%float
                        (1e-5, 1e-5, 2e-5)%float 0.046 1e-9) in
  inv_gauss O1 = Err LinAlgError /\
  cholesky_upper O1 = Err LinAlgError /\
  discrete_KF_update inv_gauss (Arr1 [0]%float) PEmptyList
    (Some (Arr1 [1]%float)) (eye 1) PEmptyList (eye 1) O1 O1 O1 = Err LinAlgError /\
  discrete_AKF_update (list float) randn_list inv_gauss (Arr1 [0]%float) PEmptyList
    (Some (Arr1 [1]%float)) 7 (eye 1) PEmptyList (eye 1) O1 O1 O1
    (fun _ => 0%float) 0%float 0.01%float w
  = (Err LinAlgError,
     World ({[ 7 := Mat 1 1 [1]%float ]} : gmap loc matrix) [0%float]) /\
  discrete_UKF_update cholesky_upper inv_gauss unit unit
    (Arr2 (Mat 1 1 [0]%float)) (PArr (Arr1 [])) (Arr2 (Mat 1 1 [1]%float))
    (fun x _ _ => Ok (x, tt)) (fun x => Ok x) tt O1 (eye 1) (eye 1) = Err LinAlgError /\
  quadcopter_dynamics sin_taylor cos_taylor inv_gauss c2d_euler
    (Arr2 (zeros 12 1)) (Arr2 (zeros 4 1)) d = Err LinAlgError /\
  quadcopter_dynamics sin_taylor cos_taylor inv_gauss (fun _ _ _ _ => Err ValueError)
    (Arr2 (zeros 12 1)) (Arr2 (zeros 4 1)) d' = Err ValueError.
Proof.
  intros O1 w d d'.
  destruct (@filters_raise_what_the_library_raises (list float) randn_list
              sin_taylor cos_taylor cholesky_upper inv_gauss c2d_euler unit unit)
    as (HKF & HAKF & HUKF & HJ & _).
  split; [vm_compute; reflexivity|]. split; [vm_compute; reflexivity|].
  split.
  { apply (HKF (Arr1 [0]%float) PEmptyList (Arr1 [1]%float) (eye 1) PEmptyList (eye 1)
             O1 O1 O1 (Arr1 [0]%float) O1 O1 LinAlgError); vm_compute; reflexivity. }
  split.
  { rewrite (HAKF (Arr1 [0]%float) PEmptyList (Some (Arr1 [1]%float)) 7 (eye 1)
               PEmptyList (eye 1) O1 O1 O1 (fun _ => 0%float) 0%float 0.01%float w
               (Mat 1 1 [5]%float) [1%float] (Arr1 [0]%float) O1 O1 LinAlgError);
      try (vm_compute; reflexivity); try (simpl; lia). }
  split.
  { apply (HUKF (Arr2 (Mat 1 1 [0]%float)) (Arr1 []) (Arr2 (Mat 1 1 [1]%float))
             (fun x _ _ => Ok (x, tt)) (fun x => Ok x) tt O1 (eye 1) (eye 1)
             ([-3; 2; 2]%float, [-0.25; 2; 2]%float) 0.5%float LinAlgError);
      vm_compute; reflexivity. }
  split.
  { apply (HJ (zeros 12 1) (zeros 4 1) d 0.01 9.81 0.03 1e-6 (0.1, 0.1, 0.2) 0 0 0
              0.046 1e-9 LinAlgError)%float;
      try (vm_compute; reflexivity); simpl; lia. }
  destruct (@filters_raise_what_the_library_raises (list float) randn_list
              sin_taylor cos_taylor cholesky_upper inv_gauss
              (fun _ _ _ _ => Err ValueError) unit unit)
    as (_ & _ & _ & _ & Hd).
  destruct (continuous_system sin_taylor cos_taylor inv_gauss
              (Arr2 (zeros 12 1)) (Arr2 (zeros 4 1))
              (QuadParam 0.01 9.81 0.03 1e-6 (0.1, 0.1, 0.2)%float
                 (1e-5, 1e-5, 2e-5)%float 0.046 1e-9))
    as [[[[[Ac Bc] Cc] T] tau_b]|e] eqn:E; [|vm_compute in E; discriminate E].
  apply (Hd _ _ d' _ Ac Bc Cc T tau_b ValueError eq_refl E eq_refl).
Defined.
